(** * Multi-criteria country analysis: a shallow embedding of [analysis.py]

    The development follows the Python module function by function:
    [compute_weighted_utility], [find_pareto_optimal], [pareto_frontier_2d],
    [find_dominant_strategy], [find_nash_equilibrium] and
    [build_tradeoff_matrix], together with the few pandas / numpy primitives
    they call ([sort_values], [rank], [round], [head], [idxmax], [max]).

    Numbers.  Factor scores and weights are binary64 values in the source.
    Every finite binary64 value is a rational and [<], [<=], [==] on finite
    floats agree with the order of the rationals, so the functions that only
    compare scores are embedded over [Q].  The functions that also add,
    subtract, multiply, divide, round or take a square root (the scorer, the
    balance of a row, the trade-off deltas) are written once over the
    interfaces [Number] and [Measure] and read twice: over [Q] (exact
    arithmetic) and over Rocq's primitive binary64 floats (the arithmetic
    the interpreter performs). *)

From stdpp Require Import gmap strings.
From Stdlib Require Import ZArith QArith Qround Qminmax Qreals Reals.
From Stdlib Require Import Lia Psatz String List Permutation Sorted.
From Corelib Require PrimFloat FloatOps SpecFloat FloatAxioms.
From Stdlib Require Uint63.
Import ListNotations.

Local Open Scope Q_scope.
Local Open Scope string_scope.
Local Open Scope list_scope.

(** ** Exceptions and fallible computations *)

(** The first five constructors are the exceptions the source can raise
    (through Python or pandas); the last three are the error classes named by
    the design document, none of which is raised anywhere in the source. *)
Inductive exn : Set :=
| ZeroDivisionError
| KeyError
| IndexError
| ValueError
| TypeError
| ConfigurationError
| EmptyInputError
| SchemaError.

Definition result (A : Type) : Type := (exn + A)%type.

Definition ret {A} (a : A) : result A := inr a.
Definition raise {A} (e : exn) : result A := inl e.

Definition bind {A B} (m : result A) (k : A -> result B) : result B :=
  match m with
  | inl e => inl e
  | inr a => k a
  end.

Notation "'let*' x ':=' m 'in' k" := (bind m (fun x => k))
  (at level 10, x pattern, m at level 100, k at level 200).

(** [for x in xs: acc = step(acc, x)] where [step] may raise. *)
Fixpoint foldM {A B} (step : B -> A -> result B) (xs : list A) (acc : B)
  : result B :=
  match xs with
  | [] => ret acc
  | x :: xs' => let* acc' := step acc x in foldM step xs' acc'
  end.

(** [[f(x) for x in xs]] where [f] may raise. *)
Fixpoint mapM {A B} (f : A -> result B) (xs : list A) : result (list B) :=
  match xs with
  | [] => ret []
  | x :: xs' => let* y := f x in let* ys := mapM f xs' in ret (y :: ys)
  end.

(** ** Numbers *)

Class Number (T : Type) := {
  num_of_Z : Z -> T;             (* a Python [int] used as a number *)
  num_add : T -> T -> T;
  num_mul : T -> T -> T;
  num_quot : T -> T -> T;        (* the quotient, for a non-zero divisor *)
  num_eqb : T -> T -> bool;
  num_ltb : T -> T -> bool;
  num_round : nat -> T -> T      (* [numpy.round(x, decimals)] *)
}.

(** Python's [/]: division by zero raises. *)
Definition truediv {T} `{Number T} (a b : T) : result T :=
  if num_eqb b (num_of_Z 0) then raise ZeroDivisionError
  else ret (num_quot a b).

(** [sum(xs)]: the built-in starts from the integer 0 and adds left to right. *)
Definition py_sum {T} `{Number T} (xs : list T) : T :=
  fold_left num_add xs (num_of_Z 0).

(** *** Exact arithmetic *)

(** [numpy.rint]: round to the nearest integer, halves to the even one. *)
Definition Qrint (q : Q) : Z :=
  let n := Qfloor q in
  match Qcompare (q - inject_Z n) (1 # 2) with
  | Lt => n
  | Gt => (n + 1)%Z
  | Eq => if Z.even n then n else (n + 1)%Z
  end.

Definition pow10 (decimals : nat) : Z := (10 ^ Z.of_nat decimals)%Z.

(** [numpy.round(x, decimals)] for [decimals >= 0]: scale, [rint], scale back.
    The result is kept in lowest terms. *)
Definition Qround_decimals (decimals : nat) (x : Q) : Q :=
  Qred (inject_Z (Qrint (x * inject_Z (pow10 decimals)))
        / inject_Z (pow10 decimals)).

Definition Qlt_bool (a b : Q) : bool := negb (Qle_bool b a).

#[export] Instance Q_Number : Number Q := {
  num_of_Z := inject_Z;
  num_add := Qplus;
  num_mul := Qmult;
  num_quot := Qdiv;
  num_eqb := Qeq_bool;
  num_ltb := Qlt_bool;
  num_round := Qround_decimals
}.

(** *** binary64 arithmetic *)

Module Binary64.

(** An integer as a float; exact below 2^53 in magnitude. *)
Definition of_Z (z : Z) : PrimFloat.float :=
  match z with
  | Zneg p => PrimFloat.opp (PrimFloat.of_uint63 (Uint63.of_Z (Zpos p)))
  | _ => PrimFloat.of_uint63 (Uint63.of_Z z)
  end.

Definition two52 : PrimFloat.float := of_Z (2 ^ 52).

(** [rint] under round-to-nearest-even: adding and subtracting 2^52 leaves
    the nearest integer, ties to even; values of magnitude 2^52 or more
    are integers already. *)
Definition rint (x : PrimFloat.float) : PrimFloat.float :=
  if PrimFloat.ltb (PrimFloat.abs x) two52 then
    if PrimFloat.ltb x PrimFloat.zero
    then PrimFloat.opp
           (PrimFloat.sub (PrimFloat.add (PrimFloat.opp x) two52) two52)
    else PrimFloat.sub (PrimFloat.add x two52) two52
  else x.

Definition round_decimals (decimals : nat) (x : PrimFloat.float)
  : PrimFloat.float :=
  let p := of_Z (pow10 decimals) in
  PrimFloat.div (rint (PrimFloat.mul x p)) p.

End Binary64.

#[export] Instance binary64_Number : Number PrimFloat.float := {
  num_of_Z := Binary64.of_Z;
  num_add := PrimFloat.add;
  num_mul := PrimFloat.mul;
  num_quot := PrimFloat.div;
  num_eqb := PrimFloat.eqb;
  num_ltb := PrimFloat.ltb;
  num_round := Binary64.round_decimals
}.

(** *** Subtraction and square roots *)

(** In exact arithmetic a standard deviation is kept as the square root of a
    rational: there is no rational root in general, and two roots compare as
    their radicands do. *)
Record surd : Type := Sqrt { radicand : Q }.

Definition surd_ltb (a b : surd) : bool := Qlt_bool (radicand a) (radicand b).
Definition surd_eqb (a b : surd) : bool := Qeq_bool (radicand a) (radicand b).

(** The real number a [surd] stands for. *)
Definition surd_value (a : surd) : R := sqrt (Q2R (radicand a)).

(** What the balance of a row and the trade-off deltas need besides
    [Number]: subtraction, and a square root with the order in which
    [sort_values] puts its results ([NaN] last, all [NaN] alike). *)
Class Measure (T : Type) `{Number T} := {
  num_sub : T -> T -> T;
  Root : Type;
  num_sqrt : T -> Root;
  root_ltb : Root -> Root -> bool;
  root_eqb : Root -> Root -> bool
}.

#[export] Instance Q_Measure : Measure Q := {
  num_sub := Qminus;
  Root := surd;
  num_sqrt := Sqrt;
  root_ltb := surd_ltb;
  root_eqb := surd_eqb
}.

#[export] Instance binary64_Measure : Measure PrimFloat.float := {
  num_sub := PrimFloat.sub;
  Root := PrimFloat.float;
  num_sqrt := PrimFloat.sqrt;
  root_ltb := fun a b =>
    PrimFloat.ltb a b || (negb (PrimFloat.is_nan a) && PrimFloat.is_nan b);
  root_eqb := fun a b =>
    PrimFloat.eqb a b || (PrimFloat.is_nan a && PrimFloat.is_nan b)
}.

(** ** Tables *)

(** A row of a pandas DataFrame maps column labels to cells.  The tables
    handed to the analysis carry a [Country] column and one numeric column
    per factor (see [build_factor_df]); a row is a country together with
    [value], which reads its numeric columns by label.  The [Region] column
    is carried along untouched by every function and is left out. *)
Record Row (T : Type) : Type := mkRow {
  Country : string;
  value : string -> T
}.
Arguments mkRow {T} _ _.
Arguments Country {T} _.
Arguments value {T} _ _.

(** A table built from literal cells; columns that are not listed read 0. *)
Fixpoint cells {T} `{Number T} (cs : list (string * T)) (col : string) : T :=
  match cs with
  | [] => num_of_Z 0
  | (c, v) :: cs' => if String.eqb c col then v else cells cs' col
  end.

(** A scored table: the input columns plus ["Weighted Score"] and ["Rank"]. *)
Record ScoredRow (T : Type) : Type := mkScored {
  row : Row T;
  Weighted_Score : T;
  Rank : Z
}.
Arguments mkScored {T} _ _ _.
Arguments row {T} _.
Arguments Weighted_Score {T} _.
Arguments Rank {T} _.

(** A Python [dict] from factor names to numbers, in insertion order. *)
Definition dict (T : Type) : Type := list (string * T).

Definition keys {T} (d : dict T) : list string := map fst d.
Definition values {T} (d : dict T) : list T := map snd d.

(** [d[k]]: a missing key raises [KeyError]. *)
Fixpoint getitem {T} (d : dict T) (k : string) : result T :=
  match d with
  | [] => raise KeyError
  | (k', v) :: d' => if String.eqb k' k then ret v else getitem d' k
  end.

(** ** pandas primitives *)

(** [sort_values]: insertion in front of the first element that the new one
    may precede.  Rows that compare equal keep their input order, as they do
    under pandas' stable kinds and under the [lexsort] it uses for several
    keys; the default quicksort promises no order among equal keys, and no
    statement about a one-key sort below depends on one. *)
Fixpoint insert_by {A} (before : A -> A -> bool) (x : A) (l : list A)
  : list A :=
  match l with
  | [] => [x]
  | y :: l' => if before x y then x :: l else y :: insert_by before x l'
  end.

Definition sort_by {A} (before : A -> A -> bool) (l : list A) : list A :=
  fold_right (insert_by before) [] l.

(** [df.sort_values(col, ascending=False)] on a numeric column. *)
Definition sort_values_desc {A T} `{Number T} (col : A -> T) : list A -> list A :=
  sort_by (fun a b => negb (num_ltb (col a) (col b))).

(** [df.sort_values(col)] on a numeric column. *)
Definition sort_values_asc {A T} `{Number T} (col : A -> T) : list A -> list A :=
  sort_by (fun a b => negb (num_ltb (col b) (col a))).

Definition count_if {A} (p : A -> bool) (l : list A) : nat :=
  length (filter p l).

(** [s.rank(ascending=False)] with the default [method='average']: a value
    with [g] larger values and [e] equal ones (itself included) would occupy
    the positions [g+1 .. g+e] of the descending order and receives their
    mean. *)
Definition rank_desc {T} `{Number T} (s : list T) : list Q :=
  map (fun x =>
         let g := count_if (fun y => num_ltb x y) s in
         let e := count_if (fun y => num_eqb x y) s in
         inject_Z (Z.of_nat g) + (inject_Z (Z.of_nat e) + 1) / 2) s.

(** [.astype(int)] on a float: truncation towards zero. *)
Definition astype_int (q : Q) : Z := Z.quot (Qnum q) (Zpos (Qden q)).

(** [df.head(n)]: the first [n] rows, or all but the last [-n] when [n < 0]. *)
Definition head {A} (n : Z) (df : list A) : list A :=
  if (0 <=? n)%Z then firstn (Z.to_nat n) df
  else firstn (length df - Z.to_nat (- n)) df.

(** ** Weighted utility *)

Section Scorer.

Context {T : Type} `{Number T}.

(** The module-level constants imported from [data.py]. *)
Variable FACTOR_NAMES : list string.
Variable DEFAULT_WEIGHTS : dict T.

(** [{k: v / total for k, v in weights.items()}] *)
Definition normalize (weights : dict T) : result (dict T) :=
  let total := py_sum (values weights) in
  mapM (fun kv => let* q := truediv (snd kv) total in ret (fst kv, q)) weights.

(** [sum(df[f] * w[f] for f in FACTOR_NAMES)]: the accumulator starts as the
    integer 0, broadcast over the rows, and takes one column product per
    factor. *)
Definition weighted_column (df : list (Row T)) (w : dict T) : result (list T) :=
  foldM (fun acc f =>
           let* wf := getitem w f in
           ret (map (fun ar => num_add (fst ar) (num_mul (value (snd ar) f) wf))
                    (combine acc df)))
        FACTOR_NAMES
        (map (fun _ => num_of_Z 0) df).

Definition compute_weighted_utility
  (factor_df : list (Row T)) (weights : option (dict T))
  : result (list (ScoredRow T)) :=
  let weights := match weights with
                 | None => DEFAULT_WEIGHTS
                 | Some ws => ws
                 end in
  let* w := normalize weights in
  let* column := weighted_column factor_df w in
  let score := map (num_round 2) column in
  let rank := map astype_int (rank_desc score) in
  let df := map (fun rsk => mkScored (fst (fst rsk)) (snd (fst rsk)) (snd rsk))
                (combine (combine factor_df score) rank) in
  ret (sort_values_desc Weighted_Score df).

End Scorer.

(** [factor_df[FACTOR_NAMES].values]: one list of scores per row. *)
Definition factor_values {T} (FACTOR_NAMES : list string) (r : Row T) : list T :=
  map (value r) FACTOR_NAMES.

(** ** Analyses that only compare scores *)

Section Analysis.

Variable FACTOR_NAMES : list string.

(** *** Pareto-optimal set *)

(** [np.all(sj >= si)] and [np.any(sj > si)], element by element. *)
Definition np_all_ge (sj si : list Q) : bool :=
  forallb (fun ji => Qle_bool (snd ji) (fst ji)) (combine sj si).

Definition np_any_gt (sj si : list Q) : bool :=
  existsb (fun ji => Qlt_bool (snd ji) (fst ji)) (combine sj si).

(** The inner loop over [j]: some [j <> i] has [scores[j]] at least
    [scores[i]] everywhere and above it somewhere. *)
Definition dominated_row (scores : list (list Q)) (n i : nat) : bool :=
  existsb (fun j =>
             negb (Nat.eqb i j)
             && np_all_ge (nth j scores []) (nth i scores [])
             && np_any_gt (nth j scores []) (nth i scores []))
          (seq 0 n).

Definition find_pareto_optimal (factor_df : list (Row Q)) : list string :=
  let countries := map Country factor_df in
  let scores := map (factor_values FACTOR_NAMES) factor_df in
  let n := length countries in
  let dominated : gset nat :=
    fold_left (fun d i => if dominated_row scores n i then {[ i ]} ∪ d else d)
              (seq 0 n) ∅ in
  map (fun i => nth i countries "")
      (filter (fun i => bool_decide (i ∉ dominated)) (seq 0 n)).

(** *** Two-dimensional frontier *)

(** A row of [factor_df[["Country", x_col, y_col]]]. *)
Record Point : Type := mkPoint {
  pt_Country : string;
  pt_x : Q;
  pt_y : Q
}.

(** [row[y_col] >= max_y], where [None] stands for the initial [-inf]. *)
Definition at_least (y : Q) (max_y : option Q) : bool :=
  match max_y with
  | None => true
  | Some m => Qle_bool m y
  end.

Definition sweep_step (st : list Point * option Q) (p : Point)
  : list Point * option Q :=
  if at_least (pt_y p) (snd st) then (fst st ++ [p], Some (pt_y p)) else st.

(** Both labels are taken to be columns of [factor_df]; the selection
    raises [KeyError] on any other label before a row is read, which is left
    out here.  [factor_df[["Country", x_col, y_col]]] with a label listed
    twice makes a frame with a repeated column.  When [x_col] is the
    repeated label, [sort_values(x_col)] raises [ValueError].  When only
    [y_col] repeats ["Country"], the sort passes and [row[y_col]] is a pair
    of names, whose comparison with [max_y] raises [TypeError] at the first
    row.  An empty [frontier] list makes a frame without columns, on which
    the final [sort_values] raises [KeyError]. *)
Definition pareto_frontier_2d (factor_df : list (Row Q)) (x_col y_col : string)
  : result (list Point) :=
  if String.eqb x_col y_col || String.eqb "Country" x_col
  then raise ValueError else
  if String.eqb "Country" y_col
  then match factor_df with
       | [] => raise KeyError
       | _ :: _ => raise TypeError
       end
  else
  let df := map (fun r => mkPoint (Country r) (value r x_col) (value r y_col))
                factor_df in
  let df := sort_values_asc pt_x df in
  let frontier := fst (fold_left sweep_step (sort_values_desc pt_x df)
                                 ([], None)) in
  match frontier with
  | [] => raise KeyError
  | _ => ret (sort_values_asc pt_x frontier)
  end.

(** *** Dominant strategy *)

(** [s.idxmax()]: the position of the first largest value; an empty column
    raises [ValueError]. *)
Fixpoint argmax_from (best_i : nat) (best : Q) (i : nat) (s : list Q) : nat :=
  match s with
  | [] => best_i
  | x :: s' => if Qlt_bool best x then argmax_from i x (S i) s'
               else argmax_from best_i best (S i) s'
  end.

Definition idxmax (s : list Q) : result nat :=
  match s with
  | [] => raise ValueError
  | x :: s' => ret (argmax_from 0 x 1 s')
  end.

Definition find_dominant_strategy (factor_df : list (Row Q))
  : result (option string) :=
  let* best_per_factor :=
    mapM (fun f =>
            let* i := idxmax (map (fun r => value r f) factor_df) in
            ret (f, nth i (map Country factor_df) ""))
         FACTOR_NAMES in
  let countries : gset string := list_to_set (map snd best_per_factor) in
  if Nat.eqb (size countries) 1
  then ret (hd_error (elements countries))
  else ret None.

End Analysis.

Definition Qsum (l : list Q) : Q := fold_left Qplus l 0.

(** [df.iloc[0]]: an empty frame raises [IndexError]. *)
Definition iloc0 {A} (df : list A) : result A :=
  match df with
  | [] => raise IndexError
  | r :: _ => ret r
  end.

(** ** Analyses that compute with the scores *)

Section Measures.

Context {T : Type} `{Measure T}.

Variable FACTOR_NAMES : list string.

(** *** Most balanced row *)

(** [values.sum(axis=1)] over the factors of one row: numpy adds fewer than
    eight values from left to right. *)
Definition np_sum (xs : list T) : T := fold_left num_add xs (num_of_Z 0).

(** [df[FACTOR_NAMES].mean(axis=1)] *)
Definition Factor_Mean (r : Row T) : T :=
  num_quot (np_sum (factor_values FACTOR_NAMES r))
           (num_of_Z (Z.of_nat (length FACTOR_NAMES))).

(** [df[FACTOR_NAMES].std(axis=1)], with pandas' default [ddof=1]: the mean,
    the sum of the squared deviations from it, the quotient by [count - 1]
    and the square root. *)
Definition Factor_Std (r : Row T) : Root :=
  let m := Factor_Mean r in
  num_sqrt
    (num_quot
       (np_sum (map (fun v => num_mul (num_sub v m) (num_sub v m))
                    (factor_values FACTOR_NAMES r)))
       (num_of_Z (Z.of_nat (length FACTOR_NAMES) - 1))).

(** In a descending sort [a] comes after [b] when it is the smaller, or when
    it is a [NaN], the only number that does not equal itself, and [b] is
    none. *)
Definition sorts_after (a b : T) : bool :=
  num_ltb a b || (negb (num_eqb a a) && num_eqb b b).

(** The order of [sort_values(["Factor Std", "Factor Mean"],
    ascending=[True, False])]: smaller deviation first, then larger mean. *)
Definition balance_before (a b : Row T) : bool :=
  root_ltb (Factor_Std a) (Factor_Std b)
  || (root_eqb (Factor_Std a) (Factor_Std b)
      && negb (sorts_after (Factor_Mean a) (Factor_Mean b))).

Definition find_nash_equilibrium (factor_df : list (Row T)) : result string :=
  let df := sort_by balance_before factor_df in
  let* r := iloc0 df in
  ret (Country r).

(** *** Trade-off matrix *)

(** A record of the trade-off table; [deltas] holds the columns [f + " Δ"]. *)
Record TradeoffRow : Type := mkTradeoff {
  tr_Country : string;
  tr_Weighted_Score : T;
  deltas : dict T
}.

(** One step of [max()], which skips missing values: the larger of the two,
    and the second when the first is a [NaN], the only number that does not
    equal itself. *)
Definition num_max (a b : T) : T :=
  if num_ltb a b then b else if num_eqb a a then a else b.

(** [df[f].max()] over a frame with first row [r0] and further rows [rest]. *)
Definition column_max (f : string) (r0 : ScoredRow T) (rest : list (ScoredRow T))
  : T :=
  fold_left num_max (map (fun s => value (row s) f) rest) (value (row r0) f).

(** With no row left by [head] the loop body never runs and the table is
    empty; otherwise every column has a largest value [best[f]].  Callers
    that omit [top_n] pass 10. *)
Definition build_tradeoff_matrix (scored_df : list (ScoredRow T)) (top_n : Z)
  : list TradeoffRow :=
  match head top_n scored_df with
  | [] => []
  | r0 :: rest =>
      let best := fun f => column_max f r0 rest in
      map (fun s =>
             mkTradeoff (Country (row s)) (Weighted_Score s)
               (map (fun f =>
                       (String.append f " Δ",
                        num_round 1 (num_sub (value (row s) f) (best f))))
                    FACTOR_NAMES))
          (r0 :: rest)
  end.

End Measures.

Arguments TradeoffRow T : clear implicits.
Arguments mkTradeoff {T} _ _ _.
Arguments tr_Country {T} _.
Arguments tr_Weighted_Score {T} _.
Arguments deltas {T} _.


(** ** Pairwise trade-offs and the full bundle *)

(** [itertools.combinations(xs, 2)]: the pairs in position order. *)
Fixpoint combinations2 {A} (xs : list A) : list (A * A) :=
  match xs with
  | [] => []
  | x :: xs' => map (pair x) xs' ++ combinations2 xs'
  end.

(** [df.loc[i, ...]] on a frame labelled 0, 1, ...: a label that is not in
    the index raises [KeyError]. *)
Definition loc {A} (df : list A) (i : nat) : result A :=
  match nth_error df i with
  | Some r => ret r
  | None => raise KeyError
  end.

(** A record of [pairwise_tradeoff_summary]. *)
Record PairwiseRow : Type := mkPairwise {
  Factor_A : string;
  Factor_B : string;
  Best_in_A : string;
  A_Score : Q;
  B_Score : Q;
  B_Best_in_class : Q;
  B_Gap : Q
}.

(** The bundle returned by [run_full_analysis]. *)
Record Bundle : Type := mkBundle {
  scored_df : list (ScoredRow Q);
  pareto_optimal : list string;
  dominant_strategy : option string;
  nash_equilibrium : string;
  tradeoff_matrix : list (TradeoffRow Q);
  pairwise_tradeoffs : list PairwiseRow
}.

Section Bundling.

Variable FACTOR_NAMES : list string.
Variable DEFAULT_WEIGHTS : dict Q.

(** On a frame without rows the first pair already fails in
    [df[fa].idxmax()]; without pairs the loop body never runs. *)
Definition pairwise_tradeoff_summary (scored_df : list (ScoredRow Q)) (top_n : Z)
  : result (list PairwiseRow) :=
  match head top_n scored_df with
  | [] =>
      match combinations2 FACTOR_NAMES with
      | [] => ret []
      | _ :: _ => raise ValueError
      end
  | r0 :: rest =>
      let df := r0 :: rest in
      mapM (fun ab =>
              let fa := fst ab in
              let fb := snd ab in
              let* best_a_idx := idxmax (map (fun s => value (row s) fa) df) in
              let* best := loc df best_a_idx in
              let trade_b_val := value (row best) fb in
              let best_b_val := column_max fb r0 rest in
              ret (mkPairwise fa fb (Country (row best)) (value (row best) fa)
                     trade_b_val best_b_val
                     (Qround_decimals 1 (trade_b_val - best_b_val))))
           (combinations2 FACTOR_NAMES)
  end.

(** [build_tradeoff_matrix] and [pairwise_tradeoff_summary] are called
    without [top_n], which then is 10. *)
Definition run_full_analysis
  (factor_df : list (Row Q)) (weights : option (dict Q)) : result Bundle :=
  let* scored := compute_weighted_utility FACTOR_NAMES DEFAULT_WEIGHTS
                   factor_df weights in
  let pareto := find_pareto_optimal FACTOR_NAMES factor_df in
  let* dominant := find_dominant_strategy FACTOR_NAMES factor_df in
  let* nash := find_nash_equilibrium FACTOR_NAMES factor_df in
  let tradeoff := build_tradeoff_matrix FACTOR_NAMES scored 10 in
  let* pairwise := pairwise_tradeoff_summary scored 10 in
  ret (mkBundle scored pareto dominant nash tradeoff pairwise).

End Bundling.

(** ** [data.py]: from sub-factors to factors *)

(** [df[group].mean(axis=1).round(1)] for one row. *)
Definition group_mean (r : Row Q) (group : list string) : Q :=
  Qround_decimals 1
    (Qsum (map (value r) group) / inject_Z (Z.of_nat (length group))).

Definition freedom_group : list string :=
  ["Human Freedom Index"; "Democracy Index"; "Press Freedom"].
Definition income_group : list string :=
  ["Household Income"; "GDP per Capita PPP"; "Gender Wage Equality";
   "Ease of Business"].
Definition education_group : list string :=
  ["PISA Scores"; "University Density"; "Education Spending";
   "Adult Education"].
Definition cost_group : list string :=
  ["Cost of Living (inv)"; "Housing Affordability"; "Purchasing Power"].

Section Loading.

(** The frame of the hard-coded tables, [build_subfactor_df()]. *)
Variable build_subfactor_df : list (Row Q).

(** The returned frame keeps [Country], [Region] and the four factors. *)
Definition build_factor_df (subfactor_df : option (list (Row Q)))
  : list (Row Q) :=
  let subfactor_df := match subfactor_df with
                      | None => build_subfactor_df
                      | Some df => df
                      end in
  map (fun r =>
         mkRow (Country r)
           (cells [ ("Freedom & Personal Choice", group_mean r freedom_group);
                    ("Income & Career Growth", group_mean r income_group);
                    ("Education Quality & Access",
                     group_mean r education_group);
                    ("Cost of Living & Affordability",
                     group_mean r cost_group) ]))
      subfactor_df.

Definition get_all_data : list (Row Q) * list (Row Q) :=
  let sf := build_subfactor_df in
  let ff := build_factor_df (Some sf) in
  (sf, ff).

End Loading.

(** ** [app.py]: what the sidebar hands to the analysis *)

(** The four sliders range over the integers 0 to 100; a zero total is
    replaced by 1 before the division.  [w / raw_total] on two Python
    integers is the correctly rounded quotient, which for integers of this
    size is the quotient of the two floats. *)
Definition sidebar_weights {T} `{Number T} (w1 w2 w3 w4 : Z) : dict T :=
  let raw_total := (w1 + w2 + w3 + w4)%Z in
  let raw_total := if (raw_total =? 0)%Z then 1%Z else raw_total in
  [ ("Freedom & Personal Choice",
     num_quot (num_of_Z w1) (num_of_Z raw_total));
    ("Income & Career Growth",
     num_quot (num_of_Z w2) (num_of_Z raw_total));
    ("Education Quality & Access",
     num_quot (num_of_Z w3) (num_of_Z raw_total));
    ("Cost of Living & Affordability",
     num_quot (num_of_Z w4) (num_of_Z raw_total)) ].

(** [df.tail(n)]: the last [n] rows. *)
Definition tail {A} (n : nat) (df : list A) : list A :=
  skipn (length df - n) df.

(** [list(dict.fromkeys(xs))]: the first occurrence of every name, in
    order. *)
Definition dict_fromkeys (xs : list string) : list string :=
  fold_left (fun seen x => if existsb (String.eqb x) seen then seen
                           else seen ++ [x])
            xs [].

(** The countries of the radar chart: all of them up to 15 rows, otherwise
    the top 8, the highlighted one and the bottom 3. *)
Definition radar_countries (scored_df : list (ScoredRow Q)) (highlight : string)
  : list string :=
  if (15 <? length scored_df)%nat then
    let top_n := map (fun s => Country (row s)) (head 8 scored_df) in
    let bot_n := map (fun s => Country (row s)) (tail 3 scored_df) in
    dict_fromkeys (top_n ++ [highlight] ++ bot_n)
  else map (fun s => Country (row s)) scored_df.

(** The rows the radar loop draws: those whose country is selected. *)
Definition radar_rows (scored_df : list (ScoredRow Q)) (highlight : string)
  : list (ScoredRow Q) :=
  filter (fun s => existsb (String.eqb (Country (row s)))
                     (radar_countries scored_df highlight))
         scored_df.

(** ** [static_dashboard.py]: the series of the radar panel *)

(** [factor_df[factor_df["Country"] == country].iloc[0]] *)
Definition first_row_of (factor_df : list (Row Q)) (country : string)
  : result (Row Q) :=
  iloc0 (filter (fun r => String.eqb (Country r) country) factor_df).

(** The data [_draw_radar] hands to [ax.plot]: for each of the top five,
    ["Israel"] and the bottom two, once each, the values of the country's row
    at the factors, closed by the first factor again.  [FACTOR_NAMES[0]]
    raises [IndexError] when there is no factor. *)
Definition _draw_radar (FACTOR_NAMES : list string)
  (factor_df : list (Row Q)) (scored_df : list (ScoredRow Q))
  : result (list (string * list Q)) :=
  let top5 := map (fun s => Country (row s)) (head 5 scored_df) in
  let bottom2 := map (fun s => Country (row s)) (tail 2 scored_df) in
  let show := dict_fromkeys (top5 ++ ["Israel"] ++ bottom2) in
  mapM (fun country =>
          let* r := first_row_of factor_df country in
          let* closing := match FACTOR_NAMES with
                          | [] => raise IndexError
                          | f0 :: _ => ret (value r f0)
                          end in
          ret (country, map (value r) FACTOR_NAMES ++ [closing]))
       show.

(** ** The configuration of [data.py] and the tables used below *)

Module data.

Definition FACTOR_NAMES : list string :=
  [ "Freedom & Personal Choice"; "Income & Career Growth";
    "Education Quality & Access"; "Cost of Living & Affordability" ].

Definition DEFAULT_WEIGHTS : dict Q :=
  [ ("Freedom & Personal Choice", 35 # 100);
    ("Income & Career Growth", 30 # 100);
    ("Education Quality & Access", 20 # 100);
    ("Cost of Living & Affordability", 15 # 100) ].

End data.

(** A row over the four factors of [data.py]. *)
Definition factor_row {T} `{Number T}
  (country : string) (freedom income education cost : T) : Row T :=
  mkRow country
    (cells [ ("Freedom & Personal Choice", freedom);
             ("Income & Career Growth", income);
             ("Education Quality & Access", education);
             ("Cost of Living & Affordability", cost) ]).

(** A weight dictionary over the four factors. *)
Definition factor_weights {T} (freedom income education cost : T) : dict T :=
  [ ("Freedom & Personal Choice", freedom);
    ("Income & Career Growth", income);
    ("Education Quality & Access", education);
    ("Cost of Living & Affordability", cost) ].

(** The three-entity table of the design document, over two factors. *)
Definition two_factors : list string := ["F1"; "F2"].

Definition triple_of {T} `{Number T} : list (Row T) :=
  [ mkRow "A" (cells [("F1", num_of_Z 100); ("F2", num_of_Z 0)]);
    mkRow "B" (cells [("F1", num_of_Z 0); ("F2", num_of_Z 100)]);
    mkRow "C" (cells [("F1", num_of_Z 50); ("F2", num_of_Z 50)]) ].

Definition equal_weights_of {T} `{Number T} : dict T :=
  [("F1", num_of_Z 1); ("F2", num_of_Z 1)].

Definition triple : list (Row Q) := triple_of.
Definition equal_weights : dict Q := equal_weights_of.

Definition triple_binary64 : list (Row PrimFloat.float) := triple_of.
Definition equal_weights_binary64 : dict PrimFloat.float := equal_weights_of.

(** What a caller reads off a scored table. *)
Definition scored_view {T} (s : ScoredRow T) : string * T * Z :=
  (Country (row s), Weighted_Score s, Rank s).

(** [{k: c * v for k, v in weights.items()}] *)
Definition scale_weights {T} `{Number T} (c : T) (weights : dict T) : dict T :=
  map (fun kv => (fst kv, num_mul c (snd kv))) weights.

(** Weight dictionaries over the two factors. *)
Definition zero_weights : dict Q := [("F1", 0); ("F2", 0)].
Definition missing_name_weights : dict Q := [("F1", 1)].
Definition skewed_weights : dict Q := [("F1", 3); ("F2", 1)].
Definition negative_weights : dict Q := [("F1", - (1)); ("F2", 3)].

(** A table whose second row leads in both factors. *)
Definition with_leader : list (Row Q) :=
  [ mkRow "A" (cells [("F1", 60); ("F2", 40)]);
    mkRow "B" (cells [("F1", 90); ("F2", 80)]) ].

(** Tables and weights over the four factors of [data.py]. *)
Definition sample : list (Row Q) :=
  [ factor_row "A" 70 60 80 40;
    factor_row "B" 90 80 70 30;
    factor_row "C" 60 70 90 50 ].

Definition level_three : list (Row Q) :=
  [ factor_row "A" 50 50 50 50;
    factor_row "B" 50 50 50 50;
    factor_row "C" 50 50 50 50 ].

(** Two rows with the same scores and a third row above both. *)
Definition tied_pair_below : list (Row Q) :=
  [ factor_row "A" 1 1 1 1;
    factor_row "B" 1 1 1 1;
    factor_row "C" 2 2 2 2 ].

Definition one_negative_weight : dict Q := factor_weights (- (1)) 3 1 1.
Definition all_zero_weights : dict Q := factor_weights 0 0 0 0.
Definition unknown_name_weights : dict Q :=
  factor_weights 1 1 1 1 ++ [("Safety", 2)].

(** binary64 inputs.  [b64 n d] is the float nearest to [n / d], the value
    of the decimal literal it spells. *)
Definition b64 (num den : Z) : PrimFloat.float :=
  PrimFloat.div (Binary64.of_Z num) (Binary64.of_Z den).

Definition DEFAULT_WEIGHTS_binary64 : dict PrimFloat.float :=
  factor_weights (b64 35 100) (b64 30 100) (b64 20 100) (b64 15 100).

(** One row scoring 0.375 in the first factor, under weights 10^16, 1, 0, 0. *)
Definition three_eighths : list (Row PrimFloat.float) :=
  [ factor_row "A" (b64 3 8) (b64 0 1) (b64 0 1) (b64 0 1) ].

Definition wide_weights : dict PrimFloat.float :=
  factor_weights (Binary64.of_Z (10 ^ 16)) (Binary64.of_Z 1)
                 (Binary64.of_Z 0) (Binary64.of_Z 0).

(** One row scoring 4.3, 38.2, 47.1, 61.8, under weights 35, 30, 20, 15. *)
Definition one_decimal : list (Row PrimFloat.float) :=
  [ factor_row "A" (b64 43 10) (b64 382 10) (b64 471 10) (b64 618 10) ].

Definition percent_weights : dict PrimFloat.float :=
  factor_weights (Binary64.of_Z 35) (Binary64.of_Z 30)
                 (Binary64.of_Z 20) (Binary64.of_Z 15).

(** ** Vocabulary of the statements *)

(** A column does not decrease down the rows of a frame. *)
Definition nondecreasing_by {A} (col : A -> Q) (l : list A) : Prop :=
  forall i j a b, (i < j)%nat ->
    nth_error l i = Some a -> nth_error l j = Some b -> col a <= col b.

(** Row [rj] dominates row [ri]: at least as large in every factor and
    strictly larger in at least one. *)
Definition dominates (FACTOR_NAMES : list string) (rj ri : Row Q) : Prop :=
  (forall f, In f FACTOR_NAMES -> value ri f <= value rj f) /\
  (exists f, In f FACTOR_NAMES /\ value ri f < value rj f).

(** Two rows with the same score in every factor. *)
Definition same_scores (FACTOR_NAMES : list string) (r1 r2 : Row Q) : Prop :=
  forall f, In f FACTOR_NAMES -> value r1 f == value r2 f.

(** Row [r] is the pick of [idxmax] in column [f]: it holds the largest
    score and every row above it holds a smaller one. *)
Definition first_maximizer (f : string) (df : list (Row Q)) (r : Row Q) : Prop :=
  exists i,
    nth_error df i = Some r /\
    (forall r', In r' df -> value r' f <= value r f) /\
    (forall j r', (j < i)%nat -> nth_error df j = Some r' ->
                  value r' f < value r f).

(** The number of rows of a scored table with a larger score than [s], and
    the number with the same score ([s] included). *)
Definition larger_scores (scored : list (ScoredRow Q)) (s : ScoredRow Q) : nat :=
  count_if (fun s' => Qlt_bool (Weighted_Score s) (Weighted_Score s')) scored.

Definition equal_scores (scored : list (ScoredRow Q)) (s : ScoredRow Q) : nat :=
  count_if (fun s' => Qeq_bool (Weighted_Score s) (Weighted_Score s')) scored.

(** The weight a dictionary gives to a factor it lists. *)
Definition weight_of (w : dict Q) (f : string) : Q :=
  match getitem w f with
  | inr v => v
  | inl _ => 0
  end.

(** The score of one row under normalized weights [w], before rounding. *)
Definition row_score (FACTOR_NAMES : list string) (w : dict Q) (r : Row Q) : Q :=
  fold_left (fun acc f => acc + value r f * weight_of w f) FACTOR_NAMES 0.

(** The scored table of a weight dictionary with a non-zero total that
    lists every factor. *)
Definition scored_of (FACTOR_NAMES : list string) (df : list (Row Q)) (w : dict Q)
  : list (ScoredRow Q) :=
  let wn := map (fun kv => (fst kv, snd kv / py_sum (values w))) w in
  let score := map (fun r => Qround_decimals 2 (row_score FACTOR_NAMES wn r))
                   df in
  let rank := map astype_int (rank_desc score) in
  sort_values_desc Weighted_Score
    (map (fun rsk => mkScored (fst (fst rsk)) (snd (fst rsk)) (snd rsk))
         (combine (combine df score) rank)).

(** Along the sweep, from the largest [x] down, the kept points have [x]
    going down and [y] going up. *)
Definition staircase (p q : Point) : Prop :=
  pt_x q <= pt_x p /\ pt_y p <= pt_y q.

(** ** Vocabulary of the further statements *)

(** The weighted mean of a row under the weights [w], before rounding:
    the sum over the factors of score times weight, over the total weight. *)
Definition weighted_mean (FACTOR_NAMES : list string) (w : dict Q) (r : Row Q)
  : Q :=
  Qsum (map (fun f => value r f * weight_of w f) FACTOR_NAMES)
  / py_sum (values w).

(** The scored table of [sample] under the default weights, and its
    pairwise summary. *)
Definition sample_scored : list (ScoredRow Q) :=
  scored_of data.FACTOR_NAMES sample data.DEFAULT_WEIGHTS.

Definition sample_pairwise : list PairwiseRow :=
  match pairwise_tradeoff_summary data.FACTOR_NAMES sample_scored 10 with
  | inr rows => rows
  | inl _ => []
  end.

(** The bundle of [sample] under the default weights. *)
Definition sample_bundle : Bundle :=
  match run_full_analysis data.FACTOR_NAMES data.DEFAULT_WEIGHTS sample None with
  | inr b => b
  | inl _ => mkBundle [] [] None "" [] []
  end.

(** What the sweep has done after the points [pre]: [max_y] is the largest
    [y] among them, a kept point has no larger [y] before it, and a dropped
    point has one. *)
Definition sweep_invariant (pre kept : list Point) (max_y : option Q) : Prop :=
  (forall q, In q pre -> exists m, max_y = Some m /\ pt_y q <= m) /\
  (forall m, max_y = Some m -> exists q, In q pre /\ pt_y q = m) /\
  (forall p, In p kept ->
     exists l1 l2, pre = l1 ++ p :: l2 /\
                   forall q, In q l1 -> pt_y q <= pt_y p) /\
  (forall p, In p pre -> ~ In p kept ->
     exists l1 l2, pre = l1 ++ p :: l2 /\
                   exists q, In q l1 /\ pt_y p < pt_y q).

(** The docstring of [find_pareto_optimal], as a test on rows: row [rj] is at
    least as large as [ri] in every factor and larger in one. *)
Definition dominatesb (FACTOR_NAMES : list string) (rj ri : Row Q) : bool :=
  forallb (fun f => Qle_bool (value ri f) (value rj f)) FACTOR_NAMES
  && existsb (fun f => Qlt_bool (value ri f) (value rj f)) FACTOR_NAMES.

(** The rows of a table that no row of the table dominates, in table
    order. *)
Definition pareto_rows (FACTOR_NAMES : list string) (df : list (Row Q))
  : list (Row Q) :=
  filter (fun r => negb (existsb (fun r' => dominatesb FACTOR_NAMES r' r) df))
         df.

(** The sidebar weights in exact arithmetic and in binary64, and the slider
    values themselves as a weight dictionary. *)
Definition sidebar_weights_Q (w1 w2 w3 w4 : Z) : dict Q :=
  sidebar_weights w1 w2 w3 w4.

Definition sidebar_weights_binary64 (w1 w2 w3 w4 : Z) : dict PrimFloat.float :=
  sidebar_weights w1 w2 w3 w4.

Definition slider_values (w1 w2 w3 w4 : Z) : dict Q :=
  factor_weights (inject_Z w1) (inject_Z w2) (inject_Z w3) (inject_Z w4).

(** The names of the sub-factor columns read by [build_factor_df]. *)
Definition subfactor_names : list string :=
  freedom_group ++ income_group ++ education_group ++ cost_group.

(** A sub-factor table with two rows. *)
Definition subfactor_sample : list (Row Q) :=
  [ mkRow "A" (cells [ ("Human Freedom Index", 80); ("Democracy Index", 70);
                       ("Press Freedom", 65); ("Household Income", 50);
                       ("GDP per Capita PPP", 55); ("Gender Wage Equality", 60);
                       ("Ease of Business", 75); ("PISA Scores", 90);
                       ("University Density", 40); ("Education Spending", 45);
                       ("Adult Education", 35); ("Cost of Living (inv)", 20);
                       ("Housing Affordability", 25);
                       ("Purchasing Power", 100) ]);
    mkRow "B" (cells [ ("Human Freedom Index", 10); ("Democracy Index", 0);
                       ("Press Freedom", 5); ("Household Income", 95);
                       ("GDP per Capita PPP", 85); ("Gender Wage Equality", 30);
                       ("Ease of Business", 15); ("PISA Scores", 62);
                       ("University Density", 48); ("Education Spending", 77);
                       ("Adult Education", 51); ("Cost of Living (inv)", 33);
                       ("Housing Affordability", 66);
                       ("Purchasing Power", 99) ]) ].

(** A scored table with the sixteen countries A to P, best first. *)
Definition sixteen : list (ScoredRow Q) :=
  map (fun n =>
         mkScored
           (mkRow (String (Ascii.ascii_of_nat (65 + n)) EmptyString)
                  (fun _ => inject_Z (100 - Z.of_nat n)))
           (inject_Z (100 - Z.of_nat n)) (Z.of_nat (S n)))
      (seq 0 16).

(** A factor table with Israel, and its scored table under the default
    weights. *)
Definition with_Israel : list (Row Q) :=
  [ factor_row "Israel" 60 70 80 40;
    factor_row "Norway" 90 80 70 30 ].

Definition with_Israel_scored : list (ScoredRow Q) :=
  scored_of data.FACTOR_NAMES with_Israel data.DEFAULT_WEIGHTS.

(** Two rows whose factors differ by 3.8 throughout, as decimals and as the
    binary64 values of the same literals; and the second table again with
    every float replaced by the rational it stands for. *)
Definition shifted_pair : list (Row Q) :=
  [ factor_row "A" (293 # 10) (957 # 10) (646 # 10) (467 # 10);
    factor_row "B" (331 # 10) (995 # 10) (684 # 10) (505 # 10) ].

Definition shifted_pair_binary64 : list (Row PrimFloat.float) :=
  [ factor_row "A" (b64 293 10) (b64 957 10) (b64 646 10) (b64 467 10);
    factor_row "B" (b64 331 10) (b64 995 10) (b64 684 10) (b64 505 10) ].

(** The rational a finite float stands for. *)
Definition exact_value (x : PrimFloat.float) : Q :=
  match FloatOps.Prim2SF x with
  | SpecFloat.S754_finite s m e =>
      (if s then - inject_Z (Zpos m) else inject_Z (Zpos m)) * Qpower 2 e
  | _ => 0
  end.

Definition exact_row (r : Row PrimFloat.float) : Row Q :=
  mkRow (Country r) (fun f => exact_value (value r f)).

(** ** Signs and order of binary64 values *)

(** The values of sign [s]: the zeros, and the infinity and the finite
    numbers with sign bit [s] ([true] is negative).  A [NaN] has no sign. *)
Definition has_sign (s : bool) (x : SpecFloat.spec_float) : bool :=
  match x with
  | SpecFloat.S754_zero _ => true
  | SpecFloat.S754_infinity s' | SpecFloat.S754_finite s' _ _ => Bool.eqb s s'
  | SpecFloat.S754_nan => false
  end.

Definition SF_finite (x : SpecFloat.spec_float) : bool :=
  match x with
  | SpecFloat.S754_zero _ | SpecFloat.S754_finite _ _ _ => true
  | _ => false
  end.

Definition SF_number (x : SpecFloat.spec_float) : bool :=
  match x with SpecFloat.S754_nan => false | _ => true end.

(** The comparison of two numbers is the lexicographic comparison of their
    keys: sign class, exponent, mantissa. *)
Definition SF_key (x : SpecFloat.spec_float) : Z * Z * Z :=
  match x with
  | SpecFloat.S754_zero _ | SpecFloat.S754_nan => (0, 0, 0)%Z
  | SpecFloat.S754_infinity false => (2, 0, 0)%Z
  | SpecFloat.S754_infinity true => (-2, 0, 0)%Z
  | SpecFloat.S754_finite false m e => (1, e, Zpos m)%Z
  | SpecFloat.S754_finite true m e => (-1, - e, Zneg m)%Z
  end.

Definition key_le (k1 k2 : Z * Z * Z) : Prop :=
  let '(a1, b1, c1) := k1 in
  let '(a2, b2, c2) := k2 in
  (a1 < a2 \/ (a1 = a2 /\ (b1 < b2 \/ (b1 = b2 /\ c1 <= c2))))%Z.

(** A table whose factor scores are all finite: no [NaN], no infinity. *)
Definition finite_scores (FACTOR_NAMES : list string)
    (scored_df : list (ScoredRow PrimFloat.float)) : Prop :=
  forall s f, In s scored_df -> In f FACTOR_NAMES ->
    PrimFloat.is_finite (value (row s) f) = true.

(** Two ranked rows whose first two scores lie 0.15 and 0.05 apart. *)
Definition near_ties : list (ScoredRow PrimFloat.float) :=
  [ mkScored (factor_row "A" (b64 15 100) (b64 105 100) (b64 50 1) (b64 50 1))
             (b64 1787 100) 1;
    mkScored (factor_row "B" (b64 0 1) (b64 1 1) (b64 40 1) (b64 50 1))
             (b64 158 10) 2 ].

(** * Properties *)

(** [FACTOR_NAMES = list(DEFAULT_WEIGHTS.keys())] *)
Lemma FACTOR_NAMES_keys : data.FACTOR_NAMES = keys data.DEFAULT_WEIGHTS.
Proof. reflexivity. Qed.

(** ** Comparisons on [Q] *)

Lemma Qlt_bool_iff (a b : Q) : Qlt_bool a b = true <-> a < b.
Proof.
  unfold Qlt_bool. rewrite negb_true_iff, <- not_true_iff_false, Qle_bool_iff.
  split; [apply Qnot_le_lt | apply Qlt_not_le].
Qed.

Lemma Qlt_bool_false (a b : Q) : Qlt_bool a b = false <-> b <= a.
Proof.
  unfold Qlt_bool. rewrite negb_false_iff. apply Qle_bool_iff.
Qed.

Lemma Qeq_bool_false (a b : Q) : Qeq_bool a b = false <-> ~ a == b.
Proof.
  rewrite <- not_true_iff_false, Qeq_bool_iff. tauto.
Qed.

(** ** Rounding *)

Lemma Qrint_comp (x y : Q) : x == y -> Qrint x = Qrint y.
Proof.
  intros E. unfold Qrint. rewrite (Qfloor_comp x y E).
  assert (E' : x - inject_Z (Qfloor y) == y - inject_Z (Qfloor y))
    by (rewrite E; reflexivity).
  now rewrite (Qcompare_comp _ _ E' (1 # 2) (1 # 2) (Qeq_refl _)).
Qed.

Lemma Qrint_nonpos (x : Q) : x <= 0 -> (Qrint x <= 0)%Z.
Proof.
  intros Hx. unfold Qrint.
  pose proof (Qfloor_le x) as Hfl.
  assert (Hn : (Qfloor x <= 0)%Z).
  { rewrite Zle_Qle. apply Qle_trans with x; assumption. }
  destruct (Z.eq_dec (Qfloor x) 0) as [E|E].
  - rewrite E. change (inject_Z 0) with 0.
    destruct (Qcompare_spec (x - 0) (1 # 2)) as [H|H|H]; simpl; lra || lia.
  - destruct (Qcompare _ _); [destruct (Z.even _)| |]; lia.
Qed.

Lemma pow10_pos (decimals : nat) : 0 < inject_Z (pow10 decimals).
Proof.
  change 0 with (inject_Z 0). rewrite <- Zlt_Qlt. unfold pow10.
  apply Z.pow_pos_nonneg; lia.
Qed.

Lemma Qround_decimals_comp (decimals : nat) (x y : Q) :
  x == y -> Qround_decimals decimals x = Qround_decimals decimals y.
Proof.
  intros E. unfold Qround_decimals. f_equal. f_equal. f_equal.
  apply Qrint_comp. now rewrite E.
Qed.

Lemma Qround_decimals_nonpos (decimals : nat) (x : Q) :
  x <= 0 -> Qround_decimals decimals x <= 0.
Proof.
  intros Hx. unfold Qround_decimals. rewrite Qred_correct.
  pose proof (pow10_pos decimals) as Hp.
  apply Qle_shift_div_r; [exact Hp|]. rewrite Qmult_0_l.
  change 0 with (inject_Z 0). rewrite <- Zle_Qle.
  apply Qrint_nonpos.
  rewrite <- (Qmult_0_l (inject_Z (pow10 decimals))).
  apply Qmult_le_compat_r; [exact Hx|now apply Qlt_le_weak].
Qed.

Lemma Qround_decimals_zero (decimals : nat) (x : Q) :
  x == 0 -> Qround_decimals decimals x = 0.
Proof.
  intros E. rewrite (Qround_decimals_comp decimals x 0 E).
  unfold Qround_decimals.
  replace (Qrint (0 * inject_Z (pow10 decimals))) with 0%Z.
  - apply (Qred_complete _ 0). unfold Qdiv. apply Qmult_0_l.
  - symmetry. apply (Qrint_comp _ 0). apply Qmult_0_l.
Qed.

(** ** The sort *)

Section Sorting.

Context {A : Type}.
Variable before : A -> A -> bool.

Lemma insert_by_Permutation (x : A) (l : list A) :
  Permutation (x :: l) (insert_by before x l).
Proof.
  induction l as [|y l IH]; simpl; [reflexivity|].
  destruct (before x y); [reflexivity|].
  rewrite perm_swap. now apply perm_skip.
Qed.

Lemma sort_by_Permutation (l : list A) : Permutation l (sort_by before l).
Proof.
  induction l as [|x l IH]; simpl; [constructor|].
  rewrite <- insert_by_Permutation. now apply perm_skip.
Qed.

Lemma sort_by_In (l : list A) (x : A) : In x (sort_by before l) <-> In x l.
Proof.
  split; apply Permutation_in;
    [symmetry|]; apply sort_by_Permutation.
Qed.

Lemma sort_by_length (l : list A) : length (sort_by before l) = length l.
Proof. symmetry. apply Permutation_length, sort_by_Permutation. Qed.

Lemma sort_by_nil (l : list A) : sort_by before l = [] -> l = [].
Proof.
  intros E. apply length_zero_iff_nil. rewrite <- sort_by_length, E. reflexivity.
Qed.

Hypothesis before_total : forall a b, before a b = false -> before b a = true.
Hypothesis before_trans :
  forall a b c, before a b = true -> before b c = true -> before a c = true.

Lemma insert_by_sorted (x : A) (l : list A) :
  StronglySorted (fun a b => before a b = true) l ->
  StronglySorted (fun a b => before a b = true) (insert_by before x l).
Proof using before_total before_trans.
  induction 1 as [|y l Hl IH Hy]; simpl.
  - repeat constructor.
  - destruct (before x y) eqn:E.
    + constructor; [now constructor|].
      constructor; [exact E|].
      rewrite Forall_forall in *. eauto.
    + constructor; [exact IH|].
      rewrite Forall_forall in *. intros z Hz.
      apply (Permutation_in _ (Permutation_sym (insert_by_Permutation x l))) in Hz.
      destruct Hz as [<-|Hz]; auto.
Qed.

Lemma sort_by_sorted (l : list A) :
  StronglySorted (fun a b => before a b = true) (sort_by before l).
Proof using before_total before_trans.
  induction l as [|x l IH]; simpl; [constructor|].
  now apply insert_by_sorted.
Qed.

Lemma before_refl (a : A) : before a a = true.
Proof using before_total.
  destruct (before a a) eqn:E; [reflexivity|].
  pose proof (before_total a a E). congruence.
Qed.

(** The first row of the sorted frame, read off the input: scanning from
    the last row backwards, a row takes the lead when it may precede the
    current leader. *)
Lemma sort_by_head (x : A) (l : list A) :
  hd_error (sort_by before (x :: l)) =
  match hd_error (sort_by before l) with
  | None => Some x
  | Some m => if before x m then Some x else Some m
  end.
Proof.
  simpl. destruct (sort_by before l) as [|m s]; simpl; [reflexivity|].
  now destruct (before x m).
Qed.

(** The leader of a non-empty frame sits at some position [i]; it may
    precede every row, and no row above position [i] may precede it. *)
Lemma sort_by_head_first (l : list A) :
  l <> [] ->
  exists i m,
    nth_error l i = Some m /\
    hd_error (sort_by before l) = Some m /\
    (forall y, In y l -> before m y = true) /\
    (forall j y, (j < i)%nat -> nth_error l j = Some y -> before y m = false).
Proof using before_total before_trans.
  induction l as [|x l IH]; [congruence|]. intros _.
  rewrite sort_by_head.
  destruct l as [|x' l'].
  - exists 0%nat, x. simpl. repeat split; auto.
    + intros y [<-|[]]. apply before_refl.
    + intros j y Hj. lia.
  - destruct IH as (i & m & Hi & Hhd & Hmin & Hfirst); [congruence|].
    rewrite Hhd. destruct (before x m) eqn:E.
    + exists 0%nat, x. repeat split; auto.
      * intros y [<-|Hy].
        -- apply before_refl.
        -- eauto.
      * intros j y Hj. lia.
    + exists (S i), m. repeat split; auto.
      * intros y [<-|Hy]; auto.
      * intros [|j] y Hj Hy; simpl in Hy.
        -- congruence.
        -- apply (Hfirst j); [lia|exact Hy].
Qed.

End Sorting.

(** Ascending and descending order on a rational column. *)
Lemma asc_total {A} (col : A -> Q) (a b : A) :
  negb (Qlt_bool (col b) (col a)) = false ->
  negb (Qlt_bool (col a) (col b)) = true.
Proof.
  rewrite negb_false_iff, negb_true_iff, Qlt_bool_iff, Qlt_bool_false.
  apply Qlt_le_weak.
Qed.

Lemma asc_trans {A} (col : A -> Q) (a b c : A) :
  negb (Qlt_bool (col b) (col a)) = true ->
  negb (Qlt_bool (col c) (col b)) = true ->
  negb (Qlt_bool (col c) (col a)) = true.
Proof.
  rewrite !negb_true_iff, !Qlt_bool_false. apply Qle_trans.
Qed.

Lemma StronglySorted_weaken {A} (R R' : A -> A -> Prop) (l : list A) :
  (forall a b, R a b -> R' a b) -> StronglySorted R l -> StronglySorted R' l.
Proof.
  intros HR. induction 1 as [|a l Hl IH Ha]; constructor; [exact IH|].
  eapply Forall_impl; [|exact Ha]. apply HR.
Qed.

Lemma sort_values_asc_sorted {A} (col : A -> Q) (l : list A) :
  StronglySorted (fun a b => col a <= col b) (sort_values_asc col l).
Proof.
  unfold sort_values_asc.
  eapply StronglySorted_weaken; [|apply sort_by_sorted].
  - intros a b. simpl. now rewrite negb_true_iff, Qlt_bool_false.
  - intros a b. apply asc_total.
  - intros a b c. apply asc_trans.
Qed.

Lemma sort_values_desc_sorted {A} (col : A -> Q) (l : list A) :
  StronglySorted (fun a b => col b <= col a) (sort_values_desc col l).
Proof.
  unfold sort_values_desc.
  eapply StronglySorted_weaken; [|apply sort_by_sorted].
  - intros a b. simpl. now rewrite negb_true_iff, Qlt_bool_false.
  - intros a b. apply (asc_total col b a).
  - intros a b c H1 H2. apply (asc_trans col c b a); assumption.
Qed.

(** ** The weighted utility, in exact arithmetic *)

Section ScorerQ.

Variable FACTOR_NAMES : list string.
Variable DEFAULT_WEIGHTS : dict Q.

Lemma getitem_In (w : dict Q) (f : string) :
  In f (keys w) -> getitem w f = inr (weight_of w f).
Proof.
  unfold weight_of. induction w as [|[k v] w IH]; simpl; [intros []|].
  destruct (String.eqb_spec k f) as [->|Hne]; [reflexivity|].
  intros [H|H]; [congruence|]. now apply IH.
Qed.

Lemma getitem_not_In (w : dict Q) (f : string) :
  ~ In f (keys w) -> getitem w f = inl KeyError.
Proof.
  induction w as [|[k v] w IH]; simpl; [reflexivity|].
  intros H. destruct (String.eqb_spec k f) as [->|Hne].
  - exfalso. apply H. now left.
  - apply IH. intros Hin. apply H. now right.
Qed.

Lemma truediv_Q (a b : Q) :
  truediv a b = if Qeq_bool b 0 then inl ZeroDivisionError else inr (a / b).
Proof. reflexivity. Qed.

(** [normalize] divides every weight by the total, or raises on the first
    weight when the total is zero. *)
Lemma normalize_ok (w : dict Q) :
  ~ py_sum (values w) == 0 ->
  normalize w
  = inr (map (fun kv => (fst kv, snd kv / py_sum (values w))) w).
Proof.
  intros Hz. unfold normalize.
  set (total := py_sum (values w)) in *. clearbody total.
  induction w as [|[k v] w IH]; simpl; [reflexivity|].
  rewrite truediv_Q.
  apply Qeq_bool_false in Hz as Hz'. rewrite Hz'. simpl.
  now rewrite IH.
Qed.

Lemma normalize_zero (w : dict Q) :
  w <> [] -> py_sum (values w) == 0 -> normalize w = inl ZeroDivisionError.
Proof.
  intros Hne Hz. unfold normalize.
  set (total := py_sum (values w)) in *. clearbody total.
  destruct w as [|[k v] w]; [congruence|]. simpl mapM.
  rewrite truediv_Q.
  apply Qeq_bool_iff in Hz. now rewrite Hz.
Qed.

Lemma combine_map_self {A B} (g : A -> B) (l : list A) :
  combine (map g l) l = map (fun a => (g a, a)) l.
Proof. induction l as [|a l IH]; simpl; [reflexivity|now rewrite IH]. Qed.

(** Column by column or row by row, the weighted sum is the same. *)
Lemma weighted_column_from (df : list (Row Q)) (w : dict Q) (fs : list string) :
  (forall f, In f fs -> In f (keys w)) ->
  forall g : Row Q -> Q,
    foldM (fun acc f =>
             let* wf := getitem w f in
             ret (map (fun ar => num_add (fst ar)
                                   (num_mul (value (snd ar) f) wf))
                      (combine acc df)))
          fs (map g df)
    = inr (map (fun r =>
                  fold_left (fun acc f => acc + value r f * weight_of w f)
                            fs (g r)) df).
Proof.
  induction fs as [|f fs IH]; intros Hin g; simpl; [reflexivity|].
  rewrite getitem_In by (apply Hin; now left). simpl.
  rewrite combine_map_self, map_map. simpl.
  apply (IH (fun f' H => Hin f' (or_intror H))
            (fun r => g r + value r f * weight_of w f)).
Qed.

Lemma weighted_column_rowwise (df : list (Row Q)) (w : dict Q) :
  (forall f, In f FACTOR_NAMES -> In f (keys w)) ->
  weighted_column FACTOR_NAMES df w = inr (map (row_score FACTOR_NAMES w) df).
Proof.
  intros Hin. unfold weighted_column.
  apply (weighted_column_from df w FACTOR_NAMES Hin (fun _ => 0)).
Qed.

Lemma weighted_column_KeyError_from
  (df : list (Row Q)) (w : dict Q) (fs : list string) (acc : list Q) :
  (exists f, In f fs /\ ~ In f (keys w)) ->
  foldM (fun acc f =>
           let* wf := getitem w f in
           ret (map (fun ar => num_add (fst ar)
                                 (num_mul (value (snd ar) f) wf))
                    (combine acc df)))
        fs acc
  = inl KeyError.
Proof.
  revert acc. induction fs as [|f fs IH]; intros acc (f0 & Hf0 & Hmiss);
    [destruct Hf0|]. simpl.
  destruct (in_dec String.string_dec f (keys w)) as [Hin|Hout].
  - rewrite getitem_In by exact Hin. simpl. apply IH.
    exists f0. split; [|exact Hmiss].
    destruct Hf0 as [<-|H]; [contradiction|exact H].
  - now rewrite getitem_not_In.
Qed.

Lemma weighted_column_KeyError (df : list (Row Q)) (w : dict Q) :
  (exists f, In f FACTOR_NAMES /\ ~ In f (keys w)) ->
  weighted_column FACTOR_NAMES df w = inl KeyError.
Proof. apply weighted_column_KeyError_from. Qed.

Lemma keys_normalized (w : dict Q) (t : Q) :
  keys (map (fun kv => (fst kv, snd kv / t)) w) = keys w.
Proof. unfold keys. rewrite map_map. reflexivity. Qed.

Lemma compute_weighted_utility_ok (df : list (Row Q)) (w : dict Q) :
  ~ py_sum (values w) == 0 ->
  (forall f, In f FACTOR_NAMES -> In f (keys w)) ->
  compute_weighted_utility FACTOR_NAMES DEFAULT_WEIGHTS df (Some w)
  = inr (scored_of FACTOR_NAMES df w).
Proof.
  intros Hz Hin. unfold compute_weighted_utility.
  rewrite (normalize_ok w Hz). simpl bind.
  rewrite weighted_column_rowwise by (now rewrite keys_normalized).
  simpl bind. unfold scored_of. now rewrite map_map.
Qed.

End ScorerQ.

(** C2, as written: under the configuration of [data.py], a negative
    weight and an unrecognized factor name are both accepted and a scored
    table is returned; weights that sum to zero raise [ZeroDivisionError],
    which is not a [ConfigurationError]. *)
Lemma compute_weighted_utility_accepts_invalid_weights :
  (In ("Freedom & Personal Choice", - (1)) one_negative_weight /\
   - (1) < 0 /\
   exists scored,
     compute_weighted_utility data.FACTOR_NAMES data.DEFAULT_WEIGHTS sample
       (Some one_negative_weight) = inr scored /\
     map scored_view scored
     = [("C", 145 # 2, 1%Z); ("B", 125 # 2, 2%Z); ("A", 115 # 2, 3%Z)]) /\
  (In "Safety" (keys unknown_name_weights) /\
   ~ In "Safety" data.FACTOR_NAMES /\
   exists scored,
     compute_weighted_utility data.FACTOR_NAMES data.DEFAULT_WEIGHTS sample
       (Some unknown_name_weights) = inr scored /\
     map scored_view scored
     = [("B", 45, 1%Z); ("C", 45, 1%Z); ("A", 4167 # 100, 3%Z)]) /\
  (py_sum (values all_zero_weights) == 0 /\
   compute_weighted_utility data.FACTOR_NAMES data.DEFAULT_WEIGHTS sample
     (Some all_zero_weights) = inl ZeroDivisionError /\
   compute_weighted_utility data.FACTOR_NAMES data.DEFAULT_WEIGHTS sample
     (Some all_zero_weights) <> inl ConfigurationError).
Proof.
  split; [|split].
  - split; [now left|]. split; [reflexivity|].
    eexists. split; vm_compute; reflexivity.
  - split; [do 4 right; now left|]. split.
    + intros [H|[H|[H|[H|[]]]]]; discriminate.
    + eexists. split; vm_compute; reflexivity.
  - split; [reflexivity|]. split; [reflexivity|discriminate].
Qed.

(** C2, amended: with a non-empty weight dictionary whose total is zero
    [compute_weighted_utility] fails with [ZeroDivisionError]; with a
    non-zero total and a factor missing from the dictionary it fails with
    [KeyError]; with a non-zero total and every factor listed it returns a
    scored table, whatever the signs of the weights and whatever other names
    the dictionary lists. *)
Theorem compute_weighted_utility_errors
  (FACTOR_NAMES : list string) (DEFAULT_WEIGHTS : dict Q)
  (factor_df : list (Row Q)) (weights : dict Q) :
  (weights <> [] -> py_sum (values weights) == 0 ->
   compute_weighted_utility FACTOR_NAMES DEFAULT_WEIGHTS factor_df
     (Some weights) = inl ZeroDivisionError) /\
  (~ py_sum (values weights) == 0 ->
   (exists f, In f FACTOR_NAMES /\ ~ In f (keys weights)) ->
   compute_weighted_utility FACTOR_NAMES DEFAULT_WEIGHTS factor_df
     (Some weights) = inl KeyError) /\
  (~ py_sum (values weights) == 0 ->
   (forall f, In f FACTOR_NAMES -> In f (keys weights)) ->
   exists scored,
     compute_weighted_utility FACTOR_NAMES DEFAULT_WEIGHTS factor_df
       (Some weights) = inr scored).
Proof.
  split; [|split].
  - intros Hne Hz. unfold compute_weighted_utility.
    now rewrite (normalize_zero weights Hne Hz).
  - intros Hz Hmiss. unfold compute_weighted_utility.
    rewrite (normalize_ok weights Hz). simpl bind.
    rewrite weighted_column_KeyError; [reflexivity|].
    now rewrite keys_normalized.
  - intros Hz Hin. eexists.
    now apply compute_weighted_utility_ok.
Qed.

Lemma compute_weighted_utility_errors_witness :
  compute_weighted_utility two_factors equal_weights triple
    (Some zero_weights) = inl ZeroDivisionError /\
  compute_weighted_utility two_factors equal_weights triple
    (Some missing_name_weights) = inl KeyError /\
  exists scored,
    compute_weighted_utility two_factors equal_weights triple
      (Some negative_weights) = inr scored.
Proof.
  split; [|split].
  - apply (proj1 (compute_weighted_utility_errors
                    two_factors equal_weights triple zero_weights)).
    + discriminate.
    + reflexivity.
  - apply (proj1 (proj2 (compute_weighted_utility_errors
                           two_factors equal_weights triple
                           missing_name_weights))).
    + vm_compute. discriminate.
    + exists "F2". split; [right; now left|].
      intros [H|[]]. discriminate.
  - apply (proj2 (proj2 (compute_weighted_utility_errors
                           two_factors equal_weights triple
                           negative_weights))).
    + vm_compute. discriminate.
    + intros f [<-|[<-|[]]]; [now left|right; now left].
Defined.

(** ** Ranks *)

Lemma count_if_Permutation {A} (p : A -> bool) (l l' : list A) :
  Permutation l l' -> count_if p l = count_if p l'.
Proof.
  unfold count_if. induction 1 as [|x l l' _ IH|x y l|l l' l'' _ IH1 _ IH2];
    simpl.
  - reflexivity.
  - destruct (p x); simpl; now rewrite IH.
  - destruct (p x), (p y); reflexivity.
  - now rewrite IH1.
Qed.

Lemma count_if_map {A B} (g : A -> B) (p : B -> bool) (l : list A) :
  count_if p (map g l) = count_if (fun a => p (g a)) l.
Proof.
  unfold count_if. induction l as [|a l IH]; simpl; [reflexivity|].
  destruct (p (g a)); simpl; now rewrite IH.
Qed.

Lemma count_if_ext {A} (p q : A -> bool) (l : list A) :
  (forall a, p a = q a) -> count_if p l = count_if q l.
Proof. intros E. unfold count_if. now rewrite (filter_ext p q E). Qed.

Lemma count_if_pos {A} (p : A -> bool) (l : list A) (a : A) :
  In a l -> p a = true -> (1 <= count_if p l)%nat.
Proof.
  intros Ha Hp. unfold count_if.
  assert (H : In a (filter p l)) by (apply filter_In; now split).
  destruct (filter p l); [destruct H|simpl; lia].
Qed.

Lemma combine_rank {A B C} (h : B -> C) (l1 : list A) (l2 : list B) :
  combine (combine l1 l2) (map h l2)
  = map (fun p => (p, h (snd p))) (combine l1 l2).
Proof.
  revert l2. induction l1 as [|a l1 IH]; intros [|b l2]; simpl;
    try reflexivity.
  now rewrite IH.
Qed.

Lemma map_snd_combine_map {A B} (g : A -> B) (l : list A) :
  map snd (combine l (map g l)) = map g l.
Proof. induction l as [|a l IH]; simpl; [reflexivity|now rewrite IH]. Qed.

(** Truncating the mean of the positions [g+1 .. g+e]. *)
Lemma astype_int_average (g e : nat) :
  astype_int (inject_Z (Z.of_nat g) + (inject_Z (Z.of_nat e) + 1) / 2)
  = (Z.of_nat g + (Z.of_nat e + 1) / 2)%Z.
Proof.
  unfold astype_int. simpl.
  change (Z.pos (1 * 1 * 2)) with 2%Z.
  change (Z.pos (1 * (1 * 1 * 2))) with 2%Z.
  rewrite Z.quot_div_nonneg by lia.
  replace (Z.of_nat g * 2 + (Z.of_nat e * 1 + 1 * 1) * 1 * 1)%Z
    with ((Z.of_nat e + 1) + Z.of_nat g * 2)%Z by lia.
  rewrite Z.div_add by lia. lia.
Qed.

Lemma Qlt_bool_comp (x y z : Q) : x == y -> Qlt_bool x z = Qlt_bool y z.
Proof.
  intros E. destruct (Qlt_bool y z) eqn:H.
  - apply Qlt_bool_iff. apply Qlt_bool_iff in H. now rewrite E.
  - apply Qlt_bool_false. apply Qlt_bool_false in H. now rewrite E.
Qed.

Lemma Qeq_bool_comp (x y z : Q) : x == y -> Qeq_bool x z = Qeq_bool y z.
Proof.
  intros E. destruct (Qeq_bool y z) eqn:H.
  - apply Qeq_bool_iff. apply Qeq_bool_iff in H. now rewrite E.
  - apply Qeq_bool_false. apply Qeq_bool_false in H. now rewrite E.
Qed.

Section RanksQ.

Variable FACTOR_NAMES : list string.

(** Every successful call returns the scored table of its dictionary. *)
Lemma compute_weighted_utility_inr
  (DEFAULT_WEIGHTS : dict Q) (df : list (Row Q)) (weights : option (dict Q))
  (scored : list (ScoredRow Q)) :
  compute_weighted_utility FACTOR_NAMES DEFAULT_WEIGHTS df weights = inr scored ->
  exists w, scored = scored_of FACTOR_NAMES df w.
Proof.
  unfold compute_weighted_utility.
  set (w := match weights with None => DEFAULT_WEIGHTS | Some ws => ws end).
  clearbody w. intros H. exists w.
  assert (Hn : normalize w
               = inr (map (fun kv => (fst kv, snd kv / py_sum (values w))) w)).
  { destruct w as [|kv w'] eqn:E; [reflexivity|]. rewrite <- E in *.
    destruct (Qeq_dec (py_sum (values w)) 0) as [Hz|Hz].
    - rewrite normalize_zero in H; [discriminate| |exact Hz].
      rewrite E. discriminate.
    - now apply normalize_ok. }
  rewrite Hn in H. simpl bind in H.
  set (wn := map _ w) in *.
  destruct (Forall_Exists_dec (fun f => In f (keys wn))
              (fun f => in_dec String.string_dec f (keys wn)) FACTOR_NAMES)
    as [Hall|Hex].
  - rewrite Forall_forall in Hall.
    rewrite (weighted_column_rowwise FACTOR_NAMES _ _ Hall) in H.
    simpl bind in H. injection H as <-.
    unfold scored_of. fold wn. now rewrite map_map.
  - apply Exists_exists in Hex.
    rewrite (weighted_column_KeyError FACTOR_NAMES _ _ Hex) in H.
    discriminate.
Qed.

(** The rank of a row of a scored table, from the scores of the table. *)
Lemma scored_of_rank (df : list (Row Q)) (w : dict Q) (s : ScoredRow Q) :
  let scored := scored_of FACTOR_NAMES df w in
  In s scored ->
  Rank s = (Z.of_nat (larger_scores scored s)
            + (Z.of_nat (equal_scores scored s) + 1) / 2)%Z.
Proof.
  intros scored Hs. subst scored. unfold scored_of in *.
  set (score := map _ df) in *.
  unfold rank_desc in *. rewrite map_map, combine_rank, map_map in *.
  set (dfz := map _ (combine df score)) in *.
  assert (Hcol : map Weighted_Score dfz = score).
  { subst dfz. rewrite map_map. simpl. apply map_snd_combine_map. }
  unfold sort_values_desc in *.
  set (before := fun a b : ScoredRow Q => _) in *.
  assert (Hcount : forall p : Q -> bool,
            count_if p score
            = count_if (fun s' => p (Weighted_Score s'))
                       (sort_by before dfz)).
  { intros p. rewrite <- Hcol, count_if_map.
    apply count_if_Permutation, sort_by_Permutation. }
  apply sort_by_In in Hs. subst dfz.
  apply in_map_iff in Hs as (p & <- & _). simpl.
  rewrite astype_int_average. unfold larger_scores, equal_scores. simpl.
  now rewrite !Hcount.
Qed.

End RanksQ.

(** C1, as written: on the three-entity table with equal weights all three
    scores are 50 and all three ranks are 2, in exact arithmetic and in
    binary64 alike; the ranks are not 1, 1, 1.  The same holds under the
    configuration of [data.py] for three rows scoring 50 in every factor,
    with the default weights. *)
Lemma compute_weighted_utility_full_tie_rank_2 :
  (exists scored,
     compute_weighted_utility two_factors equal_weights triple
       (Some equal_weights) = inr scored /\
     map scored_view scored = [("A", 50, 2%Z); ("B", 50, 2%Z); ("C", 50, 2%Z)] /\
     map Rank scored <> [1%Z; 1%Z; 1%Z]) /\
  (exists scored,
     compute_weighted_utility two_factors equal_weights_binary64
       triple_binary64 (Some equal_weights_binary64) = inr scored /\
     map scored_view scored
     = [("A", Binary64.of_Z 50, 2%Z); ("B", Binary64.of_Z 50, 2%Z);
        ("C", Binary64.of_Z 50, 2%Z)]) /\
  (exists scored,
     compute_weighted_utility data.FACTOR_NAMES data.DEFAULT_WEIGHTS
       level_three None = inr scored /\
     map scored_view scored = [("A", 50, 2%Z); ("B", 50, 2%Z); ("C", 50, 2%Z)]).
Proof.
  split; [|split].
  - eexists. split; [vm_compute; reflexivity|].
    split; [vm_compute; reflexivity|].
    vm_compute. discriminate.
  - eexists. split; [vm_compute; reflexivity|].
    vm_compute. reflexivity.
  - eexists. split; vm_compute; reflexivity.
Qed.

(** C1, amended: on the three-entity table with equal weights all three
    scores are 50 and all three ranks are 2.  In every scored table, rows
    with equal scores receive the same rank: with [g] rows scoring higher and
    [e] rows (the row included) scoring the same, the rank is the mean of the
    positions [g+1 .. g+e] truncated to an integer, [g + (e+1) div 2]; it is
    the lowest position [g+1] of the group exactly when [e <= 2]. *)
Theorem compute_weighted_utility_tie_rank
  (FACTOR_NAMES : list string) (DEFAULT_WEIGHTS : dict Q)
  (factor_df : list (Row Q)) (weights : option (dict Q))
  (scored : list (ScoredRow Q)) :
  compute_weighted_utility FACTOR_NAMES DEFAULT_WEIGHTS factor_df weights
    = inr scored ->
  (exists t,
     compute_weighted_utility two_factors equal_weights triple
       (Some equal_weights) = inr t /\
     map scored_view t = [("A", 50, 2%Z); ("B", 50, 2%Z); ("C", 50, 2%Z)]) /\
  forall s, In s scored ->
    Rank s = (Z.of_nat (larger_scores scored s)
              + (Z.of_nat (equal_scores scored s) + 1) / 2)%Z /\
    (Rank s = (Z.of_nat (larger_scores scored s) + 1)%Z
     <-> (equal_scores scored s <= 2)%nat) /\
    (forall s', In s' scored ->
       Weighted_Score s' == Weighted_Score s -> Rank s' = Rank s).
Proof.
  intros H. split.
  { eexists. split; vm_compute; reflexivity. }
  apply compute_weighted_utility_inr in H as [w ->].
  intros s Hs.
  pose proof (scored_of_rank FACTOR_NAMES factor_df w s Hs) as Hrank.
  simpl in Hrank. split; [exact Hrank|]. split.
  - assert (He : (1 <= equal_scores (scored_of FACTOR_NAMES factor_df w) s)%nat).
    { apply (count_if_pos _ _ s Hs). apply Qeq_bool_iff. reflexivity. }
    rewrite Hrank. split; intros E.
    + destruct (Nat.le_gt_cases
                  (equal_scores (scored_of FACTOR_NAMES factor_df w) s) 2)
        as [Hle|Hgt]; [exact Hle|exfalso].
      assert (2 <= (Z.of_nat (equal_scores
                               (scored_of FACTOR_NAMES factor_df w) s) + 1) / 2)%Z.
      { apply Z.div_le_lower_bound; lia. }
      lia.
    + assert (((Z.of_nat (equal_scores
                            (scored_of FACTOR_NAMES factor_df w) s) + 1) / 2
               = 1)%Z); [|lia].
      destruct (equal_scores (scored_of FACTOR_NAMES factor_df w) s)
        as [|[|[|n]]]; try lia; reflexivity.
  - intros s' Hs' Heq.
    rewrite Hrank, (scored_of_rank FACTOR_NAMES factor_df w s' Hs').
    unfold larger_scores, equal_scores.
    rewrite (count_if_ext _ _ _ (fun a => Qlt_bool_comp _ _ _ Heq)).
    now rewrite (count_if_ext _ _ _ (fun a => Qeq_bool_comp _ _ _ Heq)).
Qed.

Lemma compute_weighted_utility_tie_rank_witness :
  compute_weighted_utility two_factors equal_weights triple
    (Some equal_weights)
  = inr (scored_of two_factors triple equal_weights) /\
  forall s,
    In s (scored_of two_factors triple equal_weights) ->
    Rank s = (Z.of_nat (larger_scores
                          (scored_of two_factors triple equal_weights) s)
              + (Z.of_nat (equal_scores
                             (scored_of two_factors triple equal_weights) s)
                 + 1) / 2)%Z.
Proof.
  assert (H : compute_weighted_utility two_factors equal_weights triple
                (Some equal_weights)
              = inr (scored_of two_factors triple equal_weights))
    by (vm_compute; reflexivity).
  split; [exact H|]. intros s Hs.
  apply (compute_weighted_utility_tie_rank two_factors equal_weights triple
           (Some equal_weights) (scored_of two_factors triple equal_weights)
           H).
  exact Hs.
Defined.

(** ** Scaling the weights *)

Lemma py_sum_scaled (c : Q) (l : list Q) (a a' : Q) :
  a' == c * a ->
  fold_left Qplus (map (Qmult c) l) a' == c * fold_left Qplus l a.
Proof.
  revert a a'. induction l as [|x l IH]; intros a a' E; simpl; [exact E|].
  apply IH. rewrite E. ring.
Qed.

Lemma py_sum_scale_weights (c : Q) (w : dict Q) :
  py_sum (values (scale_weights c w)) == c * py_sum (values w).
Proof.
  unfold py_sum, values, scale_weights. rewrite map_map. simpl.
  rewrite <- (map_map snd (Qmult c)).
  apply py_sum_scaled. simpl. ring.
Qed.

Lemma weight_of_comp (h h' : Q -> Q) (w : dict Q) (f : string) :
  (forall v, h v == h' v) ->
  weight_of (map (fun kv => (fst kv, h (snd kv))) w) f
  == weight_of (map (fun kv => (fst kv, h' (snd kv))) w) f.
Proof.
  intros E. unfold weight_of.
  induction w as [|[k v] w IH]; simpl; [reflexivity|].
  destruct (String.eqb k f); [apply E|exact IH].
Qed.

Lemma row_score_comp (fs : list string) (w w' : dict Q) (r : Row Q) (a a' : Q) :
  (forall f, weight_of w f == weight_of w' f) -> a == a' ->
  fold_left (fun acc f => acc + value r f * weight_of w f) fs a
  == fold_left (fun acc f => acc + value r f * weight_of w' f) fs a'.
Proof.
  intros E. revert a a'. induction fs as [|f fs IH]; intros a a' Ea; simpl;
    [exact Ea|].
  apply IH. now rewrite Ea, (E f).
Qed.

(** In exact arithmetic a common factor cancels in the normalized weights,
    and the scored tables coincide. *)
Lemma scored_of_scale_weights
  (FACTOR_NAMES : list string) (df : list (Row Q)) (w : dict Q) (c : Q) :
  ~ c == 0 -> ~ py_sum (values w) == 0 ->
  scored_of FACTOR_NAMES df (scale_weights c w) = scored_of FACTOR_NAMES df w.
Proof.
  intros Hc Hz. unfold scored_of.
  set (t := py_sum (values w)) in *.
  set (t' := py_sum (values (scale_weights c w))).
  assert (Ht : t' == c * t) by apply py_sum_scale_weights.
  assert (Hscore :
    map (fun r => Qround_decimals 2
                    (row_score FACTOR_NAMES
                       (map (fun kv => (fst kv, snd kv / t'))
                            (scale_weights c w)) r)) df
    = map (fun r => Qround_decimals 2
                      (row_score FACTOR_NAMES
                         (map (fun kv => (fst kv, snd kv / t)) w) r)) df).
  { apply map_ext. intros r. apply Qround_decimals_comp.
    unfold row_score, scale_weights. rewrite map_map. simpl.
    apply row_score_comp; [|reflexivity].
    intros f.
    apply (weight_of_comp (fun v => c * v / t') (fun v => v / t)).
    intros v. rewrite Ht. field. split; assumption. }
  now rewrite Hscore.
Qed.

(** C3, as written: in binary64 the scores change with the scale, under
    the configuration of [data.py].  Weights 10^16, 1, 0, 0 and their exact
    triples score a row holding 0.375, 0, 0, 0 at 0.38 and at 0.37; weights
    35, 30, 20, 15 and their products by 0.01 score a row holding 4.3, 38.2,
    47.1, 61.8 at 31.65 and at 31.66. *)
Lemma scaled_weights_change_binary64_scores :
  (scale_weights (Binary64.of_Z 3) wide_weights
   = factor_weights (Binary64.of_Z (3 * 10 ^ 16)) (Binary64.of_Z 3)
                    (Binary64.of_Z 0) (Binary64.of_Z 0) /\
   exists scored scored',
     compute_weighted_utility data.FACTOR_NAMES DEFAULT_WEIGHTS_binary64
       three_eighths (Some wide_weights) = inr scored /\
     compute_weighted_utility data.FACTOR_NAMES DEFAULT_WEIGHTS_binary64
       three_eighths (Some (scale_weights (Binary64.of_Z 3) wide_weights))
     = inr scored' /\
     map Weighted_Score scored = [b64 38 100] /\
     map Weighted_Score scored' = [b64 37 100] /\
     map Weighted_Score scored <> map Weighted_Score scored') /\
  (exists scored scored',
     compute_weighted_utility data.FACTOR_NAMES DEFAULT_WEIGHTS_binary64
       one_decimal (Some percent_weights) = inr scored /\
     compute_weighted_utility data.FACTOR_NAMES DEFAULT_WEIGHTS_binary64
       one_decimal (Some (scale_weights (b64 1 100) percent_weights))
     = inr scored' /\
     map Weighted_Score scored = [b64 3165 100] /\
     map Weighted_Score scored' = [b64 3166 100] /\
     map Weighted_Score scored <> map Weighted_Score scored').
Proof.
  split.
  - split; [vm_compute; reflexivity|].
    eexists. eexists.
    split; [vm_compute; reflexivity|].
    split; [vm_compute; reflexivity|].
    split; [vm_compute; reflexivity|].
    split; [vm_compute; reflexivity|].
    intros E. vm_compute in E.
    match type of E with
    | [?a] = _ =>
        apply (f_equal (fun l => match l with
                                 | x :: _ => PrimFloat.eqb a x
                                 | [] => true
                                 end)) in E
    end.
    vm_compute in E. discriminate.
  - eexists. eexists.
    split; [vm_compute; reflexivity|].
    split; [vm_compute; reflexivity|].
    split; [vm_compute; reflexivity|].
    split; [vm_compute; reflexivity|].
    intros E. vm_compute in E.
    match type of E with
    | [?a] = _ =>
        apply (f_equal (fun l => match l with
                                 | x :: _ => PrimFloat.eqb a x
                                 | [] => true
                                 end)) in E
    end.
    vm_compute in E. discriminate.
Qed.

(** C3, amended: in exact arithmetic, for every table, every weight
    dictionary with a non-zero total that lists every factor (every valid
    weight vector is one) and every positive scalar [c], the weights and the
    weights scaled by [c] give the same scored table, and so the same
    ["Weighted Score"] column. *)
Theorem compute_weighted_utility_scale_invariant
  (FACTOR_NAMES : list string) (DEFAULT_WEIGHTS : dict Q)
  (factor_df : list (Row Q)) (weights : dict Q) (c : Q) :
  0 < c ->
  ~ py_sum (values weights) == 0 ->
  (forall f, In f FACTOR_NAMES -> In f (keys weights)) ->
  exists scored scored',
    compute_weighted_utility FACTOR_NAMES DEFAULT_WEIGHTS factor_df
      (Some weights) = inr scored /\
    compute_weighted_utility FACTOR_NAMES DEFAULT_WEIGHTS factor_df
      (Some (scale_weights c weights)) = inr scored' /\
    scored' = scored /\
    map Weighted_Score scored' = map Weighted_Score scored.
Proof.
  intros Hc Hz Hin.
  assert (Hc' : ~ c == 0) by (intros E; rewrite E in Hc; discriminate).
  exists (scored_of FACTOR_NAMES factor_df weights),
         (scored_of FACTOR_NAMES factor_df (scale_weights c weights)).
  split; [now apply compute_weighted_utility_ok|].
  split.
  - apply compute_weighted_utility_ok.
    + rewrite py_sum_scale_weights. intros E.
      apply Qmult_integral in E as [E|E]; contradiction.
    + unfold keys, scale_weights. rewrite map_map. exact Hin.
  - rewrite (scored_of_scale_weights _ _ _ _ Hc' Hz). split; reflexivity.
Qed.

Lemma compute_weighted_utility_scale_invariant_witness :
  exists scored scored',
    compute_weighted_utility two_factors equal_weights triple
      (Some skewed_weights) = inr scored /\
    compute_weighted_utility two_factors equal_weights triple
      (Some (scale_weights (7 # 3) skewed_weights)) = inr scored' /\
    scored' = scored /\
    map Weighted_Score scored' = map Weighted_Score scored.
Proof.
  apply (compute_weighted_utility_scale_invariant
           two_factors equal_weights triple skewed_weights (7 # 3)).
  - reflexivity.
  - vm_compute. discriminate.
  - intros f [<-|[<-|[]]]; [now left|right; now left].
Defined.

(** ** The Pareto-optimal set *)

Section Pareto.

Variable FACTOR_NAMES : list string.

Lemma np_all_ge_iff (rj ri : Row Q) :
  np_all_ge (factor_values FACTOR_NAMES rj) (factor_values FACTOR_NAMES ri)
    = true
  <-> forall f, In f FACTOR_NAMES -> value ri f <= value rj f.
Proof.
  unfold np_all_ge, factor_values.
  induction FACTOR_NAMES as [|f fs IH]; simpl.
  - split; [intros _ f []|reflexivity].
  - rewrite andb_true_iff, Qle_bool_iff, IH. split.
    + intros [H0 H] g [<-|Hg]; auto.
    + intros H. split; [apply H; now left|]. intros g Hg. apply H. now right.
Qed.

Lemma np_any_gt_iff (rj ri : Row Q) :
  np_any_gt (factor_values FACTOR_NAMES rj) (factor_values FACTOR_NAMES ri)
    = true
  <-> exists f, In f FACTOR_NAMES /\ value ri f < value rj f.
Proof.
  unfold np_any_gt, factor_values.
  induction FACTOR_NAMES as [|f fs IH]; simpl.
  - split; [discriminate|intros (f & [] & _)].
  - rewrite orb_true_iff, Qlt_bool_iff, IH. split.
    + intros [H|(g & Hg & H)]; [exists f|exists g]; auto.
    + intros (g & [<-|Hg] & H); [now left|right; now exists g].
Qed.

Lemma nth_scores (df : list (Row Q)) (i : nat) (r : Row Q) :
  nth_error df i = Some r ->
  nth i (map (factor_values FACTOR_NAMES) df) [] = factor_values FACTOR_NAMES r.
Proof.
  intros Hi. apply nth_error_nth.
  now rewrite nth_error_map, Hi.
Qed.

(** The inner loop finds a dominating row exactly when there is one. *)
Lemma dominated_row_iff (df : list (Row Q)) (i : nat) (ri : Row Q) :
  nth_error df i = Some ri ->
  dominated_row (map (factor_values FACTOR_NAMES) df) (length df) i = true
  <-> exists j rj, j <> i /\ nth_error df j = Some rj /\
                   dominates FACTOR_NAMES rj ri.
Proof.
  intros Hi. unfold dominated_row. rewrite existsb_exists. split.
  - intros (j & Hj & H). apply in_seq in Hj.
    destruct (nth_error df j) as [rj|] eqn:Ej.
    2:{ apply nth_error_None in Ej. lia. }
    rewrite (nth_scores df j rj Ej), (nth_scores df i ri Hi) in H.
    apply andb_true_iff in H as [H Hgt]. apply andb_true_iff in H as [Hne Hge].
    exists j, rj. split; [|split; [exact Ej|split]].
    + apply negb_true_iff, Nat.eqb_neq in Hne. congruence.
    + now apply np_all_ge_iff.
    + now apply np_any_gt_iff.
  - intros (j & rj & Hne & Ej & Hge & Hgt).
    exists j. split.
    + apply in_seq. split; [lia|]. simpl.
      apply nth_error_Some. congruence.
    + rewrite (nth_scores df j rj Ej), (nth_scores df i ri Hi).
      rewrite !andb_true_iff. repeat split.
      * apply negb_true_iff, Nat.eqb_neq. congruence.
      * now apply np_all_ge_iff.
      * now apply np_any_gt_iff.
Qed.

(** The set built by the outer loop. *)
Lemma dominated_set_iff (P : nat -> bool) (l : list nat) (d0 : gset nat) (i : nat) :
  i ∈ fold_left (fun d i => if P i then {[ i ]} ∪ d else d) l d0
  <-> i ∈ d0 \/ (In i l /\ P i = true).
Proof.
  revert d0. induction l as [|k l IH]; intros d0; simpl.
  - split; [now left|intros [H|[[] _]]; exact H].
  - rewrite IH. destruct (P k) eqn:E.
    + rewrite elem_of_union, elem_of_singleton. split.
      * intros [[->|H]|[H1 H2]]; auto.
      * intros [H|[[->|H1] H2]]; auto.
    + split.
      * intros [H|[H1 H2]]; auto.
      * intros [H|[[->|H1] H2]]; auto. congruence.
Qed.

(** A name is returned exactly when it is the name of a row that the inner
    loop did not find dominated. *)
Lemma find_pareto_optimal_In (df : list (Row Q)) (c : string) :
  In c (find_pareto_optimal FACTOR_NAMES df)
  <-> exists i ri,
        nth_error df i = Some ri /\ Country ri = c /\
        dominated_row (map (factor_values FACTOR_NAMES) df) (length df) i
          = false.
Proof.
  unfold find_pareto_optimal. rewrite length_map, in_map_iff. split.
  - intros (i & Hc & Hi). apply filter_In in Hi as [Hi Hd].
    apply in_seq in Hi. apply bool_decide_eq_true in Hd.
    rewrite dominated_set_iff in Hd.
    destruct (nth_error df i) as [ri|] eqn:Ei.
    2:{ apply nth_error_None in Ei. lia. }
    exists i, ri. split; [exact Ei|split].
    + rewrite <- Hc. symmetry. apply nth_error_nth.
      now rewrite nth_error_map, Ei.
    + destruct (dominated_row _ _ i) eqn:E; [|reflexivity].
      exfalso. apply Hd. right. split; [|reflexivity].
      apply in_seq. lia.
  - intros (i & ri & Ei & Hc & Hd). exists i. split.
    + rewrite <- Hc. apply nth_error_nth. now rewrite nth_error_map, Ei.
    + apply filter_In. split.
      * apply in_seq. split; [lia|]. simpl. apply nth_error_Some. congruence.
      * apply bool_decide_eq_true. rewrite dominated_set_iff.
        intros [H|[_ H]]; [now apply not_elem_of_empty in H|congruence].
Qed.

Lemma dominates_irrefl (r : Row Q) : ~ dominates FACTOR_NAMES r r.
Proof. intros [_ (f & _ & H)]. now apply Qlt_irrefl in H. Qed.

Lemma dominates_same_scores (r' r1 r2 : Row Q) :
  same_scores FACTOR_NAMES r1 r2 ->
  dominates FACTOR_NAMES r' r1 -> dominates FACTOR_NAMES r' r2.
Proof.
  intros Hs [Hge (f & Hf & Hgt)]. split.
  - intros g Hg. rewrite <- (Hs g Hg). now apply Hge.
  - exists f. split; [exact Hf|]. now rewrite <- (Hs f Hf).
Qed.

Lemma same_scores_sym (r1 r2 : Row Q) :
  same_scores FACTOR_NAMES r1 r2 -> same_scores FACTOR_NAMES r2 r1.
Proof. intros H f Hf. symmetry. now apply H. Qed.

Lemma same_scores_not_dominates (r1 r2 : Row Q) :
  same_scores FACTOR_NAMES r1 r2 -> ~ dominates FACTOR_NAMES r1 r2.
Proof.
  intros Hs [_ (f & Hf & Hgt)]. rewrite (Hs f Hf) in Hgt.
  now apply Qlt_irrefl in Hgt.
Qed.

(** A dominating row has a strictly larger total. *)
Lemma fold_Qplus_le (f g : string -> Q) (l : list string) (a b : Q) :
  (forall x, In x l -> f x <= g x) -> a <= b ->
  fold_left Qplus (map f l) a <= fold_left Qplus (map g l) b.
Proof.
  revert a b. induction l as [|x l IH]; intros a b Hl Hab; simpl; [exact Hab|].
  apply IH.
  - intros y Hy. apply Hl. now right.
  - apply Qplus_le_compat; [exact Hab|]. apply Hl. now left.
Qed.

Lemma fold_Qplus_lt (f g : string -> Q) (l : list string) (a b : Q) :
  (forall x, In x l -> f x <= g x) -> a <= b ->
  a < b \/ (exists x, In x l /\ f x < g x) ->
  fold_left Qplus (map f l) a < fold_left Qplus (map g l) b.
Proof.
  revert a b. induction l as [|x l IH]; intros a b Hl Hab Hlt; simpl.
  - destruct Hlt as [H|(x & [] & _)]. exact H.
  - assert (Hx : f x <= g x) by (apply Hl; now left).
    apply IH.
    + intros y Hy. apply Hl. now right.
    + now apply Qplus_le_compat.
    + destruct Hlt as [H|(y & [<-|Hy] & H)].
      * left. lra.
      * left. lra.
      * right. now exists y.
Qed.

Lemma dominates_Qsum (rj ri : Row Q) :
  dominates FACTOR_NAMES rj ri ->
  Qsum (factor_values FACTOR_NAMES ri) < Qsum (factor_values FACTOR_NAMES rj).
Proof.
  intros [Hge Hgt]. unfold Qsum, factor_values.
  apply fold_Qplus_lt; [exact Hge|apply Qle_refl|now right].
Qed.

End Pareto.

Lemma exists_largest {A} (m : A -> Q) (l : list A) :
  l <> [] -> exists x, In x l /\ forall y, In y l -> m y <= m x.
Proof.
  induction l as [|a l IH]; [congruence|]. intros _.
  destruct l as [|b l'].
  - exists a. split; [now left|]. intros y [<-|[]]. apply Qle_refl.
  - destruct IH as (x & Hx & Hmax); [discriminate|].
    destruct (Qlt_le_dec (m x) (m a)) as [H|H].
    + exists a. split; [now left|]. intros y [<-|Hy]; [apply Qle_refl|].
      apply Qle_trans with (m x); [now apply Hmax|now apply Qlt_le_weak].
    + exists x. split; [now right|]. intros y [<-|Hy]; auto.
Qed.

Lemma NoDup_Country_inj (df : list (Row Q)) (i : nat) (ri r : Row Q) :
  NoDup (map Country df) ->
  nth_error df i = Some ri -> In r df -> Country ri = Country r -> ri = r.
Proof.
  intros Hnd Hi Hr Hc. apply In_nth_error in Hr as [k Hk].
  assert (i = k) as ->; [|congruence].
  apply (proj1 (NoDup_nth_error (map Country df)) Hnd).
  - rewrite length_map. apply nth_error_Some. congruence.
  - rewrite !nth_error_map, Hi, Hk. simpl. now rewrite Hc.
Qed.

(** Two rows equal in every factor stay or go together.  Under the
    configuration of [data.py], rows A and B score 1 in every factor and row
    C scores 2: A and B do not dominate each other, C dominates both, and
    only C is returned. *)
Lemma find_pareto_optimal_equal_rows_absent :
  exists r1 r2,
    In r1 tied_pair_below /\ In r2 tied_pair_below /\
    Country r1 <> Country r2 /\
    same_scores data.FACTOR_NAMES r1 r2 /\
    find_pareto_optimal data.FACTOR_NAMES tied_pair_below = ["C"] /\
    ~ (In (Country r1) (find_pareto_optimal data.FACTOR_NAMES tied_pair_below)
       /\ In (Country r2)
            (find_pareto_optimal data.FACTOR_NAMES tied_pair_below)).
Proof.
  exists (factor_row "A" 1 1 1 1), (factor_row "B" 1 1 1 1).
  split; [now left|]. split; [right; now left|].
  split; [discriminate|]. split.
  - intros f _. reflexivity.
  - split; [vm_compute; reflexivity|].
    intros [H _]. vm_compute in H. destruct H as [H|[]]. discriminate.
Qed.

(** C4: with unique entity identifiers, [find_pareto_optimal]
    returns names of rows of the table; a row whose name is returned is
    dominated by no row; a row whose name is not returned is dominated by
    another entity; and two rows with the same score in every factor do not
    dominate each other and are returned together or not at all: both are
    returned when no row of the table dominates one of them. *)
Theorem find_pareto_optimal_exact
  (FACTOR_NAMES : list string) (factor_df : list (Row Q)) :
  NoDup (map Country factor_df) ->
  let pareto := find_pareto_optimal FACTOR_NAMES factor_df in
  (forall c, In c pareto -> exists r, In r factor_df /\ Country r = c) /\
  (forall r, In r factor_df -> In (Country r) pareto ->
     forall r', In r' factor_df -> ~ dominates FACTOR_NAMES r' r) /\
  (forall r, In r factor_df -> ~ In (Country r) pareto ->
     exists r', In r' factor_df /\ Country r' <> Country r /\
                dominates FACTOR_NAMES r' r) /\
  (forall r1 r2, In r1 factor_df -> In r2 factor_df ->
     same_scores FACTOR_NAMES r1 r2 ->
     ~ dominates FACTOR_NAMES r1 r2 /\ ~ dominates FACTOR_NAMES r2 r1 /\
     (In (Country r1) pareto <-> In (Country r2) pareto) /\
     ((forall r', In r' factor_df -> ~ dominates FACTOR_NAMES r' r1) ->
      In (Country r1) pareto /\ In (Country r2) pareto)).
Proof.
  intros Hnd pareto.
  assert (Hsound : forall r, In r factor_df -> In (Country r) pareto ->
            forall r', In r' factor_df -> ~ dominates FACTOR_NAMES r' r).
  { intros r Hr Hin r' Hr' Hdom.
    apply find_pareto_optimal_In in Hin as (i & ri & Hi & Hc & Hd).
    assert (ri = r) as -> by (eapply NoDup_Country_inj; eauto).
    apply not_true_iff_false in Hd. apply Hd.
    apply (dominated_row_iff FACTOR_NAMES factor_df i r Hi).
    apply In_nth_error in Hr' as [j Hj].
    exists j, r'. split; [|split; assumption].
    intros ->. assert (r' = r) as -> by congruence.
    now apply dominates_irrefl in Hdom. }
  assert (Hcomplete : forall r, In r factor_df -> ~ In (Country r) pareto ->
            exists r', In r' factor_df /\ Country r' <> Country r /\
                       dominates FACTOR_NAMES r' r).
  { intros r Hr Hout. destruct (In_nth_error _ _ Hr) as [i Hi].
    destruct (dominated_row (map (factor_values FACTOR_NAMES) factor_df)
                (length factor_df) i) eqn:Hd.
    - apply (dominated_row_iff FACTOR_NAMES factor_df i r Hi) in Hd
        as (j & rj & Hne & Hj & Hdom).
      exists rj. split; [eapply nth_error_In; eauto|]. split; [|exact Hdom].
      intros Hc. apply Hne.
      apply (proj1 (NoDup_nth_error (map Country factor_df)) Hnd).
      + rewrite length_map. apply nth_error_Some. congruence.
      + rewrite !nth_error_map, Hi, Hj. simpl. now rewrite Hc.
    - exfalso. apply Hout. apply find_pareto_optimal_In.
      exists i, r. auto. }
  assert (Hiff : forall r, In r factor_df ->
            In (Country r) pareto <->
            forall r', In r' factor_df -> ~ dominates FACTOR_NAMES r' r).
  { intros r Hr. split; [now apply Hsound|]. intros Hnone.
    destruct (in_dec String.string_dec (Country r) pareto) as [H|H];
      [exact H|].
    destruct (Hcomplete r Hr H) as (r' & Hr' & _ & Hdom).
    now apply Hnone in Hdom. }
  split; [|split; [exact Hsound|split; [exact Hcomplete|]]].
  - intros c Hc. apply find_pareto_optimal_In in Hc as (i & ri & Hi & Hc & _).
    exists ri. split; [eapply nth_error_In; eauto|exact Hc].
  - intros r1 r2 H1 H2 Hs.
    split; [now apply same_scores_not_dominates|].
    split; [now apply same_scores_not_dominates, same_scores_sym|].
    assert (Hboth : In (Country r1) pareto <-> In (Country r2) pareto).
    { rewrite (Hiff r1 H1), (Hiff r2 H2). split; intros H r' Hr' Hdom.
      - apply (H r' Hr'). eapply dominates_same_scores; [|exact Hdom].
        now apply same_scores_sym.
      - apply (H r' Hr'). eapply dominates_same_scores; [|exact Hdom].
        exact Hs. }
    split; [exact Hboth|]. intros Hnone.
    assert (In (Country r1) pareto) by (now apply (Hiff r1 H1)).
    split; [assumption|now apply Hboth].
Qed.

(** C10: on a non-empty table the Pareto set is not empty: a row with the
    largest total over the factors is dominated by no row, so its name is
    returned. *)
Theorem find_pareto_optimal_nonempty
  (FACTOR_NAMES : list string) (factor_df : list (Row Q)) :
  factor_df <> [] -> find_pareto_optimal FACTOR_NAMES factor_df <> [].
Proof.
  intros Hne.
  destruct (exists_largest (fun r => Qsum (factor_values FACTOR_NAMES r))
              factor_df Hne) as (r & Hr & Hmax).
  destruct (In_nth_error _ _ Hr) as [i Hi].
  assert (Hin : In (Country r) (find_pareto_optimal FACTOR_NAMES factor_df)).
  { apply find_pareto_optimal_In. exists i, r. split; [exact Hi|].
    split; [reflexivity|].
    apply not_true_iff_false. intros Hd.
    apply (dominated_row_iff FACTOR_NAMES factor_df i r Hi) in Hd
      as (j & rj & _ & Hj & Hdom).
    apply dominates_Qsum in Hdom.
    apply (Qlt_not_le _ _ Hdom). apply Hmax. eapply nth_error_In; eauto. }
  intros E. rewrite E in Hin. destruct Hin.
Qed.

(** ** The two-dimensional frontier *)

Lemma StronglySorted_nth {A} (R : A -> A -> Prop) (l : list A) :
  StronglySorted R l ->
  forall i j a b, (i < j)%nat ->
    nth_error l i = Some a -> nth_error l j = Some b -> R a b.
Proof.
  induction 1 as [|x l Hl IH Hx]; intros i j a b Hij Hi Hj.
  - destruct i; discriminate.
  - destruct j as [|j]; [lia|]. simpl in Hj.
    destruct i as [|i]; simpl in Hi.
    + injection Hi as <-. rewrite Forall_forall in Hx.
      apply Hx. eapply nth_error_In; eauto.
    + apply (IH i j); auto. lia.
Qed.

Lemma StronglySorted_snoc {A} (R : A -> A -> Prop) (l : list A) (p : A) :
  StronglySorted R l -> (forall q, In q l -> R q p) ->
  StronglySorted R (l ++ [p]).
Proof.
  induction 1 as [|x l Hl IH Hx]; intros Hp; simpl.
  - repeat constructor.
  - constructor.
    + apply IH. intros q Hq. apply Hp. now right.
    + rewrite Forall_app. split; [exact Hx|].
      constructor; [|constructor]. apply Hp. now left.
Qed.

Lemma StronglySorted_pairs {A} (R : A -> A -> Prop) (l : list A) :
  StronglySorted R l ->
  forall a b, In a l -> In b l -> a = b \/ R a b \/ R b a.
Proof.
  induction 1 as [|x l Hl IH Hx]; intros a b Ha Hb; [destruct Ha|].
  rewrite Forall_forall in Hx.
  destruct Ha as [<-|Ha], Hb as [<-|Hb]; auto.
Qed.

Lemma sweep_staircase (todo : list Point) :
  StronglySorted (fun a b => pt_x b <= pt_x a) todo ->
  forall (kept : list Point) (max_y : option Q),
    StronglySorted staircase kept ->
    (forall p q, In p kept -> In q todo -> pt_x q <= pt_x p) ->
    (forall p, In p kept -> exists m, max_y = Some m /\ pt_y p <= m) ->
    StronglySorted staircase (fst (fold_left sweep_step todo (kept, max_y))).
Proof.
  induction 1 as [|p todo Htodo IH Hp]; intros kept max_y Hk Hx Hy;
    simpl; [exact Hk|].
  rewrite Forall_forall in Hp.
  unfold sweep_step at 2. simpl.
  destruct (at_least (pt_y p) max_y) eqn:E.
  - apply IH.
    + apply StronglySorted_snoc; [exact Hk|].
      intros q Hq. split.
      * apply Hx; [exact Hq|now left].
      * destruct (Hy q Hq) as (m & -> & Hm). simpl in E.
        apply Qle_bool_iff in E. now apply Qle_trans with m.
    + intros a b Ha Hb. apply in_app_or in Ha as [Ha|[<-|[]]].
      * apply Hx; [exact Ha|now right].
      * now apply Hp.
    + intros a Ha. exists (pt_y p). split; [reflexivity|].
      apply in_app_or in Ha as [Ha|[<-|[]]].
      * destruct (Hy a Ha) as (m & -> & Hm). simpl in E.
        apply Qle_bool_iff in E. now apply Qle_trans with m.
      * apply Qle_refl.
  - apply IH; auto.
    intros a b Ha Hb. apply Hx; [exact Ha|now right].
Qed.

Lemma sweep_keeps (todo : list Point) (kept : list Point) (max_y : option Q) :
  kept <> [] -> fst (fold_left sweep_step todo (kept, max_y)) <> [].
Proof.
  revert kept max_y. induction todo as [|p todo IH]; intros kept max_y Hk;
    simpl; [exact Hk|].
  unfold sweep_step at 2. simpl.
  destruct (at_least (pt_y p) max_y); apply IH; [|exact Hk].
  destruct kept; discriminate.
Qed.

(** C5, as written: on the three-entity table of the design document the
    frontier over (F1, F2) is B (0, 100), C (50, 50), A (100, 0), whose [y]
    falls as [x] grows; it is not non-decreasing in both columns. *)
Lemma pareto_frontier_2d_y_not_nondecreasing :
  exists F,
    pareto_frontier_2d triple "F1" "F2" = inr F /\
    ~ (nondecreasing_by pt_x F /\ nondecreasing_by pt_y F).
Proof.
  eexists. split; [vm_compute; reflexivity|].
  intros [_ Hy].
  specialize (Hy 0%nat 1%nat _ _ ltac:(lia) eq_refl eq_refl).
  vm_compute in Hy. apply Hy. reflexivity.
Qed.

(** C5, amended: for every table and every pair of columns, a frontier that
    is returned has non-decreasing [x], and its [y] does not increase from a
    point to a point of strictly larger [x]; a frontier is returned for
    every non-empty table and every pair of distinct factor columns. *)
Theorem pareto_frontier_2d_monotone
  (factor_df : list (Row Q)) (x_col y_col : string) :
  (factor_df <> [] -> NoDup ["Country"; x_col; y_col] ->
   exists F, pareto_frontier_2d factor_df x_col y_col = inr F) /\
  (forall F,
     pareto_frontier_2d factor_df x_col y_col = inr F ->
     nondecreasing_by pt_x F /\
     (forall i j a b, (i < j)%nat ->
        nth_error F i = Some a -> nth_error F j = Some b ->
        pt_x a < pt_x b -> pt_y b <= pt_y a)).
Proof.
  unfold pareto_frontier_2d.
  set (df := sort_values_asc pt_x _).
  set (todo := sort_values_desc pt_x df).
  assert (Hsweep : StronglySorted staircase
                     (fst (fold_left sweep_step todo ([], None)))).
  { apply sweep_staircase.
    - apply sort_values_desc_sorted.
    - constructor.
    - intros p q [].
    - intros p []. }
  split.
  - intros Hne Hxy.
    assert (Hlabels : String.eqb x_col y_col || String.eqb "Country" x_col
                      = false
                      /\ String.eqb "Country" y_col = false).
    { inversion Hxy as [|c l Hc Hl]; subst.
      inversion Hl as [|c l' Hx _]; subst.
      rewrite !orb_false_iff, !String.eqb_neq. repeat split.
      - intros ->. apply Hx. now left.
      - intros E. apply Hc. now left.
      - intros E. apply Hc. right. now left. }
    destruct Hlabels as [Hx Hy]. rewrite Hx, Hy.
    assert (Hkept : fst (fold_left sweep_step todo ([], None)) <> []).
    { destruct todo as [|p todo'] eqn:E.
      - apply sort_by_nil, sort_by_nil, map_eq_nil in E. contradiction.
      - simpl. apply sweep_keeps. discriminate. }
    destruct (fst (fold_left sweep_step todo ([], None))) as [|k kept];
      [congruence|].
    eexists. reflexivity.
  - intros F HF.
    destruct (String.eqb x_col y_col || String.eqb "Country" x_col);
      [discriminate|].
    destruct (String.eqb "Country" y_col);
      [destruct factor_df; discriminate|].
    destruct (fst (fold_left sweep_step todo ([], None))) as [|k kept] eqn:EK;
      [discriminate|].
    assert (F = sort_values_asc pt_x (k :: kept)) as ->
      by (unfold ret in HF; congruence).
    split.
    + intros i j a b Hij Hi Hj.
      exact (StronglySorted_nth _ _ (sort_values_asc_sorted pt_x (k :: kept))
               i j a b Hij Hi Hj).
    + intros i j a b Hij Hi Hj Hlt.
      apply nth_error_In, sort_by_In in Hi.
      apply nth_error_In, sort_by_In in Hj.
      destruct (StronglySorted_pairs _ _ Hsweep a b Hi Hj)
        as [->|[[H _]|[_ H]]].
      * now apply Qlt_irrefl in Hlt.
      * exfalso. apply (Qlt_not_le _ _ Hlt H).
      * exact H.
Qed.

Lemma pareto_frontier_2d_monotone_witness :
  exists F,
    pareto_frontier_2d triple "F1" "F2" = inr F /\
    nondecreasing_by pt_x F /\
    (forall i j a b, (i < j)%nat ->
       nth_error F i = Some a -> nth_error F j = Some b ->
       pt_x a < pt_x b -> pt_y b <= pt_y a).
Proof.
  destruct (pareto_frontier_2d_monotone triple "F1" "F2") as [Hret Hmono].
  destruct Hret as [F HF].
  - discriminate.
  - repeat (apply NoDup_cons; [simpl; intuition discriminate|]).
    apply NoDup_nil.
  - exists F. split; [exact HF|]. apply Hmono. exact HF.
Defined.

(** ** The most balanced row *)

Section Balance.

Variable FACTOR_NAMES : list string.

Lemma balance_before_iff (a b : Row Q) :
  balance_before FACTOR_NAMES a b = true <->
  radicand (Factor_Std FACTOR_NAMES a) < radicand (Factor_Std FACTOR_NAMES b)
  \/ (radicand (Factor_Std FACTOR_NAMES a)
        == radicand (Factor_Std FACTOR_NAMES b)
      /\ Factor_Mean FACTOR_NAMES b <= Factor_Mean FACTOR_NAMES a).
Proof.
  unfold balance_before, sorts_after.
  cbn [root_ltb root_eqb num_ltb num_eqb Q_Measure Q_Number].
  unfold surd_ltb, surd_eqb. rewrite !Qeq_bool_refl. cbn [negb andb].
  rewrite orb_false_r.
  now rewrite orb_true_iff, andb_true_iff, Qlt_bool_iff, Qeq_bool_iff,
    negb_true_iff, Qlt_bool_false.
Qed.

Lemma balance_before_total (a b : Row Q) :
  balance_before FACTOR_NAMES a b = false ->
  balance_before FACTOR_NAMES b a = true.
Proof.
  intros H. apply not_true_iff_false in H.
  rewrite balance_before_iff in *.
  destruct (Q_dec (radicand (@Factor_Std Q Q_Number Q_Measure FACTOR_NAMES a))
                  (radicand (@Factor_Std Q Q_Number Q_Measure FACTOR_NAMES b)))
    as [[Hlt|Hgt]|Heq].
  - exfalso. apply H. now left.
  - now left.
  - right. split; [now symmetry|].
    destruct (Qlt_le_dec (Factor_Mean FACTOR_NAMES a)
                         (Factor_Mean FACTOR_NAMES b)) as [Hm|Hm].
    + now apply Qlt_le_weak.
    + exfalso. apply H. right. now split.
Qed.

Lemma balance_before_trans (a b c : Row Q) :
  balance_before FACTOR_NAMES a b = true ->
  balance_before FACTOR_NAMES b c = true ->
  balance_before FACTOR_NAMES a c = true.
Proof.
  rewrite !balance_before_iff.
  intros [H1|[H1 M1]] [H2|[H2 M2]].
  - left. lra.
  - left. lra.
  - left. lra.
  - right. split; lra.
Qed.

(** The first row of the sorted frame is returned; it sits at a position
    [i] of the input, may precede every row, and no row above [i] may
    precede it. *)
Lemma find_nash_equilibrium_head (df : list (Row Q)) :
  df <> [] ->
  exists i r,
    nth_error df i = Some r /\
    find_nash_equilibrium FACTOR_NAMES df = inr (Country r) /\
    (forall r', In r' df -> balance_before FACTOR_NAMES r r' = true) /\
    (forall j r', (j < i)%nat -> nth_error df j = Some r' ->
                  balance_before FACTOR_NAMES r' r = false).
Proof.
  intros Hne.
  destruct (sort_by_head_first (balance_before FACTOR_NAMES)
              balance_before_total balance_before_trans df Hne)
    as (i & m & Hi & Hhd & Hmin & Hfirst).
  exists i, m. split; [exact Hi|]. split; [|split; assumption].
  unfold find_nash_equilibrium.
  destruct (sort_by (balance_before FACTOR_NAMES) df) as [|r s];
    [discriminate|].
  simpl in Hhd. injection Hhd as ->. reflexivity.
Qed.

Lemma Qsquare_nonneg (x : Q) : 0 <= x * x.
Proof.
  destruct (Qlt_le_dec x 0) as [H|H].
  - assert (E : x * x == (- x) * (- x)) by ring. rewrite E.
    apply Qmult_le_0_compat; lra.
  - now apply Qmult_le_0_compat.
Qed.

Lemma Qsum_squares_nonneg (m : Q) (l : list Q) (a : Q) :
  0 <= a -> 0 <= fold_left Qplus (map (fun v => (v - m) * (v - m)) l) a.
Proof.
  revert a. induction l as [|x l IH]; intros a Ha; simpl; [exact Ha|].
  apply IH. pose proof (Qsquare_nonneg (x - m)). lra.
Qed.

Lemma Qdiv_nonneg (a d : Q) : 0 <= a -> 0 <= d -> 0 <= a / d.
Proof.
  intros Ha Hd. unfold Qdiv. apply Qmult_le_0_compat; [exact Ha|].
  now apply Qinv_le_0_compat.
Qed.

(** The radicand of a deviation, a sample variance, is never negative. *)
Lemma Factor_Std_nonneg (r : Row Q) : 0 <= radicand (Factor_Std FACTOR_NAMES r).
Proof.
  unfold Factor_Std. simpl. destruct FACTOR_NAMES as [|f fs] eqn:E.
  - vm_compute. discriminate.
  - rewrite <- E. apply Qdiv_nonneg.
    + apply Qsum_squares_nonneg. apply Qle_refl.
    + rewrite E. simpl length.
      change 0 with (inject_Z 0). rewrite <- Zle_Qle. lia.
Qed.

(** Deviations compare as their radicands do. *)
Lemma surd_value_le (a b : Row Q) :
  (surd_value (Factor_Std FACTOR_NAMES a)
   <= surd_value (Factor_Std FACTOR_NAMES b))%R
  <-> radicand (Factor_Std FACTOR_NAMES a)
      <= radicand (Factor_Std FACTOR_NAMES b).
Proof.
  unfold surd_value.
  pose proof (Qle_Rle _ _ (Factor_Std_nonneg a)) as Ha.
  pose proof (Qle_Rle _ _ (Factor_Std_nonneg b)) as Hb.
  rewrite RMicromega.Q2R_0 in Ha, Hb.
  split.
  - intros H. apply Rle_Qle. now apply sqrt_le_0.
  - intros H. apply sqrt_le_1_alt. now apply Qle_Rle.
Qed.

Lemma surd_value_eq (a b : Row Q) :
  surd_value (Factor_Std FACTOR_NAMES a)
  = surd_value (Factor_Std FACTOR_NAMES b)
  <-> radicand (Factor_Std FACTOR_NAMES a)
      == radicand (Factor_Std FACTOR_NAMES b).
Proof.
  unfold surd_value.
  pose proof (Qle_Rle _ _ (Factor_Std_nonneg a)) as Ha.
  pose proof (Qle_Rle _ _ (Factor_Std_nonneg b)) as Hb.
  rewrite RMicromega.Q2R_0 in Ha, Hb.
  split.
  - intros H. apply eqR_Qeq. now apply sqrt_inj.
  - intros H. f_equal. now apply Qeq_eqR.
Qed.

End Balance.

(** In exact arithmetic: on a non-empty table [find_nash_equilibrium]
    returns the name of a row whose standard deviation across the factors is
    the smallest; no row with the same deviation has a larger mean; and no
    row above it has both the same deviation and the same mean. *)
Theorem find_nash_equilibrium_most_balanced
  (FACTOR_NAMES : list string) (factor_df : list (Row Q)) :
  factor_df <> [] ->
  exists i r,
    nth_error factor_df i = Some r /\
    find_nash_equilibrium FACTOR_NAMES factor_df = inr (Country r) /\
    (forall r', In r' factor_df ->
       (surd_value (Factor_Std FACTOR_NAMES r)
        <= surd_value (Factor_Std FACTOR_NAMES r'))%R) /\
    (forall r', In r' factor_df ->
       surd_value (Factor_Std FACTOR_NAMES r')
       = surd_value (Factor_Std FACTOR_NAMES r) ->
       Factor_Mean FACTOR_NAMES r' <= Factor_Mean FACTOR_NAMES r) /\
    (forall j r', nth_error factor_df j = Some r' ->
       surd_value (Factor_Std FACTOR_NAMES r')
       = surd_value (Factor_Std FACTOR_NAMES r) ->
       Factor_Mean FACTOR_NAMES r' == Factor_Mean FACTOR_NAMES r ->
       (i <= j)%nat).
Proof.
  intros Hne.
  destruct (find_nash_equilibrium_head FACTOR_NAMES factor_df Hne)
    as (i & r & Hi & Hres & Hmin & Hfirst).
  exists i, r. split; [exact Hi|]. split; [exact Hres|]. split; [|split].
  - intros r' Hr'. apply surd_value_le.
    apply Hmin, balance_before_iff in Hr' as [H|[H _]]; lra.
  - intros r' Hr' Heq. apply surd_value_eq in Heq.
    apply Hmin, balance_before_iff in Hr' as [H|[_ H]]; [lra|exact H].
  - intros j r' Hj Heq Hmean. apply surd_value_eq in Heq.
    destruct (Nat.le_gt_cases i j) as [H|H]; [exact H|exfalso].
    pose proof (Hfirst j r' H Hj) as Hb.
    apply not_true_iff_false in Hb. apply Hb.
    apply balance_before_iff. right. split; [exact Heq|]. lra.
Qed.

(** C6: in binary64 the row returned need not be the most balanced one.
    Rows A (29.3, 95.7, 64.6, 46.7) and B (33.1, 99.5, 68.4, 50.5) differ by
    3.8 in every factor.  Read as decimals they have the same deviation and
    B has the larger mean; read as the rationals the floats stand for, B has
    the strictly smaller deviation; so B is the most balanced row either
    way, and exact arithmetic returns B.  The floats computed for the two
    deviations are 28.352586595699986 for A and 28.35258659569999 for B,
    one unit in the last place apart, and the function returns A. *)
Lemma find_nash_equilibrium_binary64_returns_less_balanced :
  find_nash_equilibrium data.FACTOR_NAMES shifted_pair_binary64 = inr "A" /\
  find_nash_equilibrium data.FACTOR_NAMES shifted_pair = inr "B" /\
  find_nash_equilibrium data.FACTOR_NAMES (map exact_row shifted_pair_binary64)
  = inr "B" /\
  (exists a b,
     shifted_pair = [a; b] /\
     radicand (Factor_Std data.FACTOR_NAMES a)
     == radicand (Factor_Std data.FACTOR_NAMES b) /\
     Factor_Mean data.FACTOR_NAMES a < Factor_Mean data.FACTOR_NAMES b) /\
  (exists a b,
     map exact_row shifted_pair_binary64 = [a; b] /\
     radicand (Factor_Std data.FACTOR_NAMES b)
     < radicand (Factor_Std data.FACTOR_NAMES a)) /\
  map (Factor_Std data.FACTOR_NAMES) shifted_pair_binary64
  = [b64 7980543651711511 (2 ^ 48); b64 7980543651711512 (2 ^ 48)].
Proof.
  split; [vm_compute; reflexivity|].
  split; [vm_compute; reflexivity|].
  split; [vm_compute; reflexivity|].
  split; [|split].
  - eexists. eexists. split; [reflexivity|].
    split; vm_compute; reflexivity.
  - eexists. eexists. split; [reflexivity|]. vm_compute; reflexivity.
  - vm_compute; reflexivity.
Qed.

(** C7, as written: on a table without rows the function raises the
    [IndexError] of [iloc[0]], which is not an [EmptyInputError]. *)
Lemma find_nash_equilibrium_empty_not_EmptyInputError :
  find_nash_equilibrium data.FACTOR_NAMES [] = inl IndexError /\
  find_nash_equilibrium data.FACTOR_NAMES [] <> inl EmptyInputError.
Proof. split; [reflexivity|discriminate]. Qed.

(** C7, amended: on a non-empty table [find_nash_equilibrium] returns the
    name of one of its rows, never null; on a table without rows it fails
    with an [IndexError]. *)
Theorem find_nash_equilibrium_total
  (FACTOR_NAMES : list string) (factor_df : list (Row Q)) :
  (factor_df <> [] ->
   exists r, In r factor_df /\
             find_nash_equilibrium FACTOR_NAMES factor_df = inr (Country r)) /\
  (factor_df = [] ->
   find_nash_equilibrium FACTOR_NAMES factor_df = inl IndexError).
Proof.
  split.
  - intros Hne.
    destruct (find_nash_equilibrium_head FACTOR_NAMES factor_df Hne)
      as (i & r & Hi & Hres & _).
    exists r. split; [eapply nth_error_In; eauto|exact Hres].
  - intros ->. reflexivity.
Qed.

(** ** Signs of binary64 results *)

Section Binary64Facts.

Import SpecFloat.

Lemma digits2_pos_bounds (m : positive) :
  (2 ^ (Zpos (digits2_pos m) - 1) <= Zpos m < 2 ^ Zpos (digits2_pos m))%Z.
Proof.
  induction m as [m IH|m IH|]; simpl digits2_pos.
  - rewrite Pos2Z.inj_succ.
    replace (Z.succ (Zpos (digits2_pos m)) - 1)%Z
      with (Z.succ (Zpos (digits2_pos m) - 1))%Z by lia.
    rewrite !Z.pow_succ_r by lia. rewrite (Pos2Z.inj_xI m). lia.
  - rewrite Pos2Z.inj_succ.
    replace (Z.succ (Zpos (digits2_pos m)) - 1)%Z
      with (Z.succ (Zpos (digits2_pos m) - 1))%Z by lia.
    rewrite !Z.pow_succ_r by lia. rewrite (Pos2Z.inj_xO m). lia.
  - simpl. lia.
Qed.

Lemma pow2_xI (p : positive) :
  (2 ^ Zpos p~1 = 2 * (2 ^ Zpos p * 2 ^ Zpos p))%Z.
Proof.
  rewrite (Pos2Z.inj_xI p).
  replace (2 * Zpos p + 1)%Z with (1 + Zpos p + Zpos p)%Z by lia.
  rewrite !Z.pow_add_r by lia. change (2 ^ 1)%Z with 2%Z. lia.
Qed.

Lemma pow2_xO (p : positive) :
  (2 ^ Zpos p~0 = 2 ^ Zpos p * 2 ^ Zpos p)%Z.
Proof.
  rewrite (Pos2Z.inj_xO p).
  replace (2 * Zpos p)%Z with (Zpos p + Zpos p)%Z by lia.
  now rewrite Z.pow_add_r by lia.
Qed.

Lemma shr_1_m (r : shr_record) :
  (0 <= shr_m r)%Z ->
  (0 <= shr_m (shr_1 r))%Z /\ shr_m (shr_1 r) = (shr_m r / 2)%Z.
Proof.
  destruct r as [m rr ss]. simpl. intros Hm.
  destruct m as [|p|p]; [simpl; split; [lia|reflexivity]| |lia].
  destruct p as [p|p|]; simpl.
  - split; [lia|]. rewrite (Pos2Z.inj_xI p).
    apply (Z.div_unique _ _ _ 1); lia.
  - split; [lia|]. rewrite (Pos2Z.inj_xO p).
    apply (Z.div_unique _ _ _ 0); lia.
  - split; [lia|reflexivity].
Qed.

Lemma iter_pos_shr_1 (p : positive) :
  forall r, (0 <= shr_m r)%Z ->
    (0 <= shr_m (iter_pos shr_1 p r))%Z /\
    shr_m (iter_pos shr_1 p r) = (shr_m r / 2 ^ Zpos p)%Z.
Proof.
  induction p as [p IH|p IH|]; intros r Hr; simpl iter_pos.
  - destruct (shr_1_m r Hr) as [H1 E1].
    destruct (IH _ H1) as [H2 E2]. destruct (IH _ H2) as [H3 E3].
    split; [exact H3|]. rewrite E3, E2, E1, pow2_xI.
    assert (0 < 2 ^ Zpos p)%Z by (apply Z.pow_pos_nonneg; lia).
    rewrite !Z.div_div by lia. f_equal; lia.
  - destruct (IH _ Hr) as [H2 E2]. destruct (IH _ H2) as [H3 E3].
    split; [exact H3|]. rewrite E3, E2, pow2_xO.
    assert (0 < 2 ^ Zpos p)%Z by (apply Z.pow_pos_nonneg; lia).
    rewrite !Z.div_div by lia. reflexivity.
  - destruct (shr_1_m r Hr) as [H1 E1]. split; [exact H1|].
    rewrite E1. reflexivity.
Qed.

Lemma shr_record_of_loc_m (m : Z) (l : location) :
  shr_m (shr_record_of_loc m l) = m.
Proof. destruct l as [|[]]; reflexivity. Qed.

(** A shift keeps a mantissa non-negative and does not lower the exponent. *)
Lemma shr_fexp_nonneg (m e : Z) (l : location) :
  (0 <= m)%Z ->
  (0 <= shr_m (fst (shr_fexp FloatOps.prec FloatOps.emax m e l)))%Z /\
  (e <= snd (shr_fexp FloatOps.prec FloatOps.emax m e l))%Z.
Proof.
  intros Hm. unfold shr_fexp, shr.
  destruct (fexp FloatOps.prec FloatOps.emax (Zdigits2 m + e) - e)%Z
    as [|p|p] eqn:E; simpl.
  - rewrite shr_record_of_loc_m. lia.
  - destruct (iter_pos_shr_1 p (shr_record_of_loc m l)) as [H _].
    + now rewrite shr_record_of_loc_m.
    + split; [exact H|lia].
  - rewrite shr_record_of_loc_m. lia.
Qed.

Lemma round_nearest_even_nonneg (m : Z) (l : location) :
  (0 <= m)%Z -> (m <= round_nearest_even m l)%Z.
Proof.
  intros Hm. unfold round_nearest_even.
  destruct l as [|[]]; try lia. destruct (Z.even m); lia.
Qed.

(** Rounding a non-negative mantissa gives a result of the sign asked for,
    never a NaN. *)
Lemma binary_round_aux_sign (sx : bool) (mx ex : Z) (lx : location) :
  (0 <= mx)%Z ->
  has_sign sx (binary_round_aux FloatOps.prec FloatOps.emax sx mx ex lx) = true.
Proof.
  intros Hm. unfold binary_round_aux.
  destruct (shr_fexp_nonneg mx ex lx Hm) as [H1 _].
  destruct (shr_fexp FloatOps.prec FloatOps.emax mx ex lx) as [mrs' e'].
  simpl in H1.
  pose proof (round_nearest_even_nonneg (shr_m mrs') (loc_of_shr_record mrs') H1)
    as H2.
  destruct (shr_fexp_nonneg
              (round_nearest_even (shr_m mrs') (loc_of_shr_record mrs'))
              e' loc_Exact) as [H3 _]; [lia|].
  destruct (shr_fexp FloatOps.prec FloatOps.emax _ e' loc_Exact)
    as [mrs'' e''].
  simpl in H3. destruct (shr_m mrs'') as [|p|p]; [reflexivity| |lia].
  destruct (e'' <=? FloatOps.emax - FloatOps.prec)%Z; simpl;
    now destruct sx.
Qed.

Lemma shr_fexp_pos (m e : Z) (l : location) :
  (0 < m)%Z -> (emin FloatOps.prec FloatOps.emax <= e)%Z ->
  (0 < shr_m (fst (shr_fexp FloatOps.prec FloatOps.emax m e l)))%Z /\
  (e <= snd (shr_fexp FloatOps.prec FloatOps.emax m e l))%Z /\
  (fexp FloatOps.prec FloatOps.emax (Zdigits2 m + e)
   <= snd (shr_fexp FloatOps.prec FloatOps.emax m e l))%Z.
Proof.
  intros Hm He. unfold shr_fexp, shr.
  destruct (fexp FloatOps.prec FloatOps.emax (Zdigits2 m + e) - e)%Z
    as [|p|p] eqn:E; simpl fst; simpl snd.
  - rewrite shr_record_of_loc_m. lia.
  - destruct (iter_pos_shr_1 p (shr_record_of_loc m l)) as [_ ->];
      rewrite shr_record_of_loc_m; [lia|].
    split; [|lia]. apply Z.div_str_pos. split; [apply Z.pow_pos_nonneg; lia|].
    destruct m as [|q|q]; try lia. simpl Zdigits2 in E.
    pose proof (digits2_pos_bounds q) as [Hq _].
    apply Z.le_trans with (2 := Hq). apply Z.pow_le_mono_r; [lia|].
    unfold fexp, emin, FloatOps.prec, FloatOps.emax in *. lia.
  - rewrite shr_record_of_loc_m. lia.
Qed.

(** Rounding a positive mantissa at an exponent in range gives an infinity
    or a finite number of the sign asked for, never a zero. *)
Lemma binary_round_aux_pos (sx : bool) (mx ex : Z) (lx : location) :
  (0 < mx)%Z -> (emin FloatOps.prec FloatOps.emax <= ex)%Z ->
  binary_round_aux FloatOps.prec FloatOps.emax sx mx ex lx = S754_infinity sx \/
  exists m e,
    binary_round_aux FloatOps.prec FloatOps.emax sx mx ex lx = S754_finite sx m e /\
    (fexp FloatOps.prec FloatOps.emax (Zdigits2 mx + ex) <= e)%Z.
Proof.
  intros Hm He. unfold binary_round_aux.
  destruct (shr_fexp_pos mx ex lx Hm He) as (H1 & H1e & H1f).
  destruct (shr_fexp FloatOps.prec FloatOps.emax mx ex lx) as [mrs' e'].
  simpl in H1, H1e, H1f.
  pose proof (round_nearest_even_nonneg (shr_m mrs') (loc_of_shr_record mrs'))
    as H2.
  destruct (shr_fexp_pos
              (round_nearest_even (shr_m mrs') (loc_of_shr_record mrs'))
              e' loc_Exact) as (H3 & H3e & _); [lia|lia|].
  destruct (shr_fexp FloatOps.prec FloatOps.emax _ e' loc_Exact)
    as [mrs'' e''].
  simpl in H3, H3e. destruct (shr_m mrs'') as [|p|p]; try lia.
  destruct (e'' <=? FloatOps.emax - FloatOps.prec)%Z; [right|now left].
  exists p, e''. split; [reflexivity|lia].
Qed.

Lemma SFmul_sign (x : spec_float) (s : bool) (my : positive) (ey : Z) :
  has_sign s x = true ->
  has_sign s (SFmul FloatOps.prec FloatOps.emax x (S754_finite false my ey)) = true.
Proof.
  destruct x as [sx|sx| |sx mx ex]; simpl; try discriminate; intros Hs.
  - reflexivity.
  - now rewrite xorb_false_r.
  - rewrite xorb_false_r. apply Bool.eqb_prop in Hs. subst sx.
    apply binary_round_aux_sign. lia.
Qed.

Lemma div_eucl_nonneg (a b : Z) :
  (0 <= a)%Z -> (0 < b)%Z -> (0 <= fst (Z.div_eucl a b))%Z.
Proof.
  intros Ha Hb. change (fst (Z.div_eucl a b)) with (a / b)%Z.
  apply Z.div_pos; lia.
Qed.

Lemma SFdiv_sign (x : spec_float) (s : bool) (my : positive) (ey : Z) :
  has_sign s x = true ->
  has_sign s (SFdiv FloatOps.prec FloatOps.emax x (S754_finite false my ey)) = true.
Proof.
  destruct x as [sx|sx| |sx mx ex]; simpl; try discriminate; intros Hs.
  - reflexivity.
  - now rewrite xorb_false_r.
  - rewrite xorb_false_r. apply Bool.eqb_prop in Hs. subst sx.
    unfold SFdiv_core_binary.
    set (sh := (ex - ey - _)%Z).
    set (m' := match sh with Z0 => Zpos mx | Zpos _ => Z.shiftl (Zpos mx) sh
               | Zneg _ => 0%Z end).
    assert (Hm' : (0 <= m')%Z).
    { subst m'. destruct sh; try lia. apply Z.shiftl_nonneg. lia. }
    pose proof (div_eucl_nonneg m' (Zpos my) Hm' eq_refl) as Hq.
    destruct (Z.div_eucl m' (Zpos my)) as [q r]. simpl in Hq.
    now apply binary_round_aux_sign.
Qed.

(** What it means for a finite number to be a binary64 value: at most 53
    digits, and either the least exponent or exactly 53 digits. *)
Lemma valid_binary_finite (s : bool) (m : positive) (e : Z) :
  valid_binary FloatOps.prec FloatOps.emax (S754_finite s m e) = true ->
  (Zpos (digits2_pos m) <= 53 /\ -1074 <= e /\
   (e = -1074 \/ Zpos (digits2_pos m) = 53))%Z.
Proof.
  simpl. unfold bounded, canonical_mantissa. intros H.
  apply andb_prop in H as [H _]. apply Z.eqb_eq in H.
  unfold fexp, emin, FloatOps.prec, FloatOps.emax in H. lia.
Qed.

Lemma Pos_iter_xO (m d : positive) :
  Zpos (Pos.iter xO m d) = (Zpos m * 2 ^ Zpos d)%Z.
Proof.
  induction d as [|d IH] using Pos.peano_ind.
  - simpl. lia.
  - rewrite Pos.iter_succ, Pos2Z.inj_xO, IH, Pos2Z.inj_succ.
    rewrite Z.pow_succ_r by lia. lia.
Qed.

Lemma shl_align_value (m : positive) (e ez : Z) :
  (ez <= e)%Z -> Zpos (fst (shl_align m e ez)) = (Zpos m * 2 ^ (e - ez))%Z.
Proof.
  intros H. unfold shl_align. destruct (ez - e)%Z as [|d|d] eqn:E; simpl fst.
  - replace (e - ez)%Z with 0%Z by lia. simpl. lia.
  - lia.
  - rewrite Pos_iter_xO. f_equal. f_equal. lia.
Qed.

(** A binary64 value with the larger exponent has the larger mantissa once
    the two are aligned. *)
Lemma aligned_lt (m1 m2 : positive) (e1 e2 : Z) (s1 s2 : bool) :
  valid_binary FloatOps.prec FloatOps.emax (S754_finite s1 m1 e1) = true ->
  valid_binary FloatOps.prec FloatOps.emax (S754_finite s2 m2 e2) = true ->
  (e1 < e2)%Z ->
  (Zpos m1 < Zpos m2 * 2 ^ (e2 - e1))%Z.
Proof.
  intros V1 V2 H.
  apply valid_binary_finite in V1 as (D1 & E1 & _).
  apply valid_binary_finite in V2 as (_ & E2 & [E2'|D2]); [lia|].
  pose proof (digits2_pos_bounds m1) as [_ U1].
  pose proof (digits2_pos_bounds m2) as [L2 _].
  rewrite D2 in L2. change (2 ^ (53 - 1))%Z with 4503599627370496%Z in L2.
  assert (Zpos m1 < 2 ^ 53)%Z.
  { apply Z.lt_le_trans with (1 := U1). apply Z.pow_le_mono_r; lia. }
  change (2 ^ 53)%Z with 9007199254740992%Z in *.
  assert (2 ^ 1 <= 2 ^ (e2 - e1))%Z by (apply Z.pow_le_mono_r; lia).
  change (2 ^ 1)%Z with 2%Z in *. nia.
Qed.

Lemma SFleb_key (x y : spec_float) :
  SF_number x = true -> SF_number y = true ->
  (SFleb x y = true <-> key_le (SF_key x) (SF_key y)).
Proof.
  unfold SFleb, SFcompare, key_le.
  destruct x as [sx|sx| |sx mx ex], y as [sy|sy| |sy my ey];
    try discriminate; intros _ _; simpl;
    try (destruct sx); try (destruct sy); simpl;
    try (split; [intros _; lia|reflexivity]);
    try (split; [discriminate|lia]).
  - change (Pos.compare_cont Eq mx my) with (Pos.compare mx my).
    rewrite Pos2Z.inj_compare.
    destruct (Z.compare_spec ex ey); [|split; [discriminate|lia]
                                      |split; [intros _; lia|reflexivity]].
    destruct (Z.compare_spec (Zpos mx) (Zpos my)); simpl;
      try (split; [intros _; lia|reflexivity]); try (split; [discriminate|lia]).
  - change (Pos.compare_cont Eq mx my) with (Pos.compare mx my).
    rewrite Pos2Z.inj_compare.
    destruct (Z.compare_spec ex ey); [|split; [intros _; lia|reflexivity]
                                      |split; [discriminate|lia]].
    destruct (Z.compare_spec (Zpos mx) (Zpos my)); simpl;
      try (split; [intros _; lia|reflexivity]); try (split; [discriminate|lia]).
Qed.

Lemma SFltb_key (x y : spec_float) :
  SF_number x = true -> SF_number y = true ->
  (SFltb x y = true <-> ~ key_le (SF_key y) (SF_key x)).
Proof.
  unfold SFltb, SFcompare, key_le.
  destruct x as [sx|sx| |sx mx ex], y as [sy|sy| |sy my ey];
    try discriminate; intros _ _; simpl;
    try (destruct sx); try (destruct sy); simpl;
    try (split; [intros _; lia|reflexivity]);
    try (split; [discriminate|lia]).
  - change (Pos.compare_cont Eq mx my) with (Pos.compare mx my).
    rewrite Pos2Z.inj_compare.
    destruct (Z.compare_spec ex ey); [|split; [discriminate|lia]
                                      |split; [intros _; lia|reflexivity]].
    destruct (Z.compare_spec (Zpos mx) (Zpos my)); simpl;
      try (split; [intros _; lia|reflexivity]); try (split; [discriminate|lia]).
  - change (Pos.compare_cont Eq mx my) with (Pos.compare mx my).
    rewrite Pos2Z.inj_compare.
    destruct (Z.compare_spec ex ey); [|split; [intros _; lia|reflexivity]
                                      |split; [discriminate|lia]].
    destruct (Z.compare_spec (Zpos mx) (Zpos my)); simpl;
      try (split; [intros _; lia|reflexivity]); try (split; [discriminate|lia]).
Qed.

Lemma key_le_refl (k : Z * Z * Z) : key_le k k.
Proof. destruct k as [[a b] c]. unfold key_le. lia. Qed.

Lemma key_le_trans (k1 k2 k3 : Z * Z * Z) :
  key_le k1 k2 -> key_le k2 k3 -> key_le k1 k3.
Proof.
  destruct k1 as [[a1 b1] c1], k2 as [[a2 b2] c2], k3 as [[a3 b3] c3].
  unfold key_le. lia.
Qed.

Lemma key_le_total (k1 k2 : Z * Z * Z) : key_le k1 k2 \/ key_le k2 k1.
Proof.
  destruct k1 as [[a1 b1] c1], k2 as [[a2 b2] c2]. unfold key_le. lia.
Qed.

Lemma aligned_le (m1 m2 : positive) (e1 e2 : Z) (s1 s2 : bool) :
  valid_binary FloatOps.prec FloatOps.emax (S754_finite s1 m1 e1) = true ->
  valid_binary FloatOps.prec FloatOps.emax (S754_finite s2 m2 e2) = true ->
  (e1 < e2 \/ (e1 = e2 /\ Zpos m1 <= Zpos m2))%Z ->
  (Zpos (fst (shl_align m1 e1 (Z.min e1 e2)))
   <= Zpos (fst (shl_align m2 e2 (Z.min e1 e2))))%Z.
Proof.
  intros V1 V2 H. rewrite !shl_align_value by lia.
  destruct H as [H|[-> H]].
  - rewrite Z.min_l by lia. rewrite Z.sub_diag. simpl (2 ^ 0)%Z.
    pose proof (aligned_lt m1 m2 e1 e2 s1 s2 V1 V2 H). lia.
  - rewrite Z.min_id, Z.sub_diag. simpl (2 ^ 0)%Z. lia.
Qed.

Lemma binary_normalize_sign (m e : Z) (s : bool) :
  (if s then m <= 0 else 0 <= m)%Z ->
  has_sign s (binary_normalize FloatOps.prec FloatOps.emax m e false) = true.
Proof.
  intros H. destruct m as [|p|p]; simpl; [reflexivity| |].
  - destruct s; [lia|]. unfold binary_round.
    destruct (shl_align p e _) as [mz ez]. now apply binary_round_aux_sign.
  - destruct s; [|lia]. unfold binary_round.
    destruct (shl_align p e _) as [mz ez]. now apply binary_round_aux_sign.
Qed.

(** The difference of two finite binary64 values in order is no NaN and
    has the sign of the order. *)
Lemma SFsub_nonpos (x y : spec_float) :
  valid_binary FloatOps.prec FloatOps.emax x = true ->
  valid_binary FloatOps.prec FloatOps.emax y = true ->
  SF_finite x = true -> SF_finite y = true -> SFleb x y = true ->
  has_sign true (SFsub FloatOps.prec FloatOps.emax x y) = true.
Proof.
  intros Vx Vy Fx Fy H.
  destruct x as [sx|sx| |sx mx ex], y as [sy|sy| |sy my ey]; try discriminate.
  - now destruct sx, sy.
  - destruct sy; [discriminate|reflexivity].
  - destruct sx; [reflexivity|discriminate].
  - apply SFleb_key in H; [|reflexivity..]. unfold SFsub.
    apply binary_normalize_sign.
    destruct sx, sy; simpl in H |- *; try lia.
    + pose proof (aligned_le my mx ey ex true true Vy Vx) as A.
      rewrite (Z.min_comm ey ex) in A. lia.
    + pose proof (aligned_le mx my ex ey false false Vx Vy) as A. lia.
Qed.

Lemma SFsub_nonneg (x y : spec_float) :
  valid_binary FloatOps.prec FloatOps.emax x = true ->
  valid_binary FloatOps.prec FloatOps.emax y = true ->
  SF_finite x = true -> SF_finite y = true -> SFleb y x = true ->
  has_sign false (SFsub FloatOps.prec FloatOps.emax x y) = true.
Proof.
  intros Vx Vy Fx Fy H.
  destruct x as [sx|sx| |sx mx ex], y as [sy|sy| |sy my ey]; try discriminate.
  - now destruct sx, sy.
  - destruct sy; [reflexivity|discriminate].
  - destruct sx; [discriminate|reflexivity].
  - apply SFleb_key in H; [|reflexivity..]. unfold SFsub.
    apply binary_normalize_sign.
    destruct sx, sy; simpl in H |- *; try lia.
    + pose proof (aligned_le mx my ex ey true true Vx Vy) as A. lia.
    + pose proof (aligned_le my mx ey ex false false Vy Vx) as A.
      rewrite (Z.min_comm ey ex) in A. lia.
Qed.

Lemma SFsub_diag (x : spec_float) :
  SF_finite x = true ->
  SFsub FloatOps.prec FloatOps.emax x x = S754_zero false.
Proof.
  destruct x as [s|s| |s m e]; try discriminate; intros _.
  - now destruct s.
  - unfold SFsub. now rewrite Z.sub_diag.
Qed.

(** Adding 2^52 to a positive binary64 value gives an infinity or a finite
    positive number with a non-negative exponent: an integer. *)
Lemma SFadd_two52 (my : positive) (ey : Z) :
  valid_binary FloatOps.prec FloatOps.emax (S754_finite false my ey) = true ->
  SFadd FloatOps.prec FloatOps.emax (S754_finite false my ey)
    (S754_finite false 4503599627370496 0) = S754_infinity false \/
  exists m e,
    SFadd FloatOps.prec FloatOps.emax (S754_finite false my ey)
      (S754_finite false 4503599627370496 0) = S754_finite false m e /\
    (0 <= e)%Z.
Proof.
  intros V. apply valid_binary_finite in V as (_ & He & _).
  unfold SFadd. set (ez := Z.min ey 0).
  set (X := fst (shl_align my ey ez)).
  set (Y := fst (shl_align 4503599627370496 0 ez)).
  change (cond_Zopp false (Zpos X) + cond_Zopp false (Zpos Y))%Z
    with (Zpos (X + Y)).
  assert (HY : Zpos Y = (4503599627370496 * 2 ^ (0 - ez))%Z)
    by (apply shl_align_value; lia).
  assert (Hd : (53 <= Zpos (digits2_pos (X + Y)) + ez)%Z).
  { pose proof (digits2_pos_bounds (X + Y)) as [_ U].
    assert (L : (2 ^ (52 - ez) < 2 ^ Zpos (digits2_pos (X + Y)))%Z).
    { apply Z.le_lt_trans with (2 := U).
      replace (52 - ez)%Z with (52 + (0 - ez))%Z by lia.
      rewrite Z.pow_add_r by lia.
      change (2 ^ 52)%Z with 4503599627370496%Z. lia. }
    apply Z.pow_lt_mono_r_iff in L; lia. }
  unfold binary_normalize, binary_round.
  assert (Hf : (0 <= fexp FloatOps.prec FloatOps.emax
                      (Zpos (digits2_pos (X + Y)) + ez))%Z)
    by (unfold fexp, emin, FloatOps.prec, FloatOps.emax; lia).
  assert (Hs : shl_align (X + Y) ez
                 (fexp FloatOps.prec FloatOps.emax
                    (Zpos (digits2_pos (X + Y)) + ez)) = ((X + Y)%positive, ez)).
  { unfold shl_align.
    destruct (fexp FloatOps.prec FloatOps.emax
                (Zpos (digits2_pos (X + Y)) + ez) - ez)%Z eqn:E;
      try reflexivity; lia. }
  rewrite Hs.
  destruct (binary_round_aux_pos false (Zpos (X + Y)) ez loc_Exact)
    as [E|(m & e & E & Hle)]; [lia|unfold emin, FloatOps.prec, FloatOps.emax; lia| |].
  - now left.
  - right. exists m, e. split; [exact E|]. simpl Zdigits2 in Hle. lia.
Qed.

(** *** From the specification to the primitive operations *)

Lemma SFeqb_refl (x : spec_float) : SFeqb x x = SF_number x.
Proof.
  unfold SFeqb, SFcompare. destruct x as [s|s| |s m e]; simpl; try reflexivity.
  - now destruct s.
  - rewrite Z.compare_refl.
    change (Pos.compare_cont Eq m m) with (Pos.compare m m).
    rewrite Pos.compare_refl. now destruct s.
Qed.

Lemma is_nan_Prim2SF (x : PrimFloat.float) :
  PrimFloat.is_nan x = negb (SF_number (FloatOps.Prim2SF x)).
Proof.
  unfold PrimFloat.is_nan. now rewrite FloatAxioms.eqb_spec, SFeqb_refl.
Qed.

Lemma is_finite_Prim2SF (x : PrimFloat.float) :
  PrimFloat.is_finite x = true -> SF_finite (FloatOps.Prim2SF x) = true.
Proof.
  unfold PrimFloat.is_finite, PrimFloat.is_infinity.
  rewrite is_nan_Prim2SF, FloatAxioms.eqb_spec, FloatAxioms.abs_spec.
  change (FloatOps.Prim2SF PrimFloat.infinity) with (S754_infinity false).
  destruct (FloatOps.Prim2SF x) as [s|s| |s m e]; try reflexivity;
    discriminate.
Qed.

Lemma SF_finite_number (x : spec_float) :
  SF_finite x = true -> SF_number x = true.
Proof. now destruct x. Qed.

Lemma has_sign_number (s : bool) (x : spec_float) :
  has_sign s x = true -> SF_number x = true.
Proof. now destruct x. Qed.

Lemma has_sign_opp (s : bool) (x : spec_float) :
  has_sign s x = true -> has_sign (negb s) (SFopp x) = true.
Proof. destruct x as [sx|sx| |sx m e], s; simpl; try destruct sx; auto. Qed.

(** A number of negative sign is at most [0.0]. *)
Lemma leb_zero (d : PrimFloat.float) :
  has_sign true (FloatOps.Prim2SF d) = true ->
  PrimFloat.leb d PrimFloat.zero = true.
Proof.
  rewrite FloatAxioms.leb_spec.
  change (FloatOps.Prim2SF PrimFloat.zero) with (S754_zero false).
  destruct (FloatOps.Prim2SF d) as [s|s| |s m e]; try discriminate;
    try reflexivity; now destruct s.
Qed.

Lemma leb_refl (x : PrimFloat.float) :
  PrimFloat.is_nan x = false -> PrimFloat.leb x x = true.
Proof.
  rewrite is_nan_Prim2SF, FloatAxioms.leb_spec. intros H.
  apply negb_false_iff in H. apply SFleb_key; [exact H..|]. apply key_le_refl.
Qed.

Lemma leb_trans (x y z : PrimFloat.float) :
  PrimFloat.is_nan x = false -> PrimFloat.is_nan y = false ->
  PrimFloat.is_nan z = false ->
  PrimFloat.leb x y = true -> PrimFloat.leb y z = true ->
  PrimFloat.leb x z = true.
Proof.
  rewrite !is_nan_Prim2SF, !FloatAxioms.leb_spec. intros Hx Hy Hz.
  apply negb_false_iff in Hx, Hy, Hz.
  rewrite !SFleb_key by assumption. apply key_le_trans.
Qed.

Lemma ltb_leb (x y : PrimFloat.float) :
  PrimFloat.is_nan x = false -> PrimFloat.is_nan y = false ->
  PrimFloat.ltb x y = true -> PrimFloat.leb x y = true.
Proof.
  rewrite !is_nan_Prim2SF, FloatAxioms.leb_spec, FloatAxioms.ltb_spec.
  intros Hx Hy. apply negb_false_iff in Hx, Hy.
  rewrite SFleb_key, SFltb_key by assumption.
  destruct (key_le_total (SF_key (FloatOps.Prim2SF x))
              (SF_key (FloatOps.Prim2SF y))); tauto.
Qed.

Lemma not_ltb_leb (x y : PrimFloat.float) :
  PrimFloat.is_nan x = false -> PrimFloat.is_nan y = false ->
  PrimFloat.ltb x y = false -> PrimFloat.leb y x = true.
Proof.
  rewrite !is_nan_Prim2SF, FloatAxioms.leb_spec, FloatAxioms.ltb_spec.
  intros Hx Hy. apply negb_false_iff in Hx, Hy. intros H.
  apply SFleb_key; [assumption..|].
  destruct (key_le_total (SF_key (FloatOps.Prim2SF y))
              (SF_key (FloatOps.Prim2SF x))) as [L|L]; [exact L|].
  destruct (SFltb (FloatOps.Prim2SF x) (FloatOps.Prim2SF y)) eqn:E;
    [discriminate|].
  assert (N : ~ ~ key_le (SF_key (FloatOps.Prim2SF y))
                    (SF_key (FloatOps.Prim2SF x))).
  { intros C. apply SFltb_key in C; [congruence|assumption..]. }
  destruct (SF_key (FloatOps.Prim2SF y)) as [[a1 b1] c1],
           (SF_key (FloatOps.Prim2SF x)) as [[a2 b2] c2].
  unfold key_le in *. lia.
Qed.

Lemma is_finite_not_nan (x : PrimFloat.float) :
  PrimFloat.is_finite x = true -> PrimFloat.is_nan x = false.
Proof.
  unfold PrimFloat.is_finite. intros H. apply negb_true_iff in H.
  now apply orb_false_iff in H as [H _].
Qed.

(** The difference of two finite numbers in order is at most [0.0]. *)
Lemma sub_nonpos (x y : PrimFloat.float) :
  PrimFloat.is_finite x = true -> PrimFloat.is_finite y = true ->
  PrimFloat.leb x y = true ->
  has_sign true (FloatOps.Prim2SF (PrimFloat.sub x y)) = true.
Proof.
  intros Hx Hy H. rewrite FloatAxioms.sub_spec. rewrite FloatAxioms.leb_spec in H.
  apply SFsub_nonpos; auto using FloatAxioms.Prim2SF_valid, is_finite_Prim2SF.
Qed.

Lemma sub_diag (x : PrimFloat.float) :
  PrimFloat.is_finite x = true -> PrimFloat.sub x x = PrimFloat.zero.
Proof.
  intros Hx. apply FloatAxioms.Prim2SF_inj. rewrite FloatAxioms.sub_spec.
  change (FloatOps.Prim2SF PrimFloat.zero) with (S754_zero false).
  apply SFsub_diag. now apply is_finite_Prim2SF.
Qed.

Lemma Prim2SF_two52 :
  FloatOps.Prim2SF Binary64.two52 = S754_finite false 4503599627370496 0.
Proof. vm_compute. reflexivity. Qed.

Lemma Prim2SF_ten :
  FloatOps.Prim2SF (Binary64.of_Z (pow10 1))
  = S754_finite false 5629499534213120 (-49).
Proof. vm_compute. reflexivity. Qed.

(** [rint] keeps a number at most [0.0] at most [0.0]. *)
Lemma rint_nonpos (x : PrimFloat.float) :
  has_sign true (FloatOps.Prim2SF x) = true ->
  has_sign true (FloatOps.Prim2SF (Binary64.rint x)) = true.
Proof.
  intros Hx. unfold Binary64.rint.
  destruct (PrimFloat.ltb (PrimFloat.abs x) Binary64.two52) eqn:Habs;
    [|exact Hx].
  rewrite FloatAxioms.ltb_spec, FloatAxioms.abs_spec, Prim2SF_two52 in Habs.
  destruct (PrimFloat.ltb x PrimFloat.zero) eqn:Hneg.
  - rewrite FloatAxioms.ltb_spec in Hneg.
    change (FloatOps.Prim2SF PrimFloat.zero) with (S754_zero false) in Hneg.
    rewrite FloatAxioms.opp_spec.
    apply (has_sign_opp false).
    rewrite FloatAxioms.sub_spec, Prim2SF_two52.
    pose proof (FloatAxioms.Prim2SF_valid
                  (PrimFloat.add (PrimFloat.opp x) Binary64.two52)) as Vc.
    pose proof (FloatAxioms.Prim2SF_valid (PrimFloat.opp x)) as Vo.
    rewrite FloatAxioms.add_spec, Prim2SF_two52 in Vc |- *.
    rewrite FloatAxioms.opp_spec in Vo, Vc |- *.
    destruct (FloatOps.Prim2SF x) as [[|]|[|]| |[|] m e];
      try discriminate Hx; try discriminate Hneg; try discriminate Habs.
    simpl SFopp in *.
    unfold FloatAxioms.SF64sub, FloatAxioms.SF64add in *.
    destruct (SFadd_two52 m e Vo) as [E|(mc & ec & E & Hec)];
      rewrite E in Vc |- *; [reflexivity|].
    apply SFsub_nonneg; try reflexivity; [exact Vc|].
    apply SFleb_key; [reflexivity..|]. simpl.
    apply valid_binary_finite in Vc as (_ & _ & [C|C]); [lia|].
    pose proof (digits2_pos_bounds mc) as [L _]. rewrite C in L.
    change (2 ^ (53 - 1))%Z with 4503599627370496%Z in L. lia.
  - rewrite FloatAxioms.ltb_spec in Hneg.
    change (FloatOps.Prim2SF PrimFloat.zero) with (S754_zero false) in Hneg.
    rewrite FloatAxioms.sub_spec, FloatAxioms.add_spec, Prim2SF_two52.
    destruct (FloatOps.Prim2SF x) as [s|[|]| |[|] m e];
      try discriminate Hx; try discriminate Hneg.
    unfold FloatAxioms.SF64sub, FloatAxioms.SF64add. simpl SFadd.
    now rewrite SFsub_diag.
Qed.

(** Rounding to one decimal keeps a number at most [0.0] at most [0.0]. *)
Lemma round_decimals_nonpos (x : PrimFloat.float) :
  has_sign true (FloatOps.Prim2SF x) = true ->
  PrimFloat.leb (Binary64.round_decimals 1 x) PrimFloat.zero = true.
Proof.
  intros Hx. apply leb_zero. unfold Binary64.round_decimals.
  rewrite FloatAxioms.div_spec, Prim2SF_ten. apply SFdiv_sign.
  apply rint_nonpos. rewrite FloatAxioms.mul_spec, Prim2SF_ten.
  now apply SFmul_sign.
Qed.

End Binary64Facts.

(** ** The trade-off matrix *)

Lemma Qnum_max_spec (a y : Q) :
  (num_max a y = a \/ num_max a y = y) /\ a <= num_max a y /\ y <= num_max a y.
Proof.
  unfold num_max. cbn [num_ltb num_eqb Q_Number].
  destruct (Qlt_bool a y) eqn:E.
  - apply Qlt_bool_iff in E. split; [now right|].
    split; [now apply Qlt_le_weak|apply Qle_refl].
  - rewrite Qeq_bool_refl. apply Qlt_bool_false in E. split; [now left|].
    split; [apply Qle_refl|exact E].
Qed.

Lemma fold_Qmax_spec (l : list Q) (a : Q) :
  In (fold_left num_max l a) (a :: l) /\
  forall x, In x (a :: l) -> x <= fold_left num_max l a.
Proof.
  revert a. induction l as [|y l IH]; intros a; simpl.
  - split; [now left|]. intros x [<-|[]]. apply Qle_refl.
  - destruct (IH (num_max a y)) as [Hin Hmax].
    destruct (Qnum_max_spec a y) as (Hcase & Ha & Hy). split.
    + destruct Hin as [H|H]; [|now right; right].
      rewrite <- H. destruct Hcase as [->| ->]; auto.
    + intros x [<-|[<-|Hx]].
      * apply Qle_trans with (num_max a y); [exact Ha|].
        apply Hmax. now left.
      * apply Qle_trans with (num_max a y); [exact Hy|].
        apply Hmax. now left.
      * apply Hmax. now right.
Qed.

Lemma column_max_spec (f : string) (r0 : ScoredRow Q) (rest : list (ScoredRow Q)) :
  (exists s, In s (r0 :: rest) /\ value (row s) f = column_max f r0 rest) /\
  (forall s, In s (r0 :: rest) -> value (row s) f <= column_max f r0 rest).
Proof.
  unfold column_max.
  destruct (fold_Qmax_spec (map (fun s => value (row s) f) rest)
              (value (row r0) f)) as [Hin Hmax].
  split.
  - destruct Hin as [H|H].
    + exists r0. split; [now left|exact H].
    + apply in_map_iff in H as (s & Hs & Hin). exists s. split; [now right|exact Hs].
  - intros s [<-|Hs]; apply Hmax; [now left|right].
    now apply (in_map (fun s => value (row s) f)).
Qed.

Lemma firstn_In_self {A} (k : nat) (l : list A) (a : A) :
  In a (firstn k l) -> In a l.
Proof.
  revert l. induction k as [|k IH]; intros [|x l]; simpl; try tauto.
  intros [H|H]; [now left|right; now apply IH].
Qed.

Lemma head_In {A} (n : Z) (df : list A) (a : A) : In a (head n df) -> In a df.
Proof.
  unfold head. destruct (0 <=? n)%Z; apply firstn_In_self.
Qed.

Lemma head_firstn {A} (n : Z) (df : list A) :
  (1 <= n)%Z -> head n df = firstn (Nat.min (Z.to_nat n) (length df)) df.
Proof.
  intros Hn. unfold head.
  destruct (Z.leb_spec 0 n) as [_|H]; [|lia].
  destruct (Nat.le_gt_cases (Z.to_nat n) (length df)) as [H|H].
  - now rewrite Nat.min_l.
  - rewrite Nat.min_r by lia. rewrite firstn_all. apply firstn_all2. lia.
Qed.

(** In exact arithmetic: for a non-empty scored table and [top_n >= 1] the
    matrix has one record per row of the first [min(top_n, row count)] rows;
    with [best f] the largest score of factor [f] among these rows, the delta
    of a row for [f] is its score minus [best f] rounded to one decimal;
    every delta is at most 0; and for every factor some record has delta
    0. *)
Lemma build_tradeoff_matrix_deltas_exact
  (FACTOR_NAMES : list string) (scored_df : list (ScoredRow Q)) (top_n : Z) :
  scored_df <> [] -> (1 <= top_n)%Z ->
  let subset :=
    firstn (Nat.min (Z.to_nat top_n) (length scored_df)) scored_df in
  let matrix := build_tradeoff_matrix FACTOR_NAMES scored_df top_n in
  exists best : string -> Q,
    (forall f, In f FACTOR_NAMES ->
       (exists s, In s subset /\ value (row s) f = best f) /\
       (forall s, In s subset -> value (row s) f <= best f)) /\
    matrix =
      map (fun s =>
             mkTradeoff (Country (row s)) (Weighted_Score s)
               (map (fun f =>
                       (String.append f " Δ",
                        Qround_decimals 1 (value (row s) f - best f)))
                    FACTOR_NAMES))
          subset /\
    (forall t k d, In t matrix -> In (k, d) (deltas t) -> d <= 0) /\
    (forall f, In f FACTOR_NAMES ->
       exists t, In t matrix /\ In (String.append f " Δ", 0) (deltas t)).
Proof.
  intros Hne Hn subset matrix. subst matrix. unfold build_tradeoff_matrix.
  rewrite (head_firstn top_n scored_df Hn). fold subset.
  assert (Hsub : subset <> []).
  { subst subset. destruct scored_df as [|s0 l]; [congruence|].
    replace (Nat.min (Z.to_nat top_n) (length (s0 :: l)))
      with (S (Nat.pred (Nat.min (Z.to_nat top_n) (length (s0 :: l)))))
      by (simpl length; lia).
    discriminate. }
  destruct subset as [|r0 rest]; [congruence|].
  exists (fun f => column_max f r0 rest).
  split; [intros f _; apply column_max_spec|].
  split; [reflexivity|]. split.
  - intros t k d Ht Hd.
    apply in_map_iff in Ht as (s & <- & Hs). simpl in Hd.
    apply in_map_iff in Hd as (f & Hkd & Hf). injection Hkd as _ <-.
    apply Qround_decimals_nonpos.
    pose proof (proj2 (column_max_spec f r0 rest) s Hs). lra.
  - intros f Hf.
    destruct (proj1 (column_max_spec f r0 rest)) as (s & Hs & Hbest).
    eexists. split; [apply in_map; exact Hs|]. simpl.
    apply in_map_iff. exists f. split; [|exact Hf].
    f_equal. apply Qround_decimals_zero. rewrite Hbest. ring.
Qed.

Lemma num_max_binary64_spec (a y : PrimFloat.float) :
  PrimFloat.is_nan a = false -> PrimFloat.is_nan y = false ->
  (num_max a y = a \/ num_max a y = y) /\
  PrimFloat.leb a (num_max a y) = true /\
  PrimFloat.leb y (num_max a y) = true.
Proof.
  intros Ha Hy. unfold num_max. cbn [num_ltb num_eqb binary64_Number].
  destruct (PrimFloat.ltb a y) eqn:E.
  - split; [now right|]. split; [now apply ltb_leb|now apply leb_refl].
  - assert (Haa : PrimFloat.eqb a a = true)
      by (unfold PrimFloat.is_nan in Ha; now apply negb_false_iff in Ha).
    rewrite Haa. split; [now left|].
    split; [now apply leb_refl|now apply not_ltb_leb].
Qed.

Lemma fold_max_binary64_spec (l : list PrimFloat.float) (a : PrimFloat.float) :
  (forall x, In x (a :: l) -> PrimFloat.is_nan x = false) ->
  In (fold_left num_max l a) (a :: l) /\
  forall x, In x (a :: l) -> PrimFloat.leb x (fold_left num_max l a) = true.
Proof.
  revert a. induction l as [|y l IH]; intros a Hnum; simpl.
  - split; [now left|]. intros x [<-|[]]. apply leb_refl, Hnum. now left.
  - assert (Ha : PrimFloat.is_nan a = false) by (apply Hnum; now left).
    assert (Hy : PrimFloat.is_nan y = false) by (apply Hnum; right; now left).
    destruct (num_max_binary64_spec a y Ha Hy) as (Hcase & Hla & Hly).
    assert (Hm : PrimFloat.is_nan (num_max a y) = false)
      by (destruct Hcase as [->| ->]; assumption).
    destruct (IH (num_max a y)) as [Hin Hmax].
    { intros x [<-|Hx]; [exact Hm|]. apply Hnum. now right; right. }
    assert (Hf : PrimFloat.is_nan (fold_left num_max l (num_max a y)) = false).
    { destruct Hin as [<-|Hin]; [exact Hm|]. apply Hnum. now right; right. }
    split.
    + destruct Hin as [H|H]; [|now right; right].
      rewrite <- H. destruct Hcase as [->| ->]; auto.
    + intros x [<-|[<-|Hx]].
      * apply leb_trans with (num_max a y); auto. apply Hmax. now left.
      * apply leb_trans with (num_max a y); auto. apply Hmax. now left.
      * apply Hmax. now right.
Qed.

Lemma column_max_binary64_spec (f : string)
    (r0 : ScoredRow PrimFloat.float) (rest : list (ScoredRow PrimFloat.float)) :
  (forall s, In s (r0 :: rest) -> PrimFloat.is_finite (value (row s) f) = true) ->
  (exists s, In s (r0 :: rest) /\ value (row s) f = column_max f r0 rest) /\
  (forall s, In s (r0 :: rest) ->
     PrimFloat.leb (value (row s) f) (column_max f r0 rest) = true).
Proof.
  intros Hfin. unfold column_max.
  destruct (fold_max_binary64_spec (map (fun s => value (row s) f) rest)
              (value (row r0) f)) as [Hin Hmax].
  { intros x [<-|Hx]; [apply is_finite_not_nan, Hfin; now left|].
    apply in_map_iff in Hx as (s & <- & Hs).
    apply is_finite_not_nan, Hfin. now right. }
  split.
  - destruct Hin as [H|H].
    + exists r0. split; [now left|exact H].
    + apply in_map_iff in H as (s & Hs & Hin). exists s. split; [now right|exact Hs].
  - intros s [<-|Hs]; apply Hmax; [now left|right].
    now apply (in_map (fun s => value (row s) f)).
Qed.

(** C8: for a non-empty scored table of finite binary64 scores and
    [top_n >= 1] the matrix has one record per row of the first
    [min(top_n, row count)] rows; with [best f] the largest score of factor
    [f] among these rows, the delta of a row for [f] is the binary64
    difference of its score and [best f], rounded to one decimal as
    [round] does it; every delta is at most [0.0]; and for every factor
    some record has a delta equal to [0.0]. *)
Theorem build_tradeoff_matrix_deltas
  (FACTOR_NAMES : list string) (scored_df : list (ScoredRow PrimFloat.float))
  (top_n : Z) :
  scored_df <> [] -> (1 <= top_n)%Z ->
  finite_scores FACTOR_NAMES scored_df ->
  let subset :=
    firstn (Nat.min (Z.to_nat top_n) (length scored_df)) scored_df in
  let matrix := build_tradeoff_matrix FACTOR_NAMES scored_df top_n in
  exists best : string -> PrimFloat.float,
    (forall f, In f FACTOR_NAMES ->
       (exists s, In s subset /\ value (row s) f = best f) /\
       (forall s, In s subset ->
          PrimFloat.leb (value (row s) f) (best f) = true)) /\
    matrix =
      map (fun s =>
             mkTradeoff (Country (row s)) (Weighted_Score s)
               (map (fun f =>
                       (String.append f " Δ",
                        Binary64.round_decimals 1
                          (PrimFloat.sub (value (row s) f) (best f))))
                    FACTOR_NAMES))
          subset /\
    (forall t k d, In t matrix -> In (k, d) (deltas t) ->
       PrimFloat.leb d PrimFloat.zero = true) /\
    (forall f, In f FACTOR_NAMES ->
       exists t d, In t matrix /\ In (String.append f " Δ", d) (deltas t) /\
                   PrimFloat.eqb d PrimFloat.zero = true).
Proof.
  intros Hne Hn Hfin subset matrix. subst matrix. unfold build_tradeoff_matrix.
  rewrite (head_firstn top_n scored_df Hn). fold subset.
  assert (Hsub : subset <> []).
  { subst subset. destruct scored_df as [|s0 l]; [congruence|].
    replace (Nat.min (Z.to_nat top_n) (length (s0 :: l)))
      with (S (Nat.pred (Nat.min (Z.to_nat top_n) (length (s0 :: l)))))
      by (simpl length; lia).
    discriminate. }
  assert (Hfin' : forall s f, In s subset -> In f FACTOR_NAMES ->
                    PrimFloat.is_finite (value (row s) f) = true).
  { intros s f Hs Hf. apply Hfin; [|exact Hf].
    subst subset. now apply firstn_In_self in Hs. }
  destruct subset as [|r0 rest]; [congruence|].
  assert (Hcol : forall f, In f FACTOR_NAMES ->
            (exists s, In s (r0 :: rest) /\
                       value (row s) f = column_max f r0 rest) /\
            (forall s, In s (r0 :: rest) ->
               PrimFloat.leb (value (row s) f) (column_max f r0 rest) = true)).
  { intros f Hf. apply column_max_binary64_spec. intros s Hs. now apply Hfin'. }
  exists (fun f => column_max f r0 rest).
  split; [exact Hcol|]. split; [reflexivity|]. split.
  - intros t k d Ht Hd.
    apply in_map_iff in Ht as (s & <- & Hs). simpl in Hd.
    apply in_map_iff in Hd as (f & Hkd & Hf). injection Hkd as _ <-.
    destruct (Hcol f Hf) as [(b & Hb & Hbest) Hmax].
    apply round_decimals_nonpos, sub_nonpos.
    + now apply Hfin'.
    + rewrite <- Hbest. now apply Hfin'.
    + now apply Hmax.
  - intros f Hf. destruct (Hcol f Hf) as [(s & Hs & Hbest) _].
    eexists. exists (Binary64.round_decimals 1 PrimFloat.zero).
    split; [apply in_map; exact Hs|]. split; [|vm_compute; reflexivity].
    simpl. apply in_map_iff. exists f. split; [|exact Hf].
    f_equal. f_equal. cbn [num_round num_sub binary64_Number binary64_Measure].
    rewrite <- Hbest. now rewrite sub_diag by now apply Hfin'.
Qed.

(** ** The dominant strategy *)

Lemma argmax_from_spec (s : list Q) :
  forall (pre : list Q) (best_i : nat) (best : Q),
    nth_error pre best_i = Some best ->
    (forall y, In y pre -> y <= best) ->
    (forall j y, (j < best_i)%nat -> nth_error pre j = Some y -> y < best) ->
    exists m,
      nth_error (pre ++ s) (argmax_from best_i best (length pre) s) = Some m /\
      (forall y, In y (pre ++ s) -> y <= m) /\
      (forall j y, (j < argmax_from best_i best (length pre) s)%nat ->
                   nth_error (pre ++ s) j = Some y -> y < m).
Proof.
  induction s as [|x s IH]; intros pre best_i best Hb Hmax Hfirst; simpl.
  - rewrite app_nil_r. exists best. auto.
  - assert (Hlt : (best_i < length pre)%nat).
    { apply nth_error_Some. congruence. }
    replace (pre ++ x :: s) with ((pre ++ [x]) ++ s)
      by (rewrite <- app_assoc; reflexivity).
    replace (S (length pre)) with (length (pre ++ [x]))
      by (rewrite length_app; simpl; lia).
    destruct (Qlt_bool best x) eqn:E.
    + apply Qlt_bool_iff in E. apply IH.
      * rewrite nth_error_app2, Nat.sub_diag; [reflexivity|lia].
      * intros y Hy. apply in_app_or in Hy as [Hy|[<-|[]]].
        -- apply Qlt_le_weak, Qle_lt_trans with best; auto.
        -- apply Qle_refl.
      * intros j y Hj Hy. rewrite nth_error_app1 in Hy by exact Hj.
        apply Qle_lt_trans with best; [|exact E].
        apply Hmax. eapply nth_error_In; eauto.
    + apply Qlt_bool_false in E. apply IH.
      * rewrite nth_error_app1; [exact Hb|exact Hlt].
      * intros y Hy. apply in_app_or in Hy as [Hy|[<-|[]]]; auto.
      * intros j y Hj Hy. rewrite nth_error_app1 in Hy by lia. eauto.
Qed.

Lemma idxmax_spec (s : list Q) :
  s <> [] ->
  exists k m,
    idxmax s = inr k /\ nth_error s k = Some m /\
    (forall y, In y s -> y <= m) /\
    (forall j y, (j < k)%nat -> nth_error s j = Some y -> y < m).
Proof.
  destruct s as [|x s]; [congruence|]. intros _.
  destruct (argmax_from_spec s [x] 0%nat x) as (m & Hm & Hmax & Hfirst).
  - reflexivity.
  - intros y [<-|[]]. apply Qle_refl.
  - intros j y Hj. lia.
  - exists (argmax_from 0 x 1 s), m. auto.
Qed.

Lemma Forall2_pick_l {A B} (R : A -> B -> Prop) (l : list A) (l' : list B) (a : A) :
  Forall2 R l l' -> In a l -> exists b, In b l' /\ R a b.
Proof.
  induction 1 as [|x y l l' Hxy Hl IH]; intros Ha; [destruct Ha|].
  destruct Ha as [<-|Ha].
  - exists y. split; [now left|exact Hxy].
  - destruct (IH Ha) as (b & Hb & Hab). exists b. split; [now right|exact Hab].
Qed.

Lemma Forall2_pick_r {A B} (R : A -> B -> Prop) (l : list A) (l' : list B) (b : B) :
  Forall2 R l l' -> In b l' -> exists a, In a l /\ R a b.
Proof.
  induction 1 as [|x y l l' Hxy Hl IH]; intros Hb; [destruct Hb|].
  destruct Hb as [<-|Hb].
  - exists x. split; [now left|exact Hxy].
  - destruct (IH Hb) as (a & Ha & Hab). exists a. split; [now right|exact Hab].
Qed.

(** On a non-empty table every factor has its pick, a first maximizer. *)
Lemma best_per_factor_spec (FACTOR_NAMES : list string) (df : list (Row Q)) :
  df <> [] ->
  exists best,
    mapM (fun f =>
            let* i := idxmax (map (fun r => value r f) df) in
            ret (f, nth i (map Country df) ""))
         FACTOR_NAMES = inr best /\
    Forall2 (fun f fc => fst fc = f /\
                         exists r, first_maximizer f df r /\
                                   snd fc = Country r)
            FACTOR_NAMES best.
Proof.
  intros Hne. induction FACTOR_NAMES as [|f fs IH]; simpl.
  - exists []. split; [reflexivity|constructor].
  - destruct IH as (best & -> & Hbest).
    destruct (idxmax_spec (map (fun r => value r f) df))
      as (k & m & -> & Hk & Hmax & Hfirst).
    { intros E. apply map_eq_nil in E. contradiction. }
    simpl. eexists. split; [reflexivity|].
    constructor; [|exact Hbest]. simpl. split; [reflexivity|].
    rewrite nth_error_map in Hk.
    destruct (nth_error df k) as [r|] eqn:Er; [|discriminate].
    injection Hk as <-.
    exists r. split.
    + exists k. split; [exact Er|]. split.
      * intros r' Hr'. apply Hmax.
        now apply (in_map (fun r0 => value r0 f)).
      * intros j r' Hj Ej. apply (Hfirst j); [exact Hj|].
        now rewrite nth_error_map, Ej.
    + apply nth_error_nth. now rewrite nth_error_map, Er.
Qed.

(** C9: on a table without rows no entity is the maximizer of any factor,
    and the docstring promises [None] when no country leads in all factors;
    the function does not return: [idxmax] raises [ValueError] on the first
    (empty) column. *)
Lemma find_dominant_strategy_empty_raises :
  (~ exists r : Row Q,
       In r [] /\
       forall f, In f data.FACTOR_NAMES ->
                 forall r', In r' [] -> value r' f <= value r f) /\
  find_dominant_strategy data.FACTOR_NAMES [] = inl ValueError /\
  find_dominant_strategy data.FACTOR_NAMES [] <> inr None.
Proof.
  split; [intros (r & [] & _)|]. split; [reflexivity|discriminate].
Qed.


(** ** The theorems at concrete tables *)

Lemma find_pareto_optimal_exact_witness :
  NoDup (map Country triple) /\
  let pareto := find_pareto_optimal two_factors triple in
  (forall c, In c pareto -> exists r, In r triple /\ Country r = c) /\
  (forall r, In r triple -> In (Country r) pareto ->
     forall r', In r' triple -> ~ dominates two_factors r' r) /\
  (forall r, In r triple -> ~ In (Country r) pareto ->
     exists r', In r' triple /\ Country r' <> Country r /\
                dominates two_factors r' r) /\
  (forall r1 r2, In r1 triple -> In r2 triple ->
     same_scores two_factors r1 r2 ->
     ~ dominates two_factors r1 r2 /\ ~ dominates two_factors r2 r1 /\
     (In (Country r1) pareto <-> In (Country r2) pareto) /\
     ((forall r', In r' triple -> ~ dominates two_factors r' r1) ->
      In (Country r1) pareto /\ In (Country r2) pareto)).
Proof.
  assert (H : NoDup (map Country triple)).
  { repeat (apply NoDup_cons; [simpl; intuition discriminate|]).
    apply NoDup_nil. }
  split; [exact H|].
  apply (find_pareto_optimal_exact two_factors triple H).
Defined.

Lemma find_pareto_optimal_nonempty_witness :
  triple <> [] /\ find_pareto_optimal two_factors triple <> [].
Proof.
  assert (H : triple <> []) by discriminate.
  split; [exact H|].
  apply (find_pareto_optimal_nonempty two_factors triple H).
Defined.


Lemma find_nash_equilibrium_most_balanced_witness :
  triple <> [] /\
  exists i r,
    nth_error triple i = Some r /\
    find_nash_equilibrium two_factors triple = inr (Country r) /\
    (forall r', In r' triple ->
       (surd_value (Factor_Std two_factors r)
        <= surd_value (Factor_Std two_factors r'))%R) /\
    (forall r', In r' triple ->
       surd_value (Factor_Std two_factors r')
       = surd_value (Factor_Std two_factors r) ->
       Factor_Mean two_factors r' <= Factor_Mean two_factors r) /\
    (forall j r', nth_error triple j = Some r' ->
       surd_value (Factor_Std two_factors r')
       = surd_value (Factor_Std two_factors r) ->
       Factor_Mean two_factors r' == Factor_Mean two_factors r ->
       (i <= j)%nat).
Proof.
  assert (H : triple <> []) by discriminate.
  split; [exact H|].
  apply (find_nash_equilibrium_most_balanced two_factors triple H).
Defined.

Lemma find_nash_equilibrium_total_witness :
  (exists r, In r triple /\
             find_nash_equilibrium two_factors triple = inr (Country r)) /\
  find_nash_equilibrium two_factors [] = inl IndexError.
Proof.
  split.
  - apply (proj1 (find_nash_equilibrium_total two_factors triple)).
    discriminate.
  - apply (proj2 (find_nash_equilibrium_total two_factors [])).
    reflexivity.
Defined.

Lemma build_tradeoff_matrix_deltas_witness :
  near_ties <> [] /\ (1 <= 10)%Z /\
  finite_scores data.FACTOR_NAMES near_ties /\
  map deltas (build_tradeoff_matrix data.FACTOR_NAMES near_ties 10) =
    [ [ ("Freedom & Personal Choice Δ", b64 0 1);
        ("Income & Career Growth Δ", b64 0 1);
        ("Education Quality & Access Δ", b64 0 1);
        ("Cost of Living & Affordability Δ", b64 0 1) ];
      [ ("Freedom & Personal Choice Δ", b64 (- 2) 10);
        ("Income & Career Growth Δ", b64 (- 1) 10);
        ("Education Quality & Access Δ", b64 (- 10) 1);
        ("Cost of Living & Affordability Δ", b64 0 1) ] ] /\
  let subset := firstn (Nat.min (Z.to_nat 10) (length near_ties)) near_ties in
  let matrix := build_tradeoff_matrix data.FACTOR_NAMES near_ties 10 in
  exists best : string -> PrimFloat.float,
    (forall f, In f data.FACTOR_NAMES ->
       (exists s, In s subset /\ value (row s) f = best f) /\
       (forall s, In s subset ->
          PrimFloat.leb (value (row s) f) (best f) = true)) /\
    matrix =
      map (fun s =>
             mkTradeoff (Country (row s)) (Weighted_Score s)
               (map (fun f =>
                       (String.append f " Δ",
                        Binary64.round_decimals 1
                          (PrimFloat.sub (value (row s) f) (best f))))
                    data.FACTOR_NAMES))
          subset /\
    (forall t k d, In t matrix -> In (k, d) (deltas t) ->
       PrimFloat.leb d PrimFloat.zero = true) /\
    (forall f, In f data.FACTOR_NAMES ->
       exists t d, In t matrix /\ In (String.append f " Δ", d) (deltas t) /\
                   PrimFloat.eqb d PrimFloat.zero = true).
Proof.
  assert (H : near_ties <> []) by (unfold near_ties; discriminate).
  assert (Hn : (1 <= 10)%Z) by lia.
  assert (Hf : finite_scores data.FACTOR_NAMES near_ties).
  { intros s f Hs Hf. unfold near_ties in Hs.
    destruct Hs as [<-|[<-|[]]];
      destruct Hf as [<-|[<-|[<-|[<-|[]]]]]; vm_compute; reflexivity. }
  split; [exact H|]. split; [exact Hn|]. split; [exact Hf|].
  split; [vm_compute; reflexivity|].
  apply (build_tradeoff_matrix_deltas data.FACTOR_NAMES near_ties 10 H Hn Hf).
Defined.

(** * Further properties *)

(** ** Rounding *)

Lemma Qrint_bounds (x : Q) :
  (Qfloor x <= Qrint x <= Qfloor x + 1)%Z.
Proof.
  unfold Qrint.
  destruct (Qcompare _ _); [destruct (Z.even _)| |]; lia.
Qed.

Lemma Qrint_monotone (x y : Q) : x <= y -> (Qrint x <= Qrint y)%Z.
Proof.
  intros Hxy.
  pose proof (Qfloor_resp_le x y Hxy) as Hfl.
  destruct (Z.eq_dec (Qfloor x) (Qfloor y)) as [E|E].
  - unfold Qrint. rewrite E.
    destruct (Qcompare_spec (x - inject_Z (Qfloor y)) (1 # 2)) as [Hx|Hx|Hx];
      destruct (Qcompare_spec (y - inject_Z (Qfloor y)) (1 # 2)) as [Hy|Hy|Hy];
      try destruct (Z.even (Qfloor y)); try lia; exfalso; lra.
  - pose proof (Qrint_bounds x). pose proof (Qrint_bounds y). lia.
Qed.

Lemma Qrint_inject_Z (z : Z) : Qrint (inject_Z z) = z.
Proof.
  unfold Qrint. rewrite Qfloor_Z.
  destruct (Qcompare_spec (inject_Z z - inject_Z z) (1 # 2)) as [H|H|H];
    try reflexivity; exfalso; lra.
Qed.

(** [rint] lands within one half of its argument. *)
Lemma Qrint_near (x : Q) :
  x - (1 # 2) <= inject_Z (Qrint x) /\ inject_Z (Qrint x) <= x + (1 # 2).
Proof.
  unfold Qrint.
  pose proof (Qfloor_le x) as Hlo. pose proof (Qlt_floor x) as Hhi.
  rewrite inject_Z_plus in Hhi. change (inject_Z 1) with 1 in Hhi.
  destruct (Qcompare_spec (x - inject_Z (Qfloor x)) (1 # 2)) as [H|H|H].
  - destruct (Z.even (Qfloor x)).
    + split; lra.
    + rewrite inject_Z_plus. change (inject_Z 1) with 1. split; lra.
  - split; lra.
  - rewrite inject_Z_plus. change (inject_Z 1) with 1. split; lra.
Qed.

Lemma Qround_decimals_monotone (decimals : nat) (x y : Q) :
  x <= y -> Qround_decimals decimals x <= Qround_decimals decimals y.
Proof.
  intros Hxy. unfold Qround_decimals. rewrite !Qred_correct.
  pose proof (pow10_pos decimals) as Hp.
  apply Qmult_le_compat_r.
  - rewrite <- Zle_Qle. apply Qrint_monotone.
    apply Qmult_le_compat_r; [exact Hxy|now apply Qlt_le_weak].
  - apply Qlt_le_weak. now apply Qinv_lt_0_compat.
Qed.

(** Integers are not moved by rounding. *)
Lemma Qround_decimals_inject_Z (decimals : nat) (z : Z) :
  Qround_decimals decimals (inject_Z z) == inject_Z z.
Proof.
  unfold Qround_decimals. rewrite Qred_correct.
  pose proof (pow10_pos decimals) as Hp.
  rewrite <- inject_Z_mult, Qrint_inject_Z, inject_Z_mult.
  field. intros E. rewrite E in Hp. discriminate.
Qed.

Lemma Qround_decimals_between (decimals : nat) (lo hi : Z) (x : Q) :
  inject_Z lo <= x <= inject_Z hi ->
  inject_Z lo <= Qround_decimals decimals x <= inject_Z hi.
Proof.
  intros [Hlo Hhi]. split.
  - rewrite <- (Qround_decimals_inject_Z decimals lo).
    now apply Qround_decimals_monotone.
  - rewrite <- (Qround_decimals_inject_Z decimals hi).
    now apply Qround_decimals_monotone.
Qed.

(** Rounding to [decimals] places moves a number by at most half a unit of
    the last place. *)
Lemma Qround_decimals_near (decimals : nat) (x : Q) :
  x - (1 # 2) / inject_Z (pow10 decimals) <= Qround_decimals decimals x /\
  Qround_decimals decimals x <= x + (1 # 2) / inject_Z (pow10 decimals).
Proof.
  unfold Qround_decimals. rewrite Qred_correct.
  pose proof (pow10_pos decimals) as Hp.
  destruct (Qrint_near (x * inject_Z (pow10 decimals))) as [Hlo Hhi].
  set (p := inject_Z (pow10 decimals)) in *.
  set (n := inject_Z (Qrint (x * p))) in *.
  assert (Hp' : ~ p == 0) by (intros E; rewrite E in Hp; discriminate).
  split.
  - apply Qle_shift_div_l; [exact Hp|].
    assert (E : (x - (1 # 2) / p) * p == x * p - (1 # 2)) by (field; exact Hp').
    rewrite E. exact Hlo.
  - apply Qle_shift_div_r; [exact Hp|].
    assert (E : (x + (1 # 2) / p) * p == x * p + (1 # 2)) by (field; exact Hp').
    rewrite E. exact Hhi.
Qed.

(** ** More on the weighted utility *)

Lemma Qsum_from (l : list Q) (a : Q) : fold_left Qplus l a == a + Qsum l.
Proof.
  unfold Qsum. revert a. induction l as [|x l IH]; intros a; simpl.
  - ring.
  - rewrite (IH (a + x)), (IH (0 + x)). ring.
Qed.

Lemma Qsum_cons (x : Q) (l : list Q) : Qsum (x :: l) == x + Qsum l.
Proof. unfold Qsum at 1. simpl. rewrite Qsum_from. ring. Qed.

Lemma Qsum_nonneg (l : list Q) : (forall x, In x l -> 0 <= x) -> 0 <= Qsum l.
Proof.
  induction l as [|x l IH]; intros H; [apply Qle_refl|].
  rewrite Qsum_cons.
  assert (0 <= x) by (apply H; now left).
  assert (0 <= Qsum l) by (apply IH; intros y Hy; apply H; now right).
  lra.
Qed.

Lemma Qsum_le (f g : string -> Q) (l : list string) :
  (forall x, In x l -> f x <= g x) -> Qsum (map f l) <= Qsum (map g l).
Proof.
  induction l as [|x l IH]; intros H; simpl; [apply Qle_refl|].
  rewrite !Qsum_cons.
  assert (f x <= g x) by (apply H; now left).
  assert (Qsum (map f l) <= Qsum (map g l))
    by (apply IH; intros y Hy; apply H; now right).
  lra.
Qed.

Lemma Qsum_scale (c : Q) (g : string -> Q) (l : list string) :
  Qsum (map (fun x => c * g x) l) == c * Qsum (map g l).
Proof.
  induction l as [|x l IH]; simpl; [unfold Qsum; simpl; ring|].
  rewrite !Qsum_cons, IH. ring.
Qed.

Lemma Qsum_ext (f g : string -> Q) (l : list string) :
  (forall x, In x l -> f x == g x) -> Qsum (map f l) == Qsum (map g l).
Proof.
  intros H. apply Qle_antisym; apply Qsum_le; intros x Hx;
    rewrite (H x Hx); apply Qle_refl.
Qed.

Lemma combine_map_r {A B} (g : A -> B) (l : list A) :
  combine l (map g l) = map (fun a => (a, g a)) l.
Proof. induction l as [|a l IH]; simpl; [reflexivity|now rewrite IH]. Qed.

Section ScoredTable.

Variable FACTOR_NAMES : list string.

(** The scored table is the sorted list of the input rows, each with its
    rounded score and the rank of that score. *)
Lemma scored_of_rows (df : list (Row Q)) (w : dict Q) :
  exists (score : Row Q -> Q) (rank : Q -> Z),
    (forall r,
       score r = Qround_decimals 2
                   (row_score FACTOR_NAMES
                      (map (fun kv => (fst kv, snd kv / py_sum (values w))) w)
                      r)) /\
    scored_of FACTOR_NAMES df w
    = sort_values_desc Weighted_Score
        (map (fun r => mkScored r (score r) (rank (score r))) df).
Proof.
  unfold scored_of.
  set (wn := map _ w).
  set (g := fun r => Qround_decimals 2 (row_score FACTOR_NAMES wn r)).
  set (score := map g df).
  exists g.
  exists (fun x =>
            astype_int
              (inject_Z (Z.of_nat (count_if (fun y => Qlt_bool x y) score))
               + (inject_Z (Z.of_nat (count_if (fun y => Qeq_bool x y) score))
                  + 1) / 2)).
  split; [reflexivity|].
  unfold rank_desc. rewrite map_map, combine_rank.
  subst score. rewrite combine_map_r, !map_map. simpl. reflexivity.
Qed.

Lemma weight_of_normalized (w : dict Q) (t : Q) (f : string) :
  weight_of (map (fun kv => (fst kv, snd kv / t)) w) f == weight_of w f / t.
Proof.
  unfold weight_of. induction w as [|[k v] w IH]; simpl.
  - unfold Qdiv. ring.
  - destruct (String.eqb k f); [reflexivity|exact IH].
Qed.

Lemma row_score_Qsum (w : dict Q) (r : Row Q) :
  row_score FACTOR_NAMES w r
  == Qsum (map (fun f => value r f * weight_of w f) FACTOR_NAMES).
Proof.
  unfold row_score.
  assert (H : forall l a,
            fold_left (fun acc f => acc + value r f * weight_of w f) l a
            == a + Qsum (map (fun f => value r f * weight_of w f) l)).
  { induction l as [|f l IH]; intros a; simpl.
    - unfold Qsum. simpl. ring.
    - rewrite IH, Qsum_cons. ring. }
  rewrite H. ring.
Qed.

Lemma row_score_weighted_mean (w : dict Q) (r : Row Q) :
  row_score FACTOR_NAMES
    (map (fun kv => (fst kv, snd kv / py_sum (values w))) w) r
  == weighted_mean FACTOR_NAMES w r.
Proof.
  rewrite row_score_Qsum. unfold weighted_mean.
  set (t := py_sum (values w)).
  rewrite (Qsum_ext _ (fun f => / t * (value r f * weight_of w f))).
  - rewrite Qsum_scale. unfold Qdiv. ring.
  - intros f _. rewrite weight_of_normalized. unfold Qdiv. ring.
Qed.

End ScoredTable.

Lemma count_if_le {A} (p q : A -> bool) (l : list A) :
  (forall a, p a = true -> q a = true) -> (count_if p l <= count_if q l)%nat.
Proof.
  intros H. unfold count_if. induction l as [|a l IH]; simpl; [lia|].
  destruct (p a) eqn:E.
  - rewrite (H a E). simpl. lia.
  - destruct (q a); simpl; lia.
Qed.

Lemma count_if_disjoint {A} (p q : A -> bool) (l : list A) :
  (forall a, p a = true -> q a = false) ->
  (count_if p l + count_if q l = count_if (fun a => p a || q a) l)%nat.
Proof.
  intros H. unfold count_if. induction l as [|a l IH]; simpl; [lia|].
  destruct (p a) eqn:E.
  - rewrite (H a E). simpl. lia.
  - destruct (q a); simpl; lia.
Qed.

Lemma count_if_le_length {A} (p : A -> bool) (l : list A) :
  (count_if p l <= length l)%nat.
Proof. unfold count_if. apply filter_length_le. Qed.

Lemma half_up_bounds (e : Z) : (1 <= e)%Z -> (1 <= (e + 1) / 2 <= e)%Z.
Proof.
  intros He. split.
  - apply Z.div_le_lower_bound; lia.
  - apply Z.div_le_upper_bound; lia.
Qed.

(** X1: a scored table holds exactly the rows of the input table, each
    once, in non-increasing order of ["Weighted Score"]. *)
Theorem compute_weighted_utility_sorted_permutation
  (FACTOR_NAMES : list string) (DEFAULT_WEIGHTS : dict Q)
  (factor_df : list (Row Q)) (weights : option (dict Q))
  (scored : list (ScoredRow Q)) :
  compute_weighted_utility FACTOR_NAMES DEFAULT_WEIGHTS factor_df weights
    = inr scored ->
  Permutation (map row scored) factor_df /\
  length scored = length factor_df /\
  StronglySorted (fun a b => Weighted_Score b <= Weighted_Score a) scored.
Proof.
  intros H. apply compute_weighted_utility_inr in H as [w ->].
  destruct (scored_of_rows FACTOR_NAMES factor_df w)
    as (score & rank & _ & ->).
  assert (Hperm : Permutation
                    (map row (sort_values_desc Weighted_Score
                       (map (fun r => mkScored r (score r) (rank (score r)))
                            factor_df)))
                    factor_df).
  { unfold sort_values_desc. rewrite <- sort_by_Permutation.
    rewrite map_map. simpl. now rewrite map_id. }
  split; [exact Hperm|]. split.
  - rewrite <- (length_map row). now apply Permutation_length.
  - apply sort_values_desc_sorted.
Qed.

Lemma compute_weighted_utility_sorted_permutation_witness :
  exists scored,
    compute_weighted_utility two_factors equal_weights triple
      (Some skewed_weights) = inr scored /\
    Permutation (map row scored) triple /\
    length scored = length triple /\
    StronglySorted (fun a b => Weighted_Score b <= Weighted_Score a) scored.
Proof.
  exists (scored_of two_factors triple skewed_weights).
  assert (H : compute_weighted_utility two_factors equal_weights triple
                (Some skewed_weights)
              = inr (scored_of two_factors triple skewed_weights))
    by (vm_compute; reflexivity).
  split; [exact H|].
  apply (compute_weighted_utility_sorted_permutation two_factors
           equal_weights triple (Some skewed_weights) _ H).
Defined.

(** X2: in a scored table a strictly higher score has a strictly smaller
    rank, and every rank lies between 1 and the number of rows. *)
Theorem compute_weighted_utility_rank_monotone
  (FACTOR_NAMES : list string) (DEFAULT_WEIGHTS : dict Q)
  (factor_df : list (Row Q)) (weights : option (dict Q))
  (scored : list (ScoredRow Q)) :
  compute_weighted_utility FACTOR_NAMES DEFAULT_WEIGHTS factor_df weights
    = inr scored ->
  forall s, In s scored ->
    (1 <= Rank s <= Z.of_nat (length scored))%Z /\
    (forall s', In s' scored ->
       Weighted_Score s' < Weighted_Score s -> (Rank s < Rank s')%Z).
Proof.
  intros H. apply compute_weighted_utility_inr in H as [w ->].
  set (scored := scored_of FACTOR_NAMES factor_df w).
  assert (Hrank : forall s, In s scored ->
            Rank s = (Z.of_nat (larger_scores scored s)
                      + (Z.of_nat (equal_scores scored s) + 1) / 2)%Z)
    by (intros s Hs; apply (scored_of_rank FACTOR_NAMES factor_df w s Hs)).
  assert (Hself : forall s, In s scored -> (1 <= equal_scores scored s)%nat).
  { intros s Hs. apply (count_if_pos _ _ s Hs). apply Qeq_bool_iff.
    reflexivity. }
  assert (Hsum : forall s,
            (larger_scores scored s + equal_scores scored s
             <= length scored)%nat).
  { intros s. unfold larger_scores, equal_scores.
    rewrite count_if_disjoint.
    - apply count_if_le_length.
    - intros a Ha. apply Qlt_bool_iff in Ha. apply Qeq_bool_false.
      intros E. rewrite E in Ha. now apply Qlt_irrefl in Ha. }
  intros s Hs.
  pose proof (Hself s Hs) as He. pose proof (Hsum s) as Hn.
  pose proof (half_up_bounds (Z.of_nat (equal_scores scored s))
                ltac:(lia)) as Hh.
  rewrite (Hrank s Hs). split; [lia|].
  intros s' Hs' Hlt. rewrite (Hrank s' Hs').
  pose proof (Hself s' Hs') as He'.
  pose proof (half_up_bounds (Z.of_nat (equal_scores scored s'))
                ltac:(lia)) as Hh'.
  assert (Hcount : (larger_scores scored s + equal_scores scored s
                    <= larger_scores scored s')%nat).
  { unfold larger_scores, equal_scores. rewrite count_if_disjoint.
    - apply count_if_le. intros a Ha.
      apply Qlt_bool_iff. apply orb_true_iff in Ha as [Ha|Ha].
      + apply Qlt_bool_iff in Ha. now apply Qlt_trans with (Weighted_Score s).
      + apply Qeq_bool_iff in Ha. now rewrite <- Ha.
    - intros a Ha. apply Qlt_bool_iff in Ha. apply Qeq_bool_false.
      intros E. rewrite E in Ha. now apply Qlt_irrefl in Ha. }
  lia.
Qed.

Lemma compute_weighted_utility_rank_monotone_witness :
  exists scored,
    compute_weighted_utility two_factors equal_weights triple
      (Some skewed_weights) = inr scored /\
    forall s, In s scored ->
      (1 <= Rank s <= Z.of_nat (length scored))%Z /\
      (forall s', In s' scored ->
         Weighted_Score s' < Weighted_Score s -> (Rank s < Rank s')%Z).
Proof.
  exists (scored_of two_factors triple skewed_weights).
  assert (H : compute_weighted_utility two_factors equal_weights triple
                (Some skewed_weights)
              = inr (scored_of two_factors triple skewed_weights))
    by (vm_compute; reflexivity).
  split; [exact H|].
  apply (compute_weighted_utility_rank_monotone two_factors
           equal_weights triple (Some skewed_weights) _ H).
Defined.

Section ScoreValues.

Variable FACTOR_NAMES : list string.

(** A successful call returns the scored table of the dictionary in use. *)
Lemma compute_weighted_utility_inr_dict
  (DEFAULT_WEIGHTS : dict Q) (df : list (Row Q)) (weights : option (dict Q))
  (scored : list (ScoredRow Q)) :
  compute_weighted_utility FACTOR_NAMES DEFAULT_WEIGHTS df weights = inr scored ->
  scored = scored_of FACTOR_NAMES df
             (match weights with None => DEFAULT_WEIGHTS | Some ws => ws end).
Proof.
  unfold compute_weighted_utility.
  set (w := match weights with None => DEFAULT_WEIGHTS | Some ws => ws end).
  clearbody w. intros H.
  assert (Hn : normalize w
               = inr (map (fun kv => (fst kv, snd kv / py_sum (values w))) w)).
  { destruct w as [|kv w'] eqn:E; [reflexivity|]. rewrite <- E in *.
    destruct (Qeq_dec (py_sum (values w)) 0) as [Hz|Hz].
    - rewrite normalize_zero in H; [discriminate| |exact Hz].
      rewrite E. discriminate.
    - now apply normalize_ok. }
  rewrite Hn in H. simpl bind in H.
  set (wn := map _ w) in *.
  destruct (Forall_Exists_dec (fun f => In f (keys wn))
              (fun f => in_dec String.string_dec f (keys wn)) FACTOR_NAMES)
    as [Hall|Hex].
  - rewrite Forall_forall in Hall.
    rewrite (weighted_column_rowwise FACTOR_NAMES _ _ Hall) in H.
    simpl bind in H. injection H as <-.
    unfold scored_of. fold wn. now rewrite map_map.
  - apply Exists_exists in Hex.
    rewrite (weighted_column_KeyError FACTOR_NAMES _ _ Hex) in H.
    discriminate.
Qed.

Lemma scored_of_In (df : list (Row Q)) (w : dict Q) (s : ScoredRow Q) :
  In s (scored_of FACTOR_NAMES df w) ->
  In (row s) df /\
  Weighted_Score s
  = Qround_decimals 2
      (row_score FACTOR_NAMES
         (map (fun kv => (fst kv, snd kv / py_sum (values w))) w) (row s)).
Proof.
  destruct (scored_of_rows FACTOR_NAMES df w) as (score & rank & Hscore & ->).
  intros Hs. apply sort_by_In, in_map_iff in Hs as (r & <- & Hr). simpl.
  split; [exact Hr|apply Hscore].
Qed.

Lemma weight_of_nonneg (w : dict Q) (f : string) :
  (forall k v, In (k, v) w -> 0 <= v) -> 0 <= weight_of w f.
Proof.
  intros H. unfold weight_of. induction w as [|[k v] w IH]; simpl.
  - apply Qle_refl.
  - destruct (String.eqb k f).
    + apply (H k v). now left.
    + apply IH. intros k' v' Hin. apply (H k' v'). now right.
Qed.

Lemma weight_of_cons (k : string) (v : Q) (w : dict Q) (f : string) :
  weight_of ((k, v) :: w) f = if String.eqb k f then v else weight_of w f.
Proof. unfold weight_of. simpl. now destruct (String.eqb k f). Qed.

(** The weights of distinct names add up to no more than the total of the
    dictionary, when no weight is negative. *)
Lemma weight_sum_step (k : string) (v : Q) (w : dict Q) (fs : list string) :
  NoDup fs -> 0 <= v ->
  Qsum (map (weight_of ((k, v) :: w)) fs)
  <= v + Qsum (map (weight_of w) (remove String.string_dec k fs)).
Proof.
  intros Hnd Hv. induction Hnd as [|f fs Hf Hnd IH]; simpl.
  - unfold Qsum. simpl. lra.
  - rewrite Qsum_cons, weight_of_cons.
    destruct (String.string_dec k f) as [->|Hne].
    + rewrite String.eqb_refl, notin_remove by exact Hf.
      assert (E : Qsum (map (weight_of ((f, v) :: w)) fs)
                  == Qsum (map (weight_of w) fs)).
      { apply Qsum_ext. intros g Hg. rewrite weight_of_cons.
        destruct (String.eqb_spec f g) as [->|_]; [contradiction|reflexivity]. }
      rewrite E. lra.
    + apply String.eqb_neq in Hne as Hne'. rewrite Hne'.
      simpl. rewrite Qsum_cons. lra.
Qed.

Lemma NoDup_remove_name (k : string) (fs : list string) :
  NoDup fs -> NoDup (remove String.string_dec k fs).
Proof.
  induction 1 as [|f fs Hf Hnd IH]; simpl; [constructor|].
  destruct (String.string_dec k f); [exact IH|].
  constructor; [|exact IH].
  intros Hin. apply in_remove in Hin as [Hin _]. contradiction.
Qed.

Lemma weight_sum_le (w : dict Q) (fs : list string) :
  NoDup fs -> (forall k v, In (k, v) w -> 0 <= v) ->
  Qsum (map (weight_of w) fs) <= Qsum (values w).
Proof.
  revert fs. induction w as [|[k v] w IH]; intros fs Hnd Hw.
  - apply Qle_trans with (Qsum (map (fun _ => 0) fs)).
    + apply Qsum_le. intros f _. apply Qle_refl.
    + rewrite (Qsum_scale 0 (fun _ => 0) fs). unfold values. simpl.
      unfold Qsum at 2. simpl. lra.
  - assert (Hv : 0 <= v) by (apply (Hw k v); now left).
    apply Qle_trans with
      (v + Qsum (map (weight_of w) (remove String.string_dec k fs))).
    + now apply weight_sum_step.
    + unfold values. simpl. rewrite Qsum_cons.
      assert (Qsum (map (weight_of w) (remove String.string_dec k fs))
              <= Qsum (values w)).
      { apply IH.
        - now apply NoDup_remove_name.
        - intros k' v' Hin. apply (Hw k' v'). now right. }
      unfold values in *. lra.
Qed.

End ScoreValues.

(** X3: every score of a scored table belongs to a row of the input table
    and lies within half a hundredth of that row's weighted mean
    [sum(value * weight) / sum(weights)]. *)
Theorem compute_weighted_utility_score_accuracy
  (FACTOR_NAMES : list string) (DEFAULT_WEIGHTS : dict Q)
  (factor_df : list (Row Q)) (w : dict Q) (scored : list (ScoredRow Q)) :
  compute_weighted_utility FACTOR_NAMES DEFAULT_WEIGHTS factor_df (Some w)
  = inr scored ->
  forall s, In s scored ->
    In (row s) factor_df /\
    weighted_mean FACTOR_NAMES w (row s) - (1 # 200) <= Weighted_Score s /\
    Weighted_Score s <= weighted_mean FACTOR_NAMES w (row s) + (1 # 200).
Proof.
  intros H s Hs.
  apply compute_weighted_utility_inr_dict in H. subst scored.
  apply scored_of_In in Hs as [Hr Hw]. split; [exact Hr|].
  rewrite Hw.
  rewrite (Qround_decimals_comp 2 _ _
             (row_score_weighted_mean FACTOR_NAMES w (row s))).
  destruct (Qround_decimals_near 2 (weighted_mean FACTOR_NAMES w (row s)))
    as [Hlo Hhi].
  assert (E : (1 # 2) / inject_Z (pow10 2) == 1 # 200) by reflexivity.
  rewrite E in Hlo, Hhi. split; assumption.
Qed.

Lemma compute_weighted_utility_score_accuracy_witness :
  exists scored,
    compute_weighted_utility two_factors equal_weights triple
      (Some skewed_weights) = inr scored /\
    forall s, In s scored ->
      In (row s) triple /\
      weighted_mean two_factors skewed_weights (row s) - (1 # 200)
      <= Weighted_Score s /\
      Weighted_Score s
      <= weighted_mean two_factors skewed_weights (row s) + (1 # 200).
Proof.
  exists (scored_of two_factors triple skewed_weights).
  assert (H : compute_weighted_utility two_factors equal_weights triple
                (Some skewed_weights)
              = inr (scored_of two_factors triple skewed_weights))
    by (vm_compute; reflexivity).
  split; [exact H|].
  exact (compute_weighted_utility_score_accuracy _ _ _ _ _ H).
Defined.

Lemma weighted_mean_between
  (FACTOR_NAMES : list string) (w : dict Q) (r : Row Q) (hi : Z) :
  NoDup FACTOR_NAMES ->
  (forall k v, In (k, v) w -> 0 <= v) ->
  (forall f, In f FACTOR_NAMES -> 0 <= value r f <= inject_Z hi) ->
  (0 <= hi)%Z ->
  0 <= weighted_mean FACTOR_NAMES w r <= inject_Z hi.
Proof.
  intros Hnd Hw Hv Hhi. unfold weighted_mean.
  change (py_sum (values w)) with (Qsum (values w)).
  set (t := Qsum (values w)).
  set (num := Qsum (map (fun f => value r f * weight_of w f) FACTOR_NAMES)).
  assert (Hhi' : 0 <= inject_Z hi) by (change (inject_Z 0 <= inject_Z hi); rewrite <- Zle_Qle; exact Hhi).
  assert (Ht : 0 <= t).
  { apply Qsum_nonneg. intros x Hx. unfold values in Hx.
    apply in_map_iff in Hx as ([k v] & <- & Hin). now apply (Hw k v). }
  assert (Hnum0 : 0 <= num).
  { apply Qsum_nonneg. intros x Hx.
    apply in_map_iff in Hx as (f & <- & Hf).
    apply Qmult_le_0_compat; [apply (Hv f Hf)|now apply weight_of_nonneg]. }
  assert (Hnum1 : num <= inject_Z hi * t).
  { apply Qle_trans with (inject_Z hi * Qsum (map (weight_of w) FACTOR_NAMES)).
    - rewrite <- Qsum_scale. apply Qsum_le. intros f Hf.
      apply Qmult_le_compat_r; [apply (Hv f Hf)|now apply weight_of_nonneg].
    - rewrite !(Qmult_comm (inject_Z hi)).
      apply Qmult_le_compat_r; [now apply weight_sum_le|exact Hhi']. }
  destruct (Qeq_dec t 0) as [Hz|Hnz].
  - assert (Ei : / t == 0) by (rewrite Hz; reflexivity).
    assert (E : num / t == 0) by (unfold Qdiv; rewrite Ei; ring).
    rewrite E. split; [apply Qle_refl|exact Hhi'].
  - assert (Hpos : 0 < t).
    { apply Qle_lteq in Ht as [Hlt|Heq]; [exact Hlt|].
      exfalso. apply Hnz. now symmetry. }
    split.
    + apply Qle_shift_div_l; [exact Hpos|]. lra.
    + apply Qle_shift_div_r; [exact Hpos|exact Hnum1].
Qed.

(** X4: when the factor names are distinct, no weight is negative and every
    factor value lies between 0 and a whole number [hi], every score of the
    scored table lies between 0 and [hi] as well. *)
Theorem compute_weighted_utility_score_range
  (FACTOR_NAMES : list string) (DEFAULT_WEIGHTS : dict Q)
  (factor_df : list (Row Q)) (w : dict Q) (hi : Z)
  (scored : list (ScoredRow Q)) :
  NoDup FACTOR_NAMES ->
  (forall k v, In (k, v) w -> 0 <= v) ->
  (forall r f, In r factor_df -> In f FACTOR_NAMES ->
               0 <= value r f <= inject_Z hi) ->
  (0 <= hi)%Z ->
  compute_weighted_utility FACTOR_NAMES DEFAULT_WEIGHTS factor_df (Some w)
  = inr scored ->
  forall s, In s scored -> 0 <= Weighted_Score s <= inject_Z hi.
Proof.
  intros Hnd Hw Hv Hhi H s Hs.
  apply compute_weighted_utility_inr_dict in H. subst scored.
  apply scored_of_In in Hs as [Hr Hws]. rewrite Hws.
  rewrite (Qround_decimals_comp 2 _ _
             (row_score_weighted_mean FACTOR_NAMES w (row s))).
  apply (Qround_decimals_between 2 0 hi).
  apply weighted_mean_between; try assumption.
  intros f Hf. now apply Hv.
Qed.

Lemma compute_weighted_utility_score_range_witness :
  NoDup two_factors /\
  forall s,
    In s (scored_of two_factors triple skewed_weights) ->
    0 <= Weighted_Score s <= inject_Z 100.
Proof.
  assert (Hnd : NoDup two_factors).
  { repeat (apply NoDup_cons; [simpl; intuition discriminate|]).
    apply NoDup_nil. }
  split; [exact Hnd|].
  apply (compute_weighted_utility_score_range two_factors equal_weights
           triple skewed_weights 100).
  - exact Hnd.
  - intros k v [E|[E|[]]]; injection E as <- <-; vm_compute; discriminate.
  - intros r f [<-|[<-|[<-|[]]]] [<-|[<-|[]]];
      vm_compute; split; discriminate.
  - lia.
  - vm_compute; reflexivity.
Defined.

(** ** Pairwise trade-offs *)

Lemma mapM_Forall2 {A B} (f : A -> result B) (P : A -> B -> Prop) (l : list A) :
  (forall x, In x l -> exists y, f x = inr y /\ P x y) ->
  exists l', mapM f l = inr l' /\ Forall2 P l l'.
Proof.
  induction l as [|x l IH]; intros H; simpl.
  - exists []. split; [reflexivity|constructor].
  - destruct (H x (or_introl eq_refl)) as (y & Hy & HP).
    destruct IH as (l' & Hl' & HF); [intros z Hz; apply H; now right|].
    exists (y :: l'). rewrite Hy, Hl'. split; [reflexivity|now constructor].
Qed.

Lemma mapM_inr_Forall2 {A B} (f : A -> result B) (l : list A) (l' : list B) :
  mapM f l = inr l' -> Forall2 (fun x y => f x = inr y) l l'.
Proof.
  revert l'. induction l as [|x l IH]; intros l' H; simpl in H.
  - injection H as <-. constructor.
  - destruct (f x) as [e|y] eqn:Ey; [discriminate|]. simpl in H.
    destruct (mapM f l) as [e|ys] eqn:El; [discriminate|]. simpl in H.
    injection H as <-. constructor; [exact Ey|now apply IH].
Qed.

Lemma combinations2_length {A} (xs : list A) :
  (2 * length (combinations2 xs) = length xs * (length xs - 1))%nat.
Proof.
  induction xs as [|x xs IH]; simpl; [reflexivity|].
  rewrite length_app, length_map. nia.
Qed.

Lemma combinations2_nil_iff {A} (xs : list A) :
  combinations2 xs = [] <-> (length xs < 2)%nat.
Proof.
  destruct xs as [|x [|y xs]]; simpl; split; intros H;
    try reflexivity; try lia; discriminate.
Qed.

Lemma firstn_nil_iff {A} (k : nat) (l : list A) :
  firstn k l = [] <-> k = 0%nat \/ l = [].
Proof.
  destruct k, l; simpl; split; intros H; auto; try discriminate;
    destruct H; discriminate.
Qed.

(** [head] leaves no row exactly for an empty frame, for [n = 0] and for a
    negative [n] that drops every row. *)
Lemma head_nil_iff {A} (n : Z) (df : list A) :
  head n df = [] <->
  df = [] \/ n = 0%Z \/ (Z.of_nat (length df) <= - n)%Z.
Proof.
  unfold head. destruct (Z.leb_spec 0 n) as [Hn|Hn]; rewrite firstn_nil_iff.
  - split.
    + intros [H|H]; [right; left; lia|now left].
    + intros [H|[H|H]]; [now right|left; lia|].
      right. destruct df; [reflexivity|simpl in H; lia].
  - split.
    + intros [H|H]; [right; right; lia|now left].
    + intros [H|[H|H]]; [now right|lia|left; lia].
Qed.

Section Pairwise.

Variable FACTOR_NAMES : list string.

(** The record of one pair of factors over a frame with a first row. *)
Lemma pairwise_record (r0 : ScoredRow Q) (rest : list (ScoredRow Q))
  (fa fb : string) :
  let df := r0 :: rest in
  exists (i : nat) (best : ScoredRow Q),
    nth_error df i = Some best /\
    (forall s, In s df -> value (row s) fa <= value (row best) fa) /\
    (forall j s, (j < i)%nat -> nth_error df j = Some s ->
                 value (row s) fa < value (row best) fa) /\
    (let* best_a_idx := idxmax (map (fun s => value (row s) fa) df) in
     let* best := loc df best_a_idx in
     let trade_b_val := value (row best) fb in
     let best_b_val := column_max fb r0 rest in
     ret (mkPairwise fa fb (Country (row best)) (value (row best) fa)
            trade_b_val best_b_val
            (Qround_decimals 1 (trade_b_val - best_b_val))))
    = inr (mkPairwise fa fb (Country (row best)) (value (row best) fa)
             (value (row best) fb) (column_max fb r0 rest)
             (Qround_decimals 1
                (value (row best) fb - column_max fb r0 rest))).
Proof.
  intros df.
  destruct (idxmax_spec (map (fun s => value (row s) fa) df))
    as (k & m & Hk & Hm & Hmax & Hfirst); [discriminate|].
  rewrite nth_error_map in Hm.
  destruct (nth_error df k) as [best|] eqn:Eb; [|discriminate].
  simpl in Hm. injection Hm as <-.
  exists k, best. split; [exact Eb|]. split; [|split].
  - intros s Hs. apply Hmax. now apply in_map with (f := fun s => value (row s) fa).
  - intros j s Hj Hs. apply (Hfirst j); [exact Hj|].
    rewrite nth_error_map, Hs. reflexivity.
  - rewrite Hk. simpl bind. unfold loc. rewrite Eb. reflexivity.
Qed.

(** What a returned table says about the rows [head] kept. *)
Lemma pairwise_tradeoff_summary_inr
  (scored : list (ScoredRow Q)) (top_n : Z) (rows : list PairwiseRow) :
  pairwise_tradeoff_summary FACTOR_NAMES scored top_n = inr rows ->
  Forall2
    (fun ab p =>
       exists (r0 : ScoredRow Q) (rest : list (ScoredRow Q)) (i : nat)
              (best : ScoredRow Q),
         head top_n scored = r0 :: rest /\
         nth_error (r0 :: rest) i = Some best /\
         (forall s, In s (r0 :: rest) ->
                    value (row s) (fst ab) <= value (row best) (fst ab)) /\
         (forall j s, (j < i)%nat -> nth_error (r0 :: rest) j = Some s ->
                      value (row s) (fst ab) < value (row best) (fst ab)) /\
         p = mkPairwise (fst ab) (snd ab) (Country (row best))
               (value (row best) (fst ab)) (value (row best) (snd ab))
               (column_max (snd ab) r0 rest)
               (Qround_decimals 1
                  (value (row best) (snd ab) - column_max (snd ab) r0 rest)))
    (combinations2 FACTOR_NAMES) rows.
Proof.
  unfold pairwise_tradeoff_summary.
  destruct (head top_n scored) as [|r0 rest] eqn:Eh.
  - destruct (combinations2 FACTOR_NAMES); [|discriminate].
    intros H. injection H as <-. constructor.
  - intros H. apply mapM_inr_Forall2 in H.
    revert H. apply Forall2_impl.
    intros [fa fb] p Hp. simpl in Hp |- *.
    destruct (pairwise_record r0 rest fa fb)
      as (i & best & Hi & Hmax & Hfirst & Hrec).
    simpl in Hrec. rewrite Hrec in Hp. injection Hp as <-.
    exists r0, rest, i, best. auto.
Qed.

Lemma pairwise_tradeoff_summary_ok
  (scored : list (ScoredRow Q)) (top_n : Z) :
  head top_n scored <> [] ->
  exists rows, pairwise_tradeoff_summary FACTOR_NAMES scored top_n = inr rows.
Proof.
  intros Hne. unfold pairwise_tradeoff_summary.
  destruct (head top_n scored) as [|r0 rest]; [congruence|].
  edestruct (mapM_Forall2
               (fun ab =>
                  let fa := fst ab in
                  let fb := snd ab in
                  let* best_a_idx :=
                    idxmax (map (fun s => value (row s) fa) (r0 :: rest)) in
                  let* best := loc (r0 :: rest) best_a_idx in
                  let trade_b_val := value (row best) fb in
                  let best_b_val := column_max fb r0 rest in
                  ret (mkPairwise fa fb (Country (row best))
                         (value (row best) fa) trade_b_val best_b_val
                         (Qround_decimals 1 (trade_b_val - best_b_val))))
               (fun _ _ => True) (combinations2 FACTOR_NAMES))
    as (rows & Hrows & _).
  - intros [fa fb] _.
    destruct (pairwise_record r0 rest fa fb) as (i & best & _ & _ & _ & Hrec).
    eexists. split; [exact Hrec|exact I].
  - exists rows. exact Hrows.
Qed.

End Pairwise.

Lemma combinations2_In {A} (xs : list A) (a b : A) :
  In (a, b) (combinations2 xs) -> In a xs /\ In b xs.
Proof.
  induction xs as [|x xs IH]; simpl; [tauto|].
  rewrite in_app_iff, in_map_iff. intros [(y & E & Hy)|H].
  - injection E as <- <-. auto.
  - destruct (IH H). auto.
Qed.

Lemma string_length_append (a b : string) :
  String.length (String.append a b) = (String.length a + String.length b)%nat.
Proof. induction a as [|c a IH]; simpl; [reflexivity|now rewrite IH]. Qed.

Lemma string_append_inj_l (a a' s : string) :
  String.append a s = String.append a' s -> a = a'.
Proof.
  revert a'. induction a as [|c a IH]; intros [|c' a'] H; simpl in H.
  - reflexivity.
  - apply (f_equal String.length) in H.
    rewrite !string_length_append in H. simpl in H. lia.
  - apply (f_equal String.length) in H.
    rewrite !string_length_append in H. simpl in H. lia.
  - injection H as <- H. f_equal. now apply IH.
Qed.

(** Reading the column [f + " Δ"] of a record of the trade-off matrix. *)
Lemma getitem_delta (g : string -> Q) (fs : list string) (f : string) :
  In f fs ->
  getitem (map (fun f' => (String.append f' " Δ", g f')) fs)
          (String.append f " Δ") = inr (g f).
Proof.
  induction fs as [|f' fs IH]; intros Hin; [destruct Hin|]. simpl.
  destruct (String.eqb_spec (String.append f' " Δ") (String.append f " Δ"))
    as [E|Hne].
  - apply string_append_inj_l in E. now subst.
  - destruct Hin as [->|Hin]; [congruence|]. now apply IH.
Qed.

(** X5: a returned pairwise table has one record per pair of factor names,
    in the order of [itertools.combinations]; for [K] names that is
    [K * (K - 1) / 2] records. *)
Theorem pairwise_tradeoff_summary_pairs
  (FACTOR_NAMES : list string) (scored : list (ScoredRow Q)) (top_n : Z)
  (rows : list PairwiseRow) :
  pairwise_tradeoff_summary FACTOR_NAMES scored top_n = inr rows ->
  map (fun p => (Factor_A p, Factor_B p)) rows = combinations2 FACTOR_NAMES /\
  (2 * length rows = length FACTOR_NAMES * (length FACTOR_NAMES - 1))%nat.
Proof.
  intros H. apply pairwise_tradeoff_summary_inr in H.
  assert (E : map (fun p => (Factor_A p, Factor_B p)) rows
              = combinations2 FACTOR_NAMES).
  { induction H as [|[fa fb] p l l' Hp _ IH]; [reflexivity|].
    destruct Hp as (r0 & rest & i & best & _ & _ & _ & _ & ->).
    simpl. now rewrite IH. }
  split; [exact E|].
  rewrite <- combinations2_length, <- E, length_map. reflexivity.
Qed.

Lemma pairwise_tradeoff_summary_pairs_witness :
  map (fun p => (Factor_A p, Factor_B p)) sample_pairwise
  = combinations2 data.FACTOR_NAMES /\
  (2 * length sample_pairwise
   = length data.FACTOR_NAMES * (length data.FACTOR_NAMES - 1))%nat.
Proof.
  apply (pairwise_tradeoff_summary_pairs data.FACTOR_NAMES sample_scored 10).
  vm_compute; reflexivity.
Defined.

(** X6: every record of a returned pairwise table names the first row, among
    those [head] kept, that holds the largest value of factor A, and carries
    that row's values of factor A and factor B. *)
Theorem pairwise_tradeoff_summary_best_in_A
  (FACTOR_NAMES : list string) (scored : list (ScoredRow Q)) (top_n : Z)
  (rows : list PairwiseRow) :
  pairwise_tradeoff_summary FACTOR_NAMES scored top_n = inr rows ->
  forall p, In p rows ->
    exists best,
      In best (head top_n scored) /\
      first_maximizer (Factor_A p) (map row (head top_n scored)) (row best) /\
      Best_in_A p = Country (row best) /\
      A_Score p = value (row best) (Factor_A p) /\
      B_Score p = value (row best) (Factor_B p).
Proof.
  intros H p Hp. apply pairwise_tradeoff_summary_inr in H.
  destruct (Forall2_pick_r _ _ _ _ H Hp)
    as ([fa fb] & _ & r0 & rest & i & best & Eh & Hi & Hmax & Hfirst & ->).
  simpl in *. exists best. rewrite Eh.
  split; [eapply nth_error_In; exact Hi|].
  split; [|auto].
  exists i. split; [|split].
  - rewrite nth_error_map, Hi. reflexivity.
  - intros r' Hr'. apply in_map_iff in Hr' as (s & <- & Hs). now apply Hmax.
  - intros j r' Hj Hr'. rewrite nth_error_map in Hr'.
    destruct (nth_error (r0 :: rest) j) as [s|] eqn:Es; [|discriminate].
    simpl in Hr'. injection Hr' as <-. now apply (Hfirst j).
Qed.

Lemma pairwise_tradeoff_summary_best_in_A_witness :
  pairwise_tradeoff_summary data.FACTOR_NAMES sample_scored 10
  = inr sample_pairwise /\
  forall p, In p sample_pairwise ->
    exists best,
      In best (head 10 sample_scored) /\
      first_maximizer (Factor_A p) (map row (head 10 sample_scored))
        (row best) /\
      Best_in_A p = Country (row best) /\
      A_Score p = value (row best) (Factor_A p) /\
      B_Score p = value (row best) (Factor_B p).
Proof.
  assert (H : pairwise_tradeoff_summary data.FACTOR_NAMES sample_scored 10
              = inr sample_pairwise) by (vm_compute; reflexivity).
  split; [exact H|].
  apply (pairwise_tradeoff_summary_best_in_A data.FACTOR_NAMES sample_scored 10).
  exact H.
Defined.

(** X7: in every record of a returned pairwise table the best-in-class value
    of factor B is held by a kept row and by no kept row exceeded, so the B
    score is at most that value and the gap is never positive. *)
Theorem pairwise_tradeoff_summary_gap_nonpositive
  (FACTOR_NAMES : list string) (scored : list (ScoredRow Q)) (top_n : Z)
  (rows : list PairwiseRow) :
  pairwise_tradeoff_summary FACTOR_NAMES scored top_n = inr rows ->
  forall p, In p rows ->
    (exists s, In s (head top_n scored) /\
               value (row s) (Factor_B p) = B_Best_in_class p) /\
    (forall s, In s (head top_n scored) ->
               value (row s) (Factor_B p) <= B_Best_in_class p) /\
    B_Score p <= B_Best_in_class p /\
    B_Gap p <= 0.
Proof.
  intros H p Hp. apply pairwise_tradeoff_summary_inr in H.
  destruct (Forall2_pick_r _ _ _ _ H Hp)
    as ([fa fb] & _ & r0 & rest & i & best & Eh & Hi & _ & _ & ->).
  simpl in *. rewrite Eh.
  destruct (column_max_spec fb r0 rest) as [Hex Hmax].
  assert (Hb : value (row best) fb <= column_max fb r0 rest).
  { apply Hmax. eapply nth_error_In; exact Hi. }
  split; [exact Hex|]. split; [exact Hmax|]. split; [exact Hb|].
  apply Qround_decimals_nonpos. lra.
Qed.

Lemma pairwise_tradeoff_summary_gap_nonpositive_witness :
  pairwise_tradeoff_summary data.FACTOR_NAMES sample_scored 10
  = inr sample_pairwise /\
  forall p, In p sample_pairwise ->
    (exists s, In s (head 10 sample_scored) /\
               value (row s) (Factor_B p) = B_Best_in_class p) /\
    (forall s, In s (head 10 sample_scored) ->
               value (row s) (Factor_B p) <= B_Best_in_class p) /\
    B_Score p <= B_Best_in_class p /\
    B_Gap p <= 0.
Proof.
  assert (H : pairwise_tradeoff_summary data.FACTOR_NAMES sample_scored 10
              = inr sample_pairwise) by (vm_compute; reflexivity).
  split; [exact H|].
  apply (pairwise_tradeoff_summary_gap_nonpositive data.FACTOR_NAMES
           sample_scored 10).
  exact H.
Defined.

(** X8: with at least two factor names, [pairwise_tradeoff_summary] raises
    [ValueError] when [head] keeps no row (an empty table, [top_n = 0], or a
    negative [top_n] that drops every row), where [build_tradeoff_matrix]
    returns an empty table; in every other case it returns a table with at
    least one record. *)
Theorem pairwise_tradeoff_summary_returns_iff
  (FACTOR_NAMES : list string) (scored : list (ScoredRow Q)) (top_n : Z) :
  (2 <= length FACTOR_NAMES)%nat ->
  (scored = [] \/ top_n = 0%Z \/ (Z.of_nat (length scored) <= - top_n)%Z ->
   pairwise_tradeoff_summary FACTOR_NAMES scored top_n = inl ValueError /\
   build_tradeoff_matrix FACTOR_NAMES scored top_n = []) /\
  (scored <> [] -> top_n <> 0%Z -> (- top_n < Z.of_nat (length scored))%Z ->
   exists rows,
     pairwise_tradeoff_summary FACTOR_NAMES scored top_n = inr rows /\
     rows <> []).
Proof.
  intros HK. split.
  - intros Hnil. apply head_nil_iff in Hnil.
    unfold pairwise_tradeoff_summary, build_tradeoff_matrix. rewrite Hnil.
    split; [|reflexivity].
    destruct (combinations2 FACTOR_NAMES) eqn:E; [|reflexivity].
    apply combinations2_nil_iff in E. lia.
  - intros H1 H2 H3.
    assert (Hne : head top_n scored <> []).
    { rewrite head_nil_iff. intros [H|[H|H]]; [congruence|congruence|lia]. }
    destruct (pairwise_tradeoff_summary_ok FACTOR_NAMES scored top_n Hne)
      as (rows & Hrows).
    exists rows. split; [exact Hrows|].
    apply pairwise_tradeoff_summary_inr in Hrows.
    intros ->. inversion Hrows as [E|]; subst.
    symmetry in E. apply combinations2_nil_iff in E. lia.
Qed.

Lemma pairwise_tradeoff_summary_returns_iff_witness :
  (pairwise_tradeoff_summary data.FACTOR_NAMES sample_scored 0
   = inl ValueError /\
   build_tradeoff_matrix data.FACTOR_NAMES sample_scored 0 = []) /\
  (exists rows,
     pairwise_tradeoff_summary data.FACTOR_NAMES sample_scored 10 = inr rows /\
     rows <> []).
Proof.
  split.
  - apply (pairwise_tradeoff_summary_returns_iff data.FACTOR_NAMES
             sample_scored 0); [simpl; lia|right; left; reflexivity].
  - apply (pairwise_tradeoff_summary_returns_iff data.FACTOR_NAMES
             sample_scored 10).
    + simpl; lia.
    + vm_compute; discriminate.
    + discriminate.
    + vm_compute; reflexivity.
Defined.

(** X9: the gap of a pairwise record is the entry of the trade-off matrix,
    built from the same table with the same [top_n], in the row of the
    record's best-in-A country and the column of its factor B. *)
Theorem pairwise_gap_in_tradeoff_matrix
  (FACTOR_NAMES : list string) (scored : list (ScoredRow Q)) (top_n : Z)
  (rows : list PairwiseRow) :
  pairwise_tradeoff_summary FACTOR_NAMES scored top_n = inr rows ->
  forall p, In p rows ->
    exists t,
      In t (build_tradeoff_matrix FACTOR_NAMES scored top_n) /\
      tr_Country t = Best_in_A p /\
      getitem (deltas t) (String.append (Factor_B p) " Δ") = inr (B_Gap p).
Proof.
  intros H p Hp. apply pairwise_tradeoff_summary_inr in H.
  destruct (Forall2_pick_r _ _ _ _ H Hp)
    as ([fa fb] & Hab & r0 & rest & i & best & Eh & Hi & _ & _ & ->).
  simpl in *. apply combinations2_In in Hab as [_ Hfb].
  unfold build_tradeoff_matrix. rewrite Eh.
  eexists. split.
  - apply in_map. eapply nth_error_In. exact Hi.
  - simpl. split; [reflexivity|].
    apply (getitem_delta
             (fun f => Qround_decimals 1
                         (value (row best) f - column_max f r0 rest))
             FACTOR_NAMES fb Hfb).
Qed.

Lemma pairwise_gap_in_tradeoff_matrix_witness :
  pairwise_tradeoff_summary data.FACTOR_NAMES sample_scored 10
  = inr sample_pairwise /\
  forall p, In p sample_pairwise ->
    exists t,
      In t (build_tradeoff_matrix data.FACTOR_NAMES sample_scored 10) /\
      tr_Country t = Best_in_A p /\
      getitem (deltas t) (String.append (Factor_B p) " Δ") = inr (B_Gap p).
Proof.
  assert (H : pairwise_tradeoff_summary data.FACTOR_NAMES sample_scored 10
              = inr sample_pairwise) by (vm_compute; reflexivity).
  split; [exact H|].
  apply (pairwise_gap_in_tradeoff_matrix data.FACTOR_NAMES sample_scored 10).
  exact H.
Defined.

(** ** The dominant strategy, once more *)

Lemma first_maximizer_In (f : string) (df : list (Row Q)) (r : Row Q) :
  first_maximizer f df r -> In r df.
Proof. intros (i & Hi & _). eapply nth_error_In; exact Hi. Qed.

(** A column has one first maximizer. *)
Lemma first_maximizer_unique (f : string) (df : list (Row Q)) (r r' : Row Q) :
  first_maximizer f df r -> first_maximizer f df r' -> r = r'.
Proof.
  intros (i & Hi & Hmax & Hfirst) (i' & Hi' & Hmax' & Hfirst').
  destruct (Nat.lt_trichotomy i i') as [H|[H|H]].
  - pose proof (Hfirst' i r H Hi) as Hlt.
    pose proof (Hmax r' (nth_error_In _ _ Hi')) as Hle.
    exfalso. apply (Qlt_irrefl (value r f)).
    now apply Qlt_le_trans with (value r' f).
  - subst i'. congruence.
  - pose proof (Hfirst i' r' H Hi') as Hlt.
    pose proof (Hmax' r (nth_error_In _ _ Hi)) as Hle.
    exfalso. apply (Qlt_irrefl (value r' f)).
    now apply Qlt_le_trans with (value r f).
Qed.

Lemma list_to_set_constant (l : list string) (e : string) :
  l <> [] -> (forall c, In c l -> c = e) ->
  (list_to_set l : gset string) = {[ e ]}.
Proof.
  intros Hne Hall. apply set_eq. intros x.
  rewrite elem_of_list_to_set, elem_of_singleton, list_elem_of_In. split.
  - apply Hall.
  - intros ->. destruct l as [|c l]; [congruence|].
    left. apply Hall. now left.
Qed.

Section Dominant.

Variable FACTOR_NAMES : list string.

Lemma find_dominant_strategy_nil :
  find_dominant_strategy FACTOR_NAMES []
  = match FACTOR_NAMES with [] => inr None | _ :: _ => inl ValueError end.
Proof.
  unfold find_dominant_strategy. destruct FACTOR_NAMES; reflexivity.
Qed.

Lemma find_dominant_strategy_ok (df : list (Row Q)) :
  df <> [] -> exists o, find_dominant_strategy FACTOR_NAMES df = inr o.
Proof.
  intros Hne. unfold find_dominant_strategy.
  destruct (best_per_factor_spec FACTOR_NAMES df Hne) as (best & -> & _).
  simpl. destruct (Nat.eqb _ 1); eexists; reflexivity.
Qed.

(** A returned name is carried by the first maximizer of every factor. *)
Lemma find_dominant_strategy_Some (df : list (Row Q)) (e : string) :
  find_dominant_strategy FACTOR_NAMES df = inr (Some e) ->
  df <> [] /\ FACTOR_NAMES <> [] /\
  forall f, In f FACTOR_NAMES ->
    exists r, first_maximizer f df r /\ Country r = e.
Proof.
  intros H.
  assert (Hne : df <> []).
  { intros ->. rewrite find_dominant_strategy_nil in H.
    destruct FACTOR_NAMES; discriminate. }
  split; [exact Hne|].
  unfold find_dominant_strategy in H.
  destruct (best_per_factor_spec FACTOR_NAMES df Hne) as (best & Eb & Hbest).
  rewrite Eb in H. simpl in H.
  set (countries := list_to_set (map snd best) : gset string) in H.
  destruct (size countries =? 1)%nat eqn:Esz; [|discriminate].
  apply Nat.eqb_eq in Esz.
  destruct (size_1_elem_of countries Esz) as [x Hx].
  apply leibniz_equiv in Hx.
  assert (x = e) as ->.
  { rewrite Hx, elements_singleton in H. simpl in H. now injection H. }
  assert (Hall : forall c, In c (map snd best) -> c = e).
  { intros c Hc. apply list_elem_of_In in Hc.
    apply (elem_of_list_to_set (C := gset string)) in Hc.
    fold countries in Hc. rewrite Hx in Hc.
    now apply elem_of_singleton in Hc. }
  assert (Hin : In e (map snd best)).
  { apply list_elem_of_In.
    apply (elem_of_list_to_set (C := gset string)).
    fold countries. rewrite Hx. now apply elem_of_singleton. }
  split.
  { intros E. rewrite E in Hbest. inversion Hbest; subst. destruct Hin. }
  intros f Hf.
  destruct (Forall2_pick_l _ _ _ _ Hbest Hf) as (fc & Hfc & _ & r & Hr & Hsnd).
  exists r. split; [exact Hr|]. rewrite <- Hsnd.
  apply Hall. now apply in_map.
Qed.

Lemma find_dominant_strategy_complete (df : list (Row Q)) (e : string) :
  df <> [] -> FACTOR_NAMES <> [] ->
  (forall f, In f FACTOR_NAMES ->
     exists r, first_maximizer f df r /\ Country r = e) ->
  find_dominant_strategy FACTOR_NAMES df = inr (Some e).
Proof.
  intros Hne Hfn Hall. unfold find_dominant_strategy.
  destruct (best_per_factor_spec FACTOR_NAMES df Hne) as (best & -> & Hbest).
  simpl.
  assert (Hbne : map snd best <> []).
  { destruct Hbest; [congruence|discriminate]. }
  assert (Hc : forall c, In c (map snd best) -> c = e).
  { intros c Hc. apply in_map_iff in Hc as (fc & <- & Hfc).
    destruct (Forall2_pick_r _ _ _ _ Hbest Hfc) as (f & Hf & _ & r & Hr & ->).
    destruct (Hall f Hf) as (r' & Hr' & <-).
    now rewrite (first_maximizer_unique f df r r' Hr Hr'). }
  rewrite (list_to_set_constant _ e Hbne Hc).
  rewrite size_singleton, elements_singleton. reflexivity.
Qed.

End Dominant.

(** X10: [find_dominant_strategy] returns the name [e] exactly when the
    table has a row, there is a factor, and the first row holding the
    largest value of each factor is named [e]. *)
Theorem find_dominant_strategy_Some_iff
  (FACTOR_NAMES : list string) (factor_df : list (Row Q)) (e : string) :
  find_dominant_strategy FACTOR_NAMES factor_df = inr (Some e)
  <-> factor_df <> [] /\ FACTOR_NAMES <> [] /\
      forall f, In f FACTOR_NAMES ->
        exists r, first_maximizer f factor_df r /\ Country r = e.
Proof.
  split.
  - apply find_dominant_strategy_Some.
  - intros (Hne & Hfn & Hall). now apply find_dominant_strategy_complete.
Qed.

(** X11: when the country names are distinct and [find_dominant_strategy]
    returns [e], the Pareto-optimal set consists of [e] and of the countries
    whose rows equal the row of [e] in every factor. *)
Theorem find_dominant_strategy_pareto
  (FACTOR_NAMES : list string) (factor_df : list (Row Q)) (e : string) :
  NoDup (map Country factor_df) ->
  find_dominant_strategy FACTOR_NAMES factor_df = inr (Some e) ->
  exists re,
    In re factor_df /\ Country re = e /\
    In e (find_pareto_optimal FACTOR_NAMES factor_df) /\
    forall c,
      In c (find_pareto_optimal FACTOR_NAMES factor_df)
      <-> exists r, In r factor_df /\ Country r = c /\
                    same_scores FACTOR_NAMES r re.
Proof.
  intros Hnd H.
  apply find_dominant_strategy_Some in H as (Hne & Hfn & Hall).
  destruct FACTOR_NAMES as [|f0 fs] eqn:EF; [congruence|]. rewrite <- EF in *.
  destruct (Hall f0) as (re & Hre0 & Hce); [rewrite EF; now left|].
  pose proof (first_maximizer_In _ _ _ Hre0) as Hrein.
  assert (Hmax : forall f, In f FACTOR_NAMES ->
            forall r, In r factor_df -> value r f <= value re f).
  { intros f Hf r Hr. destruct (Hall f Hf) as (r' & Hr' & Hc').
    assert (r' = re) as ->.
    { destruct Hr' as (i & Hi & _).
      eapply NoDup_Country_inj; eauto. congruence. }
    destruct Hr' as (i & _ & Hm & _). now apply Hm. }
  assert (Hnondom : forall r, In r factor_df ->
            same_scores FACTOR_NAMES r re ->
            forall r', In r' factor_df -> ~ dominates FACTOR_NAMES r' r).
  { intros r Hr Hs r' Hr' [_ (f & Hf & Hgt)].
    rewrite (Hs f Hf) in Hgt.
    pose proof (Hmax f Hf r' Hr') as Hle.
    apply (Qlt_irrefl (value re f)). now apply Qlt_le_trans with (value r' f). }
  assert (Hback : forall c,
            (exists r, In r factor_df /\ Country r = c /\
                       same_scores FACTOR_NAMES r re) ->
            In c (find_pareto_optimal FACTOR_NAMES factor_df)).
  { intros c (r & Hr & Hc & Hs).
    apply find_pareto_optimal_In.
    destruct (In_nth_error _ _ Hr) as [i Hi].
    exists i, r. split; [exact Hi|]. split; [exact Hc|].
    apply not_true_is_false. intros Hd.
    apply (dominated_row_iff FACTOR_NAMES factor_df i r Hi) in Hd
      as (j & rj & _ & Hj & Hdom).
    apply (Hnondom r Hr Hs rj); [eapply nth_error_In; exact Hj|exact Hdom]. }
  exists re. split; [exact Hrein|]. split; [exact Hce|]. split.
  - apply Hback. exists re. split; [exact Hrein|]. split; [exact Hce|].
    intros f _. reflexivity.
  - intros c. split; [|apply Hback].
    intros Hc. apply find_pareto_optimal_In in Hc as (i & ri & Hi & Hci & Hd).
    exists ri. split; [eapply nth_error_In; exact Hi|]. split; [exact Hci|].
    intros f Hf.
    destruct (Qlt_le_dec (value ri f) (value re f)) as [Hlt|Hge].
    + exfalso.
      destruct (In_nth_error _ _ Hrein) as [j Hj].
      assert (Hdom : dominated_row (map (factor_values FACTOR_NAMES) factor_df)
                       (length factor_df) i = true).
      { apply (dominated_row_iff FACTOR_NAMES factor_df i ri Hi).
        exists j, re. split; [|split; [exact Hj|]].
        - intros ->. rewrite Hi in Hj. injection Hj as ->.
          now apply Qlt_irrefl in Hlt.
        - split.
          + intros g Hg. apply Hmax; [exact Hg|eapply nth_error_In; exact Hi].
          + exists f. split; [exact Hf|exact Hlt]. }
      congruence.
    + apply Qle_antisym; [|exact Hge].
      apply Hmax; [exact Hf|eapply nth_error_In; exact Hi].
Qed.

Lemma find_dominant_strategy_pareto_witness :
  exists re,
    In re with_leader /\ Country re = "B" /\
    In "B" (find_pareto_optimal two_factors with_leader) /\
    forall c,
      In c (find_pareto_optimal two_factors with_leader)
      <-> exists r, In r with_leader /\ Country r = c /\
                    same_scores two_factors r re.
Proof.
  apply (find_dominant_strategy_pareto two_factors with_leader "B").
  - repeat (apply NoDup_cons; [simpl; intuition discriminate|]). apply NoDup_nil.
  - vm_compute; reflexivity.
Defined.

(** ** The full bundle *)

Lemma scored_of_length (FACTOR_NAMES : list string) (df : list (Row Q))
  (w : dict Q) :
  length (scored_of FACTOR_NAMES df w) = length df.
Proof.
  destruct (scored_of_rows FACTOR_NAMES df w) as (score & rank & _ & ->).
  unfold sort_values_desc. now rewrite sort_by_length, length_map.
Qed.

Lemma compute_weighted_utility_length
  (FACTOR_NAMES : list string) (DEFAULT_WEIGHTS : dict Q)
  (df : list (Row Q)) (weights : option (dict Q)) (scored : list (ScoredRow Q)) :
  compute_weighted_utility FACTOR_NAMES DEFAULT_WEIGHTS df weights = inr scored ->
  length scored = length df.
Proof.
  intros H. apply compute_weighted_utility_inr_dict in H. subst scored.
  apply scored_of_length.
Qed.

Lemma head_length {A} (n : Z) (df : list A) :
  (1 <= n)%Z -> length (head n df) = Nat.min (Z.to_nat n) (length df).
Proof.
  intros Hn. rewrite head_firstn by exact Hn. rewrite length_firstn. lia.
Qed.

Lemma build_tradeoff_matrix_length
  (FACTOR_NAMES : list string) (scored : list (ScoredRow Q)) (top_n : Z) :
  length (build_tradeoff_matrix FACTOR_NAMES scored top_n)
  = length (head top_n scored).
Proof.
  unfold build_tradeoff_matrix.
  destruct (head top_n scored); [reflexivity|]. now rewrite length_map.
Qed.

Lemma build_tradeoff_matrix_countries
  (FACTOR_NAMES : list string) (scored : list (ScoredRow Q)) (top_n : Z) :
  map tr_Country (build_tradeoff_matrix FACTOR_NAMES scored top_n)
  = map (fun s => Country (row s)) (head top_n scored).
Proof.
  unfold build_tradeoff_matrix.
  destruct (head top_n scored); [reflexivity|]. now rewrite map_map.
Qed.

Section BundleFacts.

Variable FACTOR_NAMES : list string.
Variable DEFAULT_WEIGHTS : dict Q.

(** On a table with a row every analysis after the scorer returns. *)
Lemma run_full_analysis_after_scorer
  (df : list (Row Q)) (weights : option (dict Q)) (scored : list (ScoredRow Q)) :
  df <> [] ->
  compute_weighted_utility FACTOR_NAMES DEFAULT_WEIGHTS df weights = inr scored ->
  exists dominant nash pairwise,
    find_dominant_strategy FACTOR_NAMES df = inr dominant /\
    find_nash_equilibrium FACTOR_NAMES df = inr nash /\
    pairwise_tradeoff_summary FACTOR_NAMES scored 10 = inr pairwise /\
    run_full_analysis FACTOR_NAMES DEFAULT_WEIGHTS df weights
    = inr (mkBundle scored (find_pareto_optimal FACTOR_NAMES df) dominant nash
             (build_tradeoff_matrix FACTOR_NAMES scored 10) pairwise).
Proof.
  intros Hne Hs.
  destruct (find_dominant_strategy_ok FACTOR_NAMES df Hne) as (dominant & Hd).
  destruct (find_nash_equilibrium_head FACTOR_NAMES df Hne)
    as (i & r & _ & Hn & _).
  assert (Hhead : head 10 scored <> []).
  { rewrite head_nil_iff.
    pose proof (compute_weighted_utility_length _ _ _ _ _ Hs) as Hl.
    destruct df as [|r0 df']; [congruence|]. simpl in Hl.
    intros [H|[H|H]]; [subst scored; discriminate|discriminate|lia]. }
  destruct (pairwise_tradeoff_summary_ok FACTOR_NAMES scored 10 Hhead)
    as (pairwise & Hp).
  exists dominant, (Country r), pairwise.
  split; [exact Hd|]. split; [exact Hn|]. split; [exact Hp|].
  unfold run_full_analysis. rewrite Hs. simpl bind.
  rewrite Hd. simpl bind. rewrite Hn. simpl bind. rewrite Hp. reflexivity.
Qed.

Lemma run_full_analysis_nil (weights : option (dict Q)) :
  exists e,
    run_full_analysis FACTOR_NAMES DEFAULT_WEIGHTS [] weights = inl e /\
    forall scored,
      compute_weighted_utility FACTOR_NAMES DEFAULT_WEIGHTS [] weights
      = inr scored ->
      e = match FACTOR_NAMES with [] => IndexError | _ :: _ => ValueError end.
Proof.
  unfold run_full_analysis.
  destruct (compute_weighted_utility FACTOR_NAMES DEFAULT_WEIGHTS [] weights)
    as [e|scored].
  - exists e. split; [reflexivity|]. intros scored H. discriminate.
  - simpl bind. rewrite find_dominant_strategy_nil.
    destruct FACTOR_NAMES as [|f fs].
    + exists IndexError. split; [reflexivity|]. reflexivity.
    + exists ValueError. split; [reflexivity|]. reflexivity.
Qed.

End BundleFacts.

(** X12: on a table with at least one row, [run_full_analysis] fails exactly
    when [compute_weighted_utility] fails on the same arguments, and with
    the same exception: the later analyses add no failure of their own. *)
Theorem run_full_analysis_fails_as_scorer
  (FACTOR_NAMES : list string) (DEFAULT_WEIGHTS : dict Q)
  (factor_df : list (Row Q)) (weights : option (dict Q)) :
  factor_df <> [] ->
  forall e,
    run_full_analysis FACTOR_NAMES DEFAULT_WEIGHTS factor_df weights = inl e
    <-> compute_weighted_utility FACTOR_NAMES DEFAULT_WEIGHTS factor_df weights
        = inl e.
Proof.
  intros Hne e.
  destruct (compute_weighted_utility FACTOR_NAMES DEFAULT_WEIGHTS factor_df
              weights) as [e'|scored] eqn:Hs.
  - unfold run_full_analysis. rewrite Hs. simpl bind.
    split; intros E; injection E as ->; reflexivity.
  - destruct (run_full_analysis_after_scorer FACTOR_NAMES DEFAULT_WEIGHTS
                factor_df weights scored Hne Hs)
      as (dominant & nash & pairwise & _ & _ & _ & ->).
    split; discriminate.
Qed.

Lemma run_full_analysis_fails_as_scorer_witness :
  sample <> [] /\
  forall e,
    run_full_analysis data.FACTOR_NAMES data.DEFAULT_WEIGHTS sample
      (Some all_zero_weights) = inl e
    <-> compute_weighted_utility data.FACTOR_NAMES data.DEFAULT_WEIGHTS sample
          (Some all_zero_weights) = inl e.
Proof.
  assert (H : sample <> []) by discriminate.
  split; [exact H|].
  apply (run_full_analysis_fails_as_scorer data.FACTOR_NAMES
           data.DEFAULT_WEIGHTS sample (Some all_zero_weights)).
  exact H.
Defined.

(** X13: on a table without rows [run_full_analysis] never returns a bundle;
    when the scorer accepts the weights, the exception is [ValueError] (from
    [find_dominant_strategy]) if there is a factor name and [IndexError]
    (from [find_nash_equilibrium]) if there is none. *)
Theorem run_full_analysis_empty_table
  (FACTOR_NAMES : list string) (DEFAULT_WEIGHTS : dict Q)
  (weights : option (dict Q)) :
  exists e,
    run_full_analysis FACTOR_NAMES DEFAULT_WEIGHTS [] weights = inl e /\
    forall scored,
      compute_weighted_utility FACTOR_NAMES DEFAULT_WEIGHTS [] weights
      = inr scored ->
      e = match FACTOR_NAMES with [] => IndexError | _ :: _ => ValueError end.
Proof. apply run_full_analysis_nil. Qed.

(** X14: a returned bundle comes from a table with at least one row; its
    scored table has as many rows as the input, its trade-off matrix lists
    the countries of the first ten scored rows, its pairwise table has
    [K * (K - 1) / 2] records for [K] factor names, and every country it
    names (balanced pick, Pareto set, dominant strategy) is a country of
    the input. *)
Theorem run_full_analysis_shape
  (FACTOR_NAMES : list string) (DEFAULT_WEIGHTS : dict Q)
  (factor_df : list (Row Q)) (weights : option (dict Q)) (b : Bundle) :
  run_full_analysis FACTOR_NAMES DEFAULT_WEIGHTS factor_df weights = inr b ->
  factor_df <> [] /\
  compute_weighted_utility FACTOR_NAMES DEFAULT_WEIGHTS factor_df weights
  = inr (scored_df b) /\
  length (scored_df b) = length factor_df /\
  map tr_Country (tradeoff_matrix b)
  = map (fun s => Country (row s)) (firstn 10 (scored_df b)) /\
  length (tradeoff_matrix b) = Nat.min 10 (length factor_df) /\
  (2 * length (pairwise_tradeoffs b)
   = length FACTOR_NAMES * (length FACTOR_NAMES - 1))%nat /\
  In (nash_equilibrium b) (map Country factor_df) /\
  (forall c, In c (pareto_optimal b) -> In c (map Country factor_df)) /\
  (forall e, dominant_strategy b = Some e -> In e (map Country factor_df)).
Proof.
  intros H.
  assert (Hne : factor_df <> []).
  { intros ->.
    destruct (run_full_analysis_nil FACTOR_NAMES DEFAULT_WEIGHTS weights)
      as (e & He & _).
    congruence. }
  split; [exact Hne|].
  destruct (compute_weighted_utility FACTOR_NAMES DEFAULT_WEIGHTS factor_df
              weights) as [e|scored] eqn:Hs.
  { unfold run_full_analysis in H. rewrite Hs in H. discriminate. }
  destruct (run_full_analysis_after_scorer FACTOR_NAMES DEFAULT_WEIGHTS
              factor_df weights scored Hne Hs)
    as (dominant & nash & pairwise & Hd & Hn & Hp & Hb).
  rewrite Hb in H. injection H as <-. simpl.
  pose proof (compute_weighted_utility_length _ _ _ _ _ Hs) as Hl.
  split; [reflexivity|]. split; [exact Hl|]. split; [|split; [|split; [|split; [|split]]]].
  - apply build_tradeoff_matrix_countries.
  - rewrite build_tradeoff_matrix_length, head_length by lia.
    rewrite Hl. reflexivity.
  - apply pairwise_tradeoff_summary_inr in Hp.
    rewrite <- combinations2_length.
    now rewrite (Forall2_length Hp).
  - destruct (find_nash_equilibrium_head FACTOR_NAMES factor_df Hne)
      as (i & r & Hi & Hn' & _).
    rewrite Hn' in Hn. injection Hn as <-.
    apply in_map. eapply nth_error_In. exact Hi.
  - intros c Hc. apply find_pareto_optimal_In in Hc as (i & ri & Hi & <- & _).
    apply in_map. eapply nth_error_In. exact Hi.
  - intros e ->. apply find_dominant_strategy_Some in Hd as (_ & Hfn & Hall).
    destruct FACTOR_NAMES as [|f0 fs]; [congruence|].
    destruct (Hall f0 (or_introl eq_refl)) as (r & Hr & <-).
    apply in_map. now apply first_maximizer_In in Hr.
Qed.

Lemma run_full_analysis_shape_witness :
  sample <> [] /\
  compute_weighted_utility data.FACTOR_NAMES data.DEFAULT_WEIGHTS sample None
  = inr (scored_df sample_bundle) /\
  length (scored_df sample_bundle) = length sample /\
  map tr_Country (tradeoff_matrix sample_bundle)
  = map (fun s => Country (row s)) (firstn 10 (scored_df sample_bundle)) /\
  length (tradeoff_matrix sample_bundle) = Nat.min 10 (length sample) /\
  (2 * length (pairwise_tradeoffs sample_bundle)
   = length data.FACTOR_NAMES * (length data.FACTOR_NAMES - 1))%nat /\
  In (nash_equilibrium sample_bundle) (map Country sample) /\
  (forall c, In c (pareto_optimal sample_bundle) -> In c (map Country sample)) /\
  (forall e, dominant_strategy sample_bundle = Some e ->
             In e (map Country sample)).
Proof.
  apply (run_full_analysis_shape data.FACTOR_NAMES data.DEFAULT_WEIGHTS
           sample None sample_bundle).
  vm_compute; reflexivity.
Defined.

(** ** The two-dimensional frontier, once more *)

Lemma StronglySorted_split {A} (R : A -> A -> Prop) (l1 l2 : list A) (p : A) :
  StronglySorted R (l1 ++ p :: l2) ->
  (forall q, In q l1 -> R q p) /\ (forall q, In q l2 -> R p q).
Proof.
  induction l1 as [|a l1 IH]; simpl; intros H.
  - apply StronglySorted_inv in H as [_ H]. rewrite Forall_forall in H.
    split; [intros q []|exact H].
  - apply StronglySorted_inv in H as [Hs Ha]. rewrite Forall_forall in Ha.
    destruct (IH Hs) as [H1 H2]. split; [|exact H2].
    intros q [<-|Hq]; [|now apply H1].
    apply Ha. apply in_or_app. right. now left.
Qed.

Lemma sweep_invariant_step (pre kept : list Point) (max_y : option Q)
  (p : Point) :
  sweep_invariant pre kept max_y ->
  sweep_invariant (pre ++ [p]) (fst (sweep_step (kept, max_y) p))
                  (snd (sweep_step (kept, max_y) p)).
Proof.
  intros (Hmax & Hwit & Hkept & Hdrop).
  assert (Hext : forall (P : list Point -> Prop) p0,
            (exists l1 l2, pre = l1 ++ p0 :: l2 /\ P l1) ->
            exists l1 l2, pre ++ [p] = l1 ++ p0 :: l2 /\ P l1).
  { intros P p0 (l1 & l2 & -> & HP). exists l1, (l2 ++ [p]).
    split; [now rewrite <- app_assoc|exact HP]. }
  unfold sweep_step. simpl.
  destruct (at_least (pt_y p) max_y) eqn:E; simpl.
  - assert (Hle : forall q, In q pre -> pt_y q <= pt_y p).
    { intros q Hq. destruct (Hmax q Hq) as (m & -> & Hm). simpl in E.
      apply Qle_bool_iff in E. now apply Qle_trans with m. }
    split; [|split; [|split]].
    + intros q Hq. exists (pt_y p). split; [reflexivity|].
      apply in_app_or in Hq as [Hq|[<-|[]]]; [now apply Hle|apply Qle_refl].
    + intros m Hm. injection Hm as <-. exists p. split; [|reflexivity].
      apply in_or_app. right. now left.
    + intros p0 Hp0. apply in_app_or in Hp0 as [Hp0|[<-|[]]].
      * apply (Hext (fun l1 => forall q, In q l1 -> pt_y q <= pt_y p0)).
        now apply Hkept.
      * exists pre, []. split; [reflexivity|exact Hle].
    + intros p0 Hp0 Hn.
      assert (Hn' : ~ In p0 kept) by (intros H; apply Hn, in_or_app; now left).
      apply in_app_or in Hp0 as [Hp0|[<-|[]]].
      * apply (Hext (fun l1 => exists q, In q l1 /\ pt_y p0 < pt_y q)).
        now apply Hdrop.
      * exfalso. apply Hn, in_or_app. right. now left.
  - destruct max_y as [m|]; [|discriminate]. simpl in E.
    assert (Hlt : pt_y p < m).
    { apply Qnot_le_lt. intros H. apply Qle_bool_iff in H. congruence. }
    split; [|split; [|split]].
    + intros q Hq. apply in_app_or in Hq as [Hq|[<-|[]]]; [now apply Hmax|].
      exists m. split; [reflexivity|now apply Qlt_le_weak].
    + intros m' Hm'. destruct (Hwit m' Hm') as (q & Hq & Hqm).
      exists q. split; [apply in_or_app; now left|exact Hqm].
    + intros p0 Hp0.
      apply (Hext (fun l1 => forall q, In q l1 -> pt_y q <= pt_y p0)).
      now apply Hkept.
    + intros p0 Hp0 Hn. apply in_app_or in Hp0 as [Hp0|[<-|[]]].
      * apply (Hext (fun l1 => exists q, In q l1 /\ pt_y p0 < pt_y q)).
        now apply Hdrop.
      * exists pre, []. split; [reflexivity|].
        destruct (Hwit m eq_refl) as (q & Hq & Hqm).
        exists q. split; [exact Hq|]. now rewrite Hqm.
Qed.

Lemma sweep_invariant_fold (todo pre kept : list Point) (max_y : option Q) :
  sweep_invariant pre kept max_y ->
  sweep_invariant (pre ++ todo)
    (fst (fold_left sweep_step todo (kept, max_y)))
    (snd (fold_left sweep_step todo (kept, max_y))).
Proof.
  revert pre kept max_y. induction todo as [|p todo IH];
    intros pre kept max_y H; simpl.
  - now rewrite app_nil_r.
  - replace (pre ++ p :: todo) with ((pre ++ [p]) ++ todo)
      by (now rewrite <- app_assoc).
    pose proof (sweep_invariant_step pre kept max_y p H) as Hstep.
    destruct (sweep_step (kept, max_y) p) as [kept' max_y'].
    now apply IH.
Qed.

Lemma sweep_invariant_all (todo : list Point) :
  sweep_invariant todo (fst (fold_left sweep_step todo ([], None)))
                  (snd (fold_left sweep_step todo ([], None))).
Proof.
  apply (sweep_invariant_fold todo [] [] None).
  split; [|split; [|split]].
  - intros q [].
  - discriminate.
  - intros p [].
  - intros p [].
Qed.

(** The frame the sweep runs over, and what a returned frontier is. *)
Lemma pareto_frontier_2d_inr (df : list (Row Q)) (x_col y_col : string)
  (F : list Point) :
  pareto_frontier_2d df x_col y_col = inr F ->
  exists todo,
    StronglySorted (fun a b => pt_x b <= pt_x a) todo /\
    (forall p, In p todo
               <-> exists r, In r df /\
                     p = mkPoint (Country r) (value r x_col) (value r y_col)) /\
    (forall p, In p F
               <-> In p (fst (fold_left sweep_step todo ([], None)))).
Proof.
  unfold pareto_frontier_2d.
  destruct (String.eqb x_col y_col || String.eqb "Country" x_col);
    [discriminate|].
  destruct (String.eqb "Country" y_col); [destruct df; discriminate|].
  set (pts := map (fun r => mkPoint (Country r) (value r x_col) (value r y_col))
                  df).
  set (todo := sort_values_desc pt_x (sort_values_asc pt_x pts)).
  destruct (fst (fold_left sweep_step todo ([], None))) as [|k kept] eqn:EK;
    [discriminate|].
  intros HF.
  assert (F = sort_values_asc pt_x (k :: kept)) as ->
    by (unfold ret in HF; congruence).
  exists todo. split; [apply sort_values_desc_sorted|]. split.
  - intros p. unfold todo, sort_values_desc, sort_values_asc.
    rewrite !sort_by_In. unfold pts. rewrite in_map_iff.
    split; intros (r & H1 & H2); exists r; auto.
  - intros p. rewrite EK. unfold sort_values_asc. apply sort_by_In.
Qed.

(** X15: every point of a returned frontier is the point of a row of the
    table, and no row lies strictly to its right and strictly above it. *)
Theorem pareto_frontier_2d_sound
  (factor_df : list (Row Q)) (x_col y_col : string) (F : list Point) :
  pareto_frontier_2d factor_df x_col y_col = inr F ->
  forall p, In p F ->
    (exists r, In r factor_df /\
               p = mkPoint (Country r) (value r x_col) (value r y_col)) /\
    (forall r, In r factor_df ->
               pt_x p < value r x_col -> value r y_col <= pt_y p).
Proof.
  intros H p Hp.
  apply pareto_frontier_2d_inr in H as (todo & Hsorted & Htodo & HF).
  apply HF in Hp.
  destruct (sweep_invariant_all todo) as (_ & _ & Hkept & _).
  destruct (Hkept p Hp) as (l1 & l2 & E & Hl1).
  assert (Hin : In p todo) by (rewrite E; apply in_or_app; right; now left).
  split; [now apply Htodo|].
  intros r Hr Hlt.
  set (q := mkPoint (Country r) (value r x_col) (value r y_col)).
  assert (Hq : In q todo) by (apply Htodo; now exists r).
  rewrite E in Hsorted, Hq.
  destruct (StronglySorted_split _ _ _ _ Hsorted) as [_ Hright].
  apply in_app_or in Hq as [Hq|[Hq|Hq]].
  - exact (Hl1 q Hq).
  - rewrite Hq in Hlt. now apply Qlt_irrefl in Hlt.
  - exfalso. apply (Qlt_not_le _ _ Hlt). exact (Hright q Hq).
Qed.

Lemma pareto_frontier_2d_sound_witness :
  exists F,
    pareto_frontier_2d triple "F1" "F2" = inr F /\
    forall p, In p F ->
      (exists r, In r triple /\
                 p = mkPoint (Country r) (value r "F1") (value r "F2")) /\
      (forall r, In r triple -> pt_x p < value r "F1" ->
                 value r "F2" <= pt_y p).
Proof.
  eexists. split; [vm_compute; reflexivity|].
  apply (pareto_frontier_2d_sound triple "F1" "F2").
  vm_compute; reflexivity.
Defined.

(** X16: a row whose point is missing from a returned frontier is beaten by
    a row that is at least as far right and strictly higher. *)
Theorem pareto_frontier_2d_complete
  (factor_df : list (Row Q)) (x_col y_col : string) (F : list Point) :
  pareto_frontier_2d factor_df x_col y_col = inr F ->
  forall r, In r factor_df ->
    ~ In (mkPoint (Country r) (value r x_col) (value r y_col)) F ->
    exists r', In r' factor_df /\
               value r x_col <= value r' x_col /\
               value r y_col < value r' y_col.
Proof.
  intros H r Hr Hn.
  apply pareto_frontier_2d_inr in H as (todo & Hsorted & Htodo & HF).
  set (p := mkPoint (Country r) (value r x_col) (value r y_col)) in *.
  assert (Hp : In p todo) by (apply Htodo; now exists r).
  destruct (sweep_invariant_all todo) as (_ & _ & _ & Hdrop).
  destruct (Hdrop p Hp) as (l1 & l2 & E & q & Hq & Hlt).
  { intros Hk. apply Hn. now apply HF. }
  assert (Hqin : In q todo) by (rewrite E; apply in_or_app; now left).
  apply Htodo in Hqin as (r' & Hr' & Eq).
  rewrite E in Hsorted.
  destruct (StronglySorted_split _ _ _ _ Hsorted) as [Hleft _].
  pose proof (Hleft q Hq) as Hx. simpl in Hx.
  exists r'. split; [exact Hr'|]. rewrite Eq in Hx, Hlt. simpl in *.
  split; assumption.
Qed.

Lemma pareto_frontier_2d_complete_witness :
  exists F,
    pareto_frontier_2d with_leader "F1" "F2" = inr F /\
    forall r, In r with_leader ->
      ~ In (mkPoint (Country r) (value r "F1") (value r "F2")) F ->
      exists r', In r' with_leader /\
                 value r "F1" <= value r' "F1" /\
                 value r "F2" < value r' "F2".
Proof.
  eexists. split; [vm_compute; reflexivity|].
  apply (pareto_frontier_2d_complete with_leader "F1" "F2").
  vm_compute; reflexivity.
Defined.

(** X17: [pareto_frontier_2d] returns a frontier only for a table with at
    least one row and for labels ["Country"], [x_col], [y_col] that are
    pairwise distinct, and a returned frontier has at least one point: a
    table without rows or a repeated label always ends in an exception. *)
Theorem pareto_frontier_2d_returns_only
  (factor_df : list (Row Q)) (x_col y_col : string) (F : list Point) :
  pareto_frontier_2d factor_df x_col y_col = inr F ->
  NoDup ["Country"; x_col; y_col] /\ factor_df <> [] /\ F <> [].
Proof.
  unfold pareto_frontier_2d.
  destruct (String.eqb x_col y_col || String.eqb "Country" x_col) eqn:Ex;
    [discriminate|].
  destruct (String.eqb "Country" y_col) eqn:Ey;
    [destruct factor_df; discriminate|].
  apply orb_false_iff in Ex as [Exy Ecx].
  apply String.eqb_neq in Exy, Ecx, Ey.
  set (todo := sort_values_desc pt_x _).
  destruct (fst (fold_left sweep_step todo ([], None))) as [|k kept] eqn:EK;
    [discriminate|].
  intros HF.
  assert (F = sort_values_asc pt_x (k :: kept)) as ->
    by (unfold ret in HF; congruence).
  split; [|split].
  - repeat (apply NoDup_cons; [simpl; intuition congruence|]). apply NoDup_nil.
  - intros ->. vm_compute in EK. discriminate.
  - intros Es. apply sort_by_nil in Es. discriminate.
Qed.

Lemma pareto_frontier_2d_returns_only_witness :
  exists F,
    pareto_frontier_2d triple "F1" "F2" = inr F /\
    NoDup ["Country"; "F1"; "F2"] /\ triple <> [] /\ F <> [].
Proof.
  eexists. split; [vm_compute; reflexivity|].
  apply (pareto_frontier_2d_returns_only triple "F1" "F2").
  vm_compute; reflexivity.
Defined.

(** ** The Pareto-optimal set, once more *)

Lemma dominatesb_iff (FACTOR_NAMES : list string) (rj ri : Row Q) :
  dominatesb FACTOR_NAMES rj ri = true <-> dominates FACTOR_NAMES rj ri.
Proof.
  unfold dominatesb, dominates.
  rewrite andb_true_iff, forallb_forall, existsb_exists. split.
  - intros [Hall (f & Hf & Hlt)]. split.
    + intros g Hg. apply Qle_bool_iff. now apply Hall.
    + exists f. split; [exact Hf|now apply Qlt_bool_iff].
  - intros [Hall (f & Hf & Hlt)]. split.
    + intros g Hg. apply Qle_bool_iff. now apply Hall.
    + exists f. split; [exact Hf|now apply Qlt_bool_iff].
Qed.

(** Selecting positions and reading a column there is selecting rows and
    reading their column. *)
Lemma filter_positions {A B} (g : A -> B) (d : B) (P : nat -> bool)
  (Q : A -> bool) (l : list A) :
  forall pre,
    (forall i a, nth_error (pre ++ l) i = Some a -> (length pre <= i)%nat ->
                 P i = Q a) ->
    map (fun i => nth i (map g (pre ++ l)) d)
        (filter P (seq (length pre) (length l)))
    = map g (filter Q l).
Proof.
  induction l as [|a l IH]; intros pre H; [reflexivity|]. simpl.
  assert (Ha : nth_error (pre ++ a :: l) (length pre) = Some a).
  { rewrite nth_error_app2 by lia. now rewrite Nat.sub_diag. }
  rewrite (H (length pre) a Ha (le_n _)).
  assert (IH' : map (fun i => nth i (map g (pre ++ a :: l)) d)
                    (filter P (seq (S (length pre)) (length l)))
                = map g (filter Q l)).
  { specialize (IH (pre ++ [a])).
    rewrite <- app_assoc, length_app, Nat.add_comm in IH. simpl in IH.
    apply IH. intros i b Hi Hle. apply (H i b Hi). lia. }
  destruct (Q a); simpl; [|exact IH'].
  f_equal; [|exact IH'].
  apply nth_error_nth. now rewrite nth_error_map, Ha.
Qed.

Lemma Permutation_filter_ext {A} (P P' : A -> bool) (l l' : list A) :
  Permutation l l' -> (forall a, P a = P' a) ->
  Permutation (filter P l) (filter P' l').
Proof.
  intros Hp Hext. induction Hp as [|a l l' _ IH|a b l|l1 l2 l3 _ IH1 _ IH2].
  - constructor.
  - simpl. rewrite <- Hext. destruct (P a); [now constructor|exact IH].
  - simpl. rewrite <- !Hext.
    assert (E : filter P l = filter P' l).
    { apply filter_ext. exact Hext. }
    rewrite E. destruct (P a), (P b); try reflexivity. constructor.
  - apply Permutation_trans with (filter P' l2); [exact IH1|].
    apply Permutation_trans with (filter P l2).
    + assert (E : filter P l2 = filter P' l2) by (apply filter_ext; exact Hext).
      now rewrite E.
    + exact IH2.
Qed.

Section ParetoRows.

Variable FACTOR_NAMES : list string.

Lemma dominated_row_existsb (df : list (Row Q)) (i : nat) (ri : Row Q) :
  nth_error df i = Some ri ->
  dominated_row (map (factor_values FACTOR_NAMES) df) (length df) i
  = existsb (fun r' => dominatesb FACTOR_NAMES r' ri) df.
Proof.
  intros Hi. apply eq_true_iff_eq.
  rewrite (dominated_row_iff FACTOR_NAMES df i ri Hi), existsb_exists. split.
  - intros (j & rj & _ & Hj & Hdom). exists rj.
    split; [eapply nth_error_In; exact Hj|now apply dominatesb_iff].
  - intros (rj & Hrj & Hdom). apply dominatesb_iff in Hdom.
    destruct (In_nth_error _ _ Hrj) as [j Hj].
    exists j, rj. split; [|split; [exact Hj|exact Hdom]].
    intros ->. rewrite Hi in Hj. injection Hj as ->.
    now apply (dominates_irrefl FACTOR_NAMES) in Hdom.
Qed.

(** The index loop computes the filter of the docstring. *)
Lemma find_pareto_optimal_rows (df : list (Row Q)) :
  find_pareto_optimal FACTOR_NAMES df
  = map Country (pareto_rows FACTOR_NAMES df).
Proof.
  unfold find_pareto_optimal, pareto_rows. rewrite length_map.
  apply (filter_positions Country "" _ _ df []).
  intros i a Hi _. simpl in Hi.
  rewrite <- (dominated_row_existsb df i a Hi).
  destruct (dominated_row _ _ i) eqn:E.
  - apply bool_decide_eq_false. intros Hn. apply Hn.
    apply dominated_set_iff. right. split; [|exact E].
    apply in_seq. split; [lia|]. simpl. apply nth_error_Some. congruence.
  - apply bool_decide_eq_true. intros Hn.
    apply dominated_set_iff in Hn as [Hn|[_ Hn]]; [|congruence].
    now apply not_elem_of_empty in Hn.
Qed.

End ParetoRows.

(** X18: [find_pareto_optimal] returns, in table order and with repetitions
    kept, the names of the rows that no row of the table dominates. *)
Theorem find_pareto_optimal_filter
  (FACTOR_NAMES : list string) (factor_df : list (Row Q)) :
  find_pareto_optimal FACTOR_NAMES factor_df
  = map Country (pareto_rows FACTOR_NAMES factor_df) /\
  forall r, In r (pareto_rows FACTOR_NAMES factor_df)
            <-> In r factor_df /\
                forall r', In r' factor_df -> ~ dominates FACTOR_NAMES r' r.
Proof.
  split; [apply find_pareto_optimal_rows|].
  intros r. unfold pareto_rows. rewrite filter_In, negb_true_iff.
  split; intros [Hr H]; (split; [exact Hr|]).
  - intros r' Hr' Hdom. apply dominatesb_iff in Hdom.
    assert (E : existsb (fun r'0 => dominatesb FACTOR_NAMES r'0 r) factor_df
                = true) by (apply existsb_exists; now exists r').
    congruence.
  - apply not_true_is_false. intros E.
    apply existsb_exists in E as (r' & Hr' & Hdom).
    apply dominatesb_iff in Hdom. now apply (H r').
Qed.

(** X19: reordering the rows of the table only reorders the Pareto-optimal
    list. *)
Theorem find_pareto_optimal_Permutation
  (FACTOR_NAMES : list string) (df df' : list (Row Q)) :
  Permutation df df' ->
  Permutation (find_pareto_optimal FACTOR_NAMES df)
              (find_pareto_optimal FACTOR_NAMES df').
Proof.
  intros Hp. rewrite !find_pareto_optimal_rows.
  apply Permutation_map. unfold pareto_rows.
  apply Permutation_trans with
    (filter (fun r => negb (existsb (fun r' => dominatesb FACTOR_NAMES r' r) df))
            df').
  - apply Permutation_filter_ext; [exact Hp|reflexivity].
  - assert (E : forall r,
              existsb (fun r' => dominatesb FACTOR_NAMES r' r) df
              = existsb (fun r' => dominatesb FACTOR_NAMES r' r) df').
    { intros r. apply eq_true_iff_eq. rewrite !existsb_exists.
      split; intros (r' & Hr' & H); exists r'; split; try exact H.
      - now apply (Permutation_in _ Hp).
      - now apply (Permutation_in _ (Permutation_sym Hp)). }
    apply Permutation_filter_ext; [reflexivity|].
    intros r. now rewrite E.
Qed.

Lemma find_pareto_optimal_Permutation_witness :
  Permutation (find_pareto_optimal two_factors triple)
              (find_pareto_optimal two_factors (rev triple)).
Proof.
  apply (find_pareto_optimal_Permutation two_factors triple (rev triple)).
  apply Permutation_rev.
Defined.

(** ** From sub-factors to factors, and what the pages hand over *)

Lemma Qsum_between (l : list Q) (lo hi : Q) :
  (forall x, In x l -> lo <= x <= hi) ->
  inject_Z (Z.of_nat (length l)) * lo <= Qsum l
  /\ Qsum l <= inject_Z (Z.of_nat (length l)) * hi.
Proof.
  induction l as [|x l IH]; intros H.
  - simpl length. change (inject_Z (Z.of_nat 0)) with 0.
    unfold Qsum. simpl. split; lra.
  - rewrite Qsum_cons.
    destruct (H x (or_introl eq_refl)) as [Hlo Hhi].
    destruct IH as [IHlo IHhi]; [intros y Hy; apply H; now right|].
    assert (E : inject_Z (Z.of_nat (length (x :: l)))
                == inject_Z (Z.of_nat (length l)) + 1).
    { simpl length. rewrite Nat2Z.inj_succ. unfold Z.succ.
      rewrite inject_Z_plus. reflexivity. }
    rewrite E. split; lra.
Qed.

(** The rounded mean of a non-empty group stays within whole-number bounds
    of its members. *)
Lemma group_mean_between (r : Row Q) (group : list string) (lo hi : Z) :
  group <> [] ->
  (forall g, In g group -> inject_Z lo <= value r g <= inject_Z hi) ->
  inject_Z lo <= group_mean r group <= inject_Z hi.
Proof.
  intros Hne H. unfold group_mean. apply Qround_decimals_between.
  destruct (Qsum_between (map (value r) group) (inject_Z lo) (inject_Z hi))
    as [Hlo Hhi].
  { intros x Hx. apply in_map_iff in Hx as (g & <- & Hg). now apply H. }
  rewrite length_map in Hlo, Hhi.
  set (n := inject_Z (Z.of_nat (length group))) in *.
  assert (Hn : 0 < n).
  { unfold n. change 0 with (inject_Z 0). rewrite <- Zlt_Qlt.
    destruct group; [congruence|simpl; lia]. }
  split.
  - apply Qle_shift_div_l; [exact Hn|]. lra.
  - apply Qle_shift_div_r; [exact Hn|]. lra.
Qed.

Section LoadingFacts.

Variable build_subfactor_df : list (Row Q).

Lemma build_factor_df_In (arg : option (list (Row Q))) (r' : Row Q) :
  In r' (build_factor_df build_subfactor_df arg) ->
  exists r,
    In r (match arg with None => build_subfactor_df | Some df => df end) /\
    Country r' = Country r /\
    value r' "Freedom & Personal Choice" = group_mean r freedom_group /\
    value r' "Income & Career Growth" = group_mean r income_group /\
    value r' "Education Quality & Access" = group_mean r education_group /\
    value r' "Cost of Living & Affordability" = group_mean r cost_group.
Proof.
  unfold build_factor_df. intros H.
  apply in_map_iff in H as (r & <- & Hr).
  exists r. split; [exact Hr|]. repeat split.
Qed.

Lemma build_factor_df_between (arg : option (list (Row Q))) (lo hi : Z) :
  (forall r g,
     In r (match arg with None => build_subfactor_df | Some df => df end) ->
     In g subfactor_names -> inject_Z lo <= value r g <= inject_Z hi) ->
  forall r' f,
    In r' (build_factor_df build_subfactor_df arg) ->
    In f data.FACTOR_NAMES ->
    inject_Z lo <= value r' f <= inject_Z hi.
Proof.
  intros H r' f Hr' Hf.
  apply build_factor_df_In in Hr' as (r & Hr & _ & E1 & E2 & E3 & E4).
  assert (Hg : forall group,
            group <> [] -> (forall g, In g group -> In g subfactor_names) ->
            inject_Z lo <= group_mean r group <= inject_Z hi).
  { intros group Hne Hsub. apply group_mean_between; [exact Hne|].
    intros g Hg. apply (H r g Hr). now apply Hsub. }
  unfold subfactor_names in Hg.
  destruct Hf as [<-|[<-|[<-|[<-|[]]]]].
  - rewrite E1. apply Hg; [discriminate|].
    intros g Hin. apply in_or_app. now left.
  - rewrite E2. apply Hg; [discriminate|].
    intros g Hin. apply in_or_app. right. apply in_or_app. now left.
  - rewrite E3. apply Hg; [discriminate|].
    intros g Hin. do 2 (apply in_or_app; right). apply in_or_app. now left.
  - rewrite E4. apply Hg; [discriminate|].
    intros g Hin. do 3 (apply in_or_app; right). exact Hin.
Qed.

End LoadingFacts.

(** X20: [build_factor_df] keeps the countries of the sub-factor table in
    their order, and each of the four factors of a row lies within 0.05 of
    the mean of its group of sub-factors. *)
Theorem build_factor_df_means
  (build_subfactor_df : list (Row Q)) (arg : option (list (Row Q))) :
  let sub := match arg with None => build_subfactor_df | Some df => df end in
  let ff := build_factor_df build_subfactor_df arg in
  map Country ff = map Country sub /\
  Forall2
    (fun r r' =>
       forall f group,
         In (f, group)
            (combine data.FACTOR_NAMES
               [freedom_group; income_group; education_group; cost_group]) ->
         let mean := Qsum (map (value r) group)
                     / inject_Z (Z.of_nat (length group)) in
         mean - (1 # 20) <= value r' f <= mean + (1 # 20))
    sub ff.
Proof.
  simpl. unfold build_factor_df.
  set (sub := match arg with None => build_subfactor_df | Some df => df end).
  split; [now rewrite map_map|].
  induction sub as [|r sub IH]; simpl; constructor; [|exact IH].
  intros f group Hin.
  assert (Hnear : forall x,
            x - (1 # 20) <= Qround_decimals 1 x <= x + (1 # 20)).
  { intros x. destruct (Qround_decimals_near 1 x) as [Hlo Hhi].
    assert (E : (1 # 2) / inject_Z (pow10 1) == 1 # 20) by reflexivity.
    rewrite E in Hlo, Hhi. split; assumption. }
  simpl in Hin.
  destruct Hin as [E|[E|[E|[E|[]]]]]; injection E as <- <-; apply Hnear.
Qed.

(** X21: when every sub-factor of every row lies between two whole numbers,
    so does every factor of every row that [build_factor_df] returns. *)
Theorem build_factor_df_bounds
  (build_subfactor_df : list (Row Q)) (arg : option (list (Row Q)))
  (lo hi : Z) :
  (forall r g,
     In r (match arg with None => build_subfactor_df | Some df => df end) ->
     In g subfactor_names -> inject_Z lo <= value r g <= inject_Z hi) ->
  forall r' f,
    In r' (build_factor_df build_subfactor_df arg) ->
    In f data.FACTOR_NAMES ->
    inject_Z lo <= value r' f <= inject_Z hi.
Proof. apply build_factor_df_between. Qed.

Lemma build_factor_df_bounds_witness :
  (forall r g, In r subfactor_sample -> In g subfactor_names ->
               inject_Z 0 <= value r g <= inject_Z 100) /\
  (forall r' f,
     In r' (build_factor_df [] (Some subfactor_sample)) ->
     In f data.FACTOR_NAMES ->
     inject_Z 0 <= value r' f <= inject_Z 100).
Proof.
  assert (H : forall r g, In r subfactor_sample -> In g subfactor_names ->
                          inject_Z 0 <= value r g <= inject_Z 100).
  { intros r g [<-|[<-|[]]] Hg; unfold subfactor_names in Hg; simpl in Hg;
      repeat (destruct Hg as [<-|Hg]; [vm_compute; split; discriminate|]);
      destruct Hg. }
  split; [exact H|].
  apply (build_factor_df_bounds [] (Some subfactor_sample) 0 100).
  exact H.
Defined.

(** X22: sub-factors between 0 and 100 and non-negative weights give
    weighted scores between 0 and 100: the scored table of the factors that
    [build_factor_df] returns stays on the scale of its inputs. *)
Theorem build_factor_df_scores_on_scale
  (build_subfactor_df : list (Row Q)) (arg : option (list (Row Q)))
  (DEFAULT_WEIGHTS : dict Q) (w : dict Q) (scored : list (ScoredRow Q)) :
  (forall r g,
     In r (match arg with None => build_subfactor_df | Some df => df end) ->
     In g subfactor_names -> 0 <= value r g <= 100) ->
  (forall k v, In (k, v) w -> 0 <= v) ->
  compute_weighted_utility data.FACTOR_NAMES DEFAULT_WEIGHTS
    (build_factor_df build_subfactor_df arg) (Some w) = inr scored ->
  forall s, In s scored -> 0 <= Weighted_Score s <= 100.
Proof.
  intros Hsub Hw H s Hs.
  apply compute_weighted_utility_inr_dict in H. subst scored.
  apply scored_of_In in Hs as [Hr Hws]. rewrite Hws.
  rewrite (Qround_decimals_comp 2 _ _
             (row_score_weighted_mean data.FACTOR_NAMES w (row s))).
  apply (Qround_decimals_between 2 0 100).
  apply weighted_mean_between; [| exact Hw | | lia].
  - repeat (apply NoDup_cons; [simpl; intuition discriminate|]). apply NoDup_nil.
  - intros f Hf.
    apply (build_factor_df_between build_subfactor_df arg 0 100 Hsub (row s) f
             Hr Hf).
Qed.

Lemma build_factor_df_scores_on_scale_witness :
  (forall r g, In r subfactor_sample -> In g subfactor_names ->
               0 <= value r g <= 100) /\
  (forall k v, In (k, v) data.DEFAULT_WEIGHTS -> 0 <= v) /\
  (forall s,
     In s (scored_of data.FACTOR_NAMES
             (build_factor_df [] (Some subfactor_sample))
             data.DEFAULT_WEIGHTS) ->
     0 <= Weighted_Score s <= 100).
Proof.
  assert (H : forall r g, In r subfactor_sample -> In g subfactor_names ->
                          0 <= value r g <= 100).
  { intros r g [<-|[<-|[]]] Hg; unfold subfactor_names in Hg; simpl in Hg;
      repeat (destruct Hg as [<-|Hg]; [vm_compute; split; discriminate|]);
      destruct Hg. }
  assert (Hw : forall k v, In (k, v) data.DEFAULT_WEIGHTS -> 0 <= v).
  { intros k v [E|[E|[E|[E|[]]]]]; injection E as <- <-; vm_compute;
      discriminate. }
  split; [exact H|]. split; [exact Hw|].
  apply (build_factor_df_scores_on_scale [] (Some subfactor_sample)
           data.DEFAULT_WEIGHTS data.DEFAULT_WEIGHTS).
  - exact H.
  - exact Hw.
  - vm_compute; reflexivity.
Defined.

(** ** The weights of the sidebar *)

Lemma py_sum_divided (T : Q) (l : list Q) (a a' : Q) :
  a' == a / T ->
  fold_left Qplus (map (fun v => v / T) l) a' == fold_left Qplus l a / T.
Proof.
  revert a a'. induction l as [|x l IH]; intros a a' E; simpl; [exact E|].
  apply IH. rewrite E. unfold Qdiv. ring.
Qed.

Section Rescaled.

Variable FACTOR_NAMES : list string.
Variable DEFAULT_WEIGHTS : dict Q.

(** In exact arithmetic, dividing every weight by the same non-zero number
    changes nothing: neither the exception nor the scored table. *)
Lemma compute_weighted_utility_rescaled
  (df : list (Row Q)) (w : dict Q) (T : Q) :
  ~ T == 0 -> ~ py_sum (values w) == 0 ->
  compute_weighted_utility FACTOR_NAMES DEFAULT_WEIGHTS df
    (Some (map (fun kv => (fst kv, snd kv / T)) w))
  = compute_weighted_utility FACTOR_NAMES DEFAULT_WEIGHTS df (Some w).
Proof.
  intros HT Hz.
  set (w' := map (fun kv => (fst kv, snd kv / T)) w).
  assert (Hsum : py_sum (values w') == py_sum (values w) / T).
  { unfold py_sum, values, w'. rewrite map_map. simpl.
    rewrite <- (map_map snd (fun v => v / T)).
    apply py_sum_divided. simpl. unfold Qdiv. ring. }
  assert (Hz' : ~ py_sum (values w') == 0).
  { rewrite Hsum. intros E. apply Hz.
    assert (E' : py_sum (values w) == py_sum (values w) / T * T)
      by (field; exact HT).
    rewrite E' , E. ring. }
  assert (Hkeys : keys w' = keys w) by apply keys_normalized.
  destruct (Forall_Exists_dec (fun f => In f (keys w))
              (fun f => in_dec String.string_dec f (keys w)) FACTOR_NAMES)
    as [Hall|Hex].
  - rewrite Forall_forall in Hall.
    rewrite !compute_weighted_utility_ok; try assumption.
    2:{ intros f Hf. rewrite Hkeys. now apply Hall. }
    f_equal. unfold scored_of.
    set (t := py_sum (values w)) in *.
    set (t' := py_sum (values w')) in *.
    assert (Hscore :
      map (fun r => Qround_decimals 2
                      (row_score FACTOR_NAMES
                         (map (fun kv => (fst kv, snd kv / t')) w') r)) df
      = map (fun r => Qround_decimals 2
                        (row_score FACTOR_NAMES
                           (map (fun kv => (fst kv, snd kv / t)) w) r)) df).
    { apply map_ext. intros r. apply Qround_decimals_comp.
      unfold row_score, w'. rewrite map_map. simpl.
      apply row_score_comp; [|reflexivity].
      intros f.
      apply (weight_of_comp (fun v => v / T / t') (fun v => v / t)).
      intros v. rewrite Hsum. field. split; assumption. }
    now rewrite Hscore.
  - apply Exists_exists in Hex.
    unfold compute_weighted_utility.
    rewrite (normalize_ok w' Hz'), (normalize_ok w Hz). simpl bind.
    rewrite !(weighted_column_KeyError FACTOR_NAMES); try reflexivity.
    + destruct Hex as (f & Hf & Hn). exists f. split; [exact Hf|].
      now rewrite keys_normalized.
    + destruct Hex as (f & Hf & Hn). exists f. split; [exact Hf|].
      now rewrite keys_normalized, Hkeys.
Qed.

End Rescaled.

(** X23: with all four sliders at 0 the guard of the sidebar replaces the
    zero total by 1, the four weights are 0, and [compute_weighted_utility]
    raises [ZeroDivisionError] for every table, in exact arithmetic and in
    binary64. *)
Theorem sidebar_weights_all_zero_raises
  (FACTOR_NAMES : list string)
  (DEFAULT_WEIGHTS : dict Q) (factor_df : list (Row Q))
  (DEFAULT_WEIGHTS64 : dict PrimFloat.float)
  (factor_df64 : list (Row PrimFloat.float)) :
  compute_weighted_utility FACTOR_NAMES DEFAULT_WEIGHTS factor_df
    (Some (sidebar_weights_Q 0 0 0 0)) = inl ZeroDivisionError /\
  compute_weighted_utility FACTOR_NAMES DEFAULT_WEIGHTS64 factor_df64
    (Some (sidebar_weights_binary64 0 0 0 0)) = inl ZeroDivisionError.
Proof.
  split.
  - unfold compute_weighted_utility.
    assert (E : normalize (sidebar_weights_Q 0 0 0 0) = inl ZeroDivisionError)
      by (vm_compute; reflexivity).
    rewrite E. reflexivity.
  - unfold compute_weighted_utility.
    assert (E : normalize (sidebar_weights_binary64 0 0 0 0)
                = inl ZeroDivisionError)
      by (vm_compute; reflexivity).
    rewrite E. reflexivity.
Qed.

(** X24: in exact arithmetic, slider values with a non-zero total give
    sidebar weights that add up to 1, and [compute_weighted_utility] gives
    with them what it gives with the slider values themselves. *)
Theorem sidebar_weights_normalized
  (w1 w2 w3 w4 : Z) :
  (w1 + w2 + w3 + w4 <> 0)%Z ->
  py_sum (values (sidebar_weights_Q w1 w2 w3 w4)) == 1 /\
  forall (FACTOR_NAMES : list string) (DEFAULT_WEIGHTS : dict Q)
         (factor_df : list (Row Q)),
    compute_weighted_utility FACTOR_NAMES DEFAULT_WEIGHTS factor_df
      (Some (sidebar_weights_Q w1 w2 w3 w4))
    = compute_weighted_utility FACTOR_NAMES DEFAULT_WEIGHTS factor_df
        (Some (slider_values w1 w2 w3 w4)).
Proof.
  intros Hne.
  set (T := inject_Z (w1 + w2 + w3 + w4)).
  assert (HT : ~ T == 0).
  { unfold T. intros E. apply Hne.
    unfold Qeq in E. simpl in E. lia. }
  assert (Hraw : py_sum (values (slider_values w1 w2 w3 w4)) == T).
  { unfold py_sum, values, slider_values, factor_weights, T. simpl.
    rewrite !inject_Z_plus. ring. }
  assert (Hside : sidebar_weights_Q w1 w2 w3 w4
                  = map (fun kv => (fst kv, snd kv / T))
                        (slider_values w1 w2 w3 w4)).
  { unfold sidebar_weights_Q, sidebar_weights, T.
    destruct (Z.eqb_spec (w1 + w2 + w3 + w4) 0) as [E|_]; [contradiction|].
    reflexivity. }
  split.
  - rewrite Hside. unfold py_sum, values, slider_values, factor_weights.
    simpl. unfold T in *. rewrite !inject_Z_plus in *. field. exact HT.
  - intros FACTOR_NAMES DEFAULT_WEIGHTS factor_df. rewrite Hside.
    apply compute_weighted_utility_rescaled; [exact HT|].
    rewrite Hraw. exact HT.
Qed.

Lemma sidebar_weights_normalized_witness :
  py_sum (values (sidebar_weights_Q 35 30 20 15)) == 1 /\
  forall (FACTOR_NAMES : list string) (DEFAULT_WEIGHTS : dict Q)
         (factor_df : list (Row Q)),
    compute_weighted_utility FACTOR_NAMES DEFAULT_WEIGHTS factor_df
      (Some (sidebar_weights_Q 35 30 20 15))
    = compute_weighted_utility FACTOR_NAMES DEFAULT_WEIGHTS factor_df
        (Some (slider_values 35 30 20 15)).
Proof.
  apply (sidebar_weights_normalized 35 30 20 15). lia.
Defined.

(** X25: the clamp [min(top_n, len(scored_df))] that the page applies
    before calling [build_tradeoff_matrix] changes nothing: [head] already
    stops at the end of the table. *)
Theorem build_tradeoff_matrix_clamp
  (FACTOR_NAMES : list string) (scored : list (ScoredRow Q)) (top_n : Z) :
  build_tradeoff_matrix FACTOR_NAMES scored
    (Z.min top_n (Z.of_nat (length scored)))
  = build_tradeoff_matrix FACTOR_NAMES scored top_n.
Proof.
  unfold build_tradeoff_matrix.
  assert (E : head (Z.min top_n (Z.of_nat (length scored))) scored
              = head top_n scored).
  { destruct (Z.le_gt_cases top_n (Z.of_nat (length scored))) as [H|H].
    - now rewrite Z.min_l.
    - rewrite Z.min_r by lia. unfold head.
      destruct (Z.leb_spec 0 (Z.of_nat (length scored))) as [_|H0]; [|lia].
      destruct (Z.leb_spec 0 top_n) as [_|H1]; [|lia].
      rewrite Nat2Z.id, firstn_all. symmetry. apply firstn_all2. lia. }
  now rewrite E.
Qed.

(** ** The countries of the radar charts *)

Lemma existsb_eqb_In (x : string) (l : list string) :
  existsb (String.eqb x) l = true <-> In x l.
Proof.
  rewrite existsb_exists. split.
  - intros (y & Hy & E). apply String.eqb_eq in E. now subst.
  - intros H. exists x. split; [exact H|apply String.eqb_refl].
Qed.

(** [dict.fromkeys] keeps what it has seen, adds the new names, and never
    repeats one. *)
Lemma dict_fromkeys_from (xs seen : list string) :
  NoDup seen ->
  let out := fold_left (fun seen x => if existsb (String.eqb x) seen then seen
                                      else seen ++ [x]) xs seen in
  NoDup out /\
  (forall x, In x out <-> In x seen \/ In x xs) /\
  (length out <= length seen + length xs)%nat /\
  exists added, out = seen ++ added.
Proof.
  revert seen. induction xs as [|x xs IH]; intros seen Hnd; simpl.
  - split; [exact Hnd|]. split; [intros x; tauto|]. split; [lia|].
    exists []. now rewrite app_nil_r.
  - destruct (existsb (String.eqb x) seen) eqn:E.
    + apply existsb_eqb_In in E.
      destruct (IH seen Hnd) as (H1 & H2 & H3 & H4).
      split; [exact H1|]. split; [|split; [lia|exact H4]].
      intros y. rewrite H2. split; [tauto|].
      intros [H|[<-|H]]; auto.
    + assert (Hx : ~ In x seen).
      { intros H. apply existsb_eqb_In in H. congruence. }
      assert (Hnd' : NoDup (seen ++ [x])).
      { apply NoDup_app; [exact Hnd|repeat constructor; intros []|].
        intros y Hy [<-|[]]. contradiction. }
      destruct (IH (seen ++ [x]) Hnd') as (H1 & H2 & H3 & added & H4).
      split; [exact H1|]. split; [|split].
      * intros y. rewrite H2, in_app_iff. simpl. tauto.
      * rewrite length_app in H3. simpl in H3. lia.
      * exists (x :: added). rewrite H4, <- app_assoc. reflexivity.
Qed.

Lemma dict_fromkeys_spec (xs : list string) :
  NoDup (dict_fromkeys xs) /\
  (forall x, In x (dict_fromkeys xs) <-> In x xs) /\
  (length (dict_fromkeys xs) <= length xs)%nat.
Proof.
  destruct (dict_fromkeys_from xs [] (NoDup_nil _)) as (H1 & H2 & H3 & _).
  split; [exact H1|]. split; [|exact H3].
  intros x. rewrite (H2 x). simpl. tauto.
Qed.

Lemma tail_length {A} (n : nat) (df : list A) :
  length (tail n df) = Nat.min n (length df).
Proof. unfold tail. rewrite length_skipn. lia. Qed.

Lemma tail_In {A} (n : nat) (df : list A) (a : A) :
  In a (tail n df) -> In a df.
Proof.
  unfold tail. intros H.
  rewrite <- (firstn_skipn (length df - n) df). apply in_or_app. now right.
Qed.

(** X26: with more than fifteen scored rows the radar chart of the page
    shows at most twelve countries, none twice: the highlighted one, those
    of the first eight rows and those of the last three, and no other. *)
Theorem radar_countries_selection
  (scored : list (ScoredRow Q)) (highlight : string) :
  (15 < length scored)%nat ->
  let shown := radar_countries scored highlight in
  NoDup shown /\
  (length shown <= 12)%nat /\
  forall c,
    In c shown
    <-> c = highlight
        \/ In c (map (fun s => Country (row s)) (firstn 8 scored))
        \/ In c (map (fun s => Country (row s))
                     (skipn (length scored - 3) scored)).
Proof.
  intros Hlen. unfold radar_countries.
  apply Nat.ltb_lt in Hlen as Hb. rewrite Hb. simpl.
  set (top_n := map (fun s => Country (row s)) (head 8 scored)).
  set (bot_n := map (fun s => Country (row s)) (tail 3 scored)).
  destruct (dict_fromkeys_spec (top_n ++ highlight :: bot_n))
    as (H1 & H2 & H3).
  split; [exact H1|]. split.
  - eapply Nat.le_trans; [exact H3|].
    rewrite length_app. simpl. unfold top_n, bot_n.
    rewrite !length_map, tail_length, head_length by lia. lia.
  - intros c. rewrite H2, in_app_iff. simpl.
    unfold top_n, bot_n, head, tail. simpl.
    change (Pos.to_nat 8) with 8%nat.
    split; [intros [H|[H|H]]|intros [H|[H|H]]]; auto.
Qed.

Lemma radar_countries_selection_witness :
  let shown := radar_countries sixteen "E" in
  NoDup shown /\
  (length shown <= 12)%nat /\
  forall c,
    In c shown
    <-> c = "E"
        \/ In c (map (fun s => Country (row s)) (firstn 8 sixteen))
        \/ In c (map (fun s => Country (row s))
                     (skipn (length sixteen - 3) sixteen)).
Proof.
  apply (radar_countries_selection sixteen "E").
  vm_compute; lia.
Defined.

Lemma first_row_of_iff (factor_df : list (Row Q)) (country : string) :
  (In country (map Country factor_df) ->
   exists r, first_row_of factor_df country = inr r /\
             In r factor_df /\ Country r = country) /\
  (~ In country (map Country factor_df) ->
   first_row_of factor_df country = inl IndexError).
Proof.
  unfold first_row_of.
  destruct (filter (fun r => String.eqb (Country r) country) factor_df)
    as [|r l] eqn:E.
  - split; [|reflexivity].
    intros Hin. apply in_map_iff in Hin as (r & Hc & Hr).
    assert (H : In r (filter (fun r => String.eqb (Country r) country)
                        factor_df)).
    { apply filter_In. split; [exact Hr|]. now apply String.eqb_eq. }
    rewrite E in H. destruct H.
  - assert (H : In r (filter (fun r => String.eqb (Country r) country)
                        factor_df)) by (rewrite E; now left).
    apply filter_In in H as [Hr Hc]. apply String.eqb_eq in Hc.
    split.
    + intros _. exists r. auto.
    + intros Hn. exfalso. apply Hn. rewrite <- Hc. now apply in_map.
Qed.

Lemma mapM_inl {A B} (f : A -> result B) (l : list A) (e : exn) :
  (forall x, In x l -> (exists y, f x = inr y) \/ f x = inl e) ->
  (exists x, In x l /\ f x = inl e) ->
  mapM f l = inl e.
Proof.
  induction l as [|x l IH]; intros Hall (x0 & Hx0 & He); [destruct Hx0|].
  simpl. destruct (Hall x (or_introl eq_refl)) as [[y Hy]|Hx].
  - rewrite Hy. simpl.
    destruct Hx0 as [->|Hx0]; [congruence|].
    rewrite IH; [reflexivity| |now exists x0].
    intros z Hz. apply Hall. now right.
  - now rewrite Hx.
Qed.

(** X27: given at least one factor name and a scored table whose countries
    are all in the factor table, the radar panel of the static dashboard
    gets its series exactly when the factor table has a row for Israel; it
    raises [IndexError] otherwise. *)
Theorem draw_radar_needs_Israel
  (FACTOR_NAMES : list string) (factor_df : list (Row Q))
  (scored_df : list (ScoredRow Q)) :
  FACTOR_NAMES <> [] ->
  (forall s, In s scored_df -> In (Country (row s)) (map Country factor_df)) ->
  (In "Israel" (map Country factor_df) ->
   exists series,
     _draw_radar FACTOR_NAMES factor_df scored_df = inr series /\
     In "Israel" (map fst series) /\
     forall cv, In cv series ->
       length (snd cv) = S (length FACTOR_NAMES)) /\
  (~ In "Israel" (map Country factor_df) ->
   _draw_radar FACTOR_NAMES factor_df scored_df = inl IndexError).
Proof.
  intros Hfn Hsub. unfold _draw_radar.
  set (top5 := map (fun s => Country (row s)) (head 5 scored_df)).
  set (bottom2 := map (fun s => Country (row s)) (tail 2 scored_df)).
  destruct (dict_fromkeys_spec (top5 ++ ["Israel"] ++ bottom2))
    as (_ & Hshow & _).
  set (show := dict_fromkeys (top5 ++ ["Israel"] ++ bottom2)) in *.
  destruct FACTOR_NAMES as [|f0 fs] eqn:EF; [congruence|]. rewrite <- EF.
  assert (Hin : forall c, In c show ->
                  c = "Israel" \/ In c (map Country factor_df)).
  { intros c Hc. apply Hshow in Hc.
    apply in_app_or in Hc as [Hc|[Hc|Hc]].
    - right. apply in_map_iff in Hc as (s & <- & Hs).
      apply Hsub. now apply head_In in Hs.
    - now left.
    - right. apply in_map_iff in Hc as (s & <- & Hs).
      apply Hsub. now apply tail_In in Hs. }
  assert (HI : In "Israel" show).
  { apply Hshow. apply in_or_app. right. now left. }
  split.
  - intros HIsr.
    destruct (mapM_Forall2
                (fun country =>
                   let* r := first_row_of factor_df country in
                   let* closing := ret (value r f0) in
                   ret (country, map (value r) FACTOR_NAMES ++ [closing]))
                (fun c cv => fst cv = c /\
                             length (snd cv) = S (length FACTOR_NAMES))
                show) as (series & Hs & HF).
    { intros c Hc.
      assert (Hcin : In c (map Country factor_df)).
      { destruct (Hin c Hc) as [->|H]; assumption. }
      destruct (proj1 (first_row_of_iff factor_df c) Hcin) as (r & -> & _).
      simpl. eexists. split; [reflexivity|]. simpl. split; [reflexivity|].
      rewrite length_app, length_map. simpl. lia. }
    exists series. split; [exact Hs|]. split.
    + destruct (Forall2_pick_l _ _ _ _ HF HI) as (cv & Hcv & <- & _).
      now apply in_map.
    + intros cv Hcv.
      destruct (Forall2_pick_r _ _ _ _ HF Hcv) as (c & _ & _ & Hl).
      exact Hl.
  - intros HnI.
    apply mapM_inl.
    + intros c Hc. destruct (Hin c Hc) as [->|Hcin].
      * right. now rewrite (proj2 (first_row_of_iff factor_df "Israel") HnI).
      * left.
        destruct (proj1 (first_row_of_iff factor_df c) Hcin) as (r & -> & _).
        simpl. eexists. reflexivity.
    + exists "Israel". split; [exact HI|].
      now rewrite (proj2 (first_row_of_iff factor_df "Israel") HnI).
Qed.

Lemma draw_radar_needs_Israel_witness :
  (In "Israel" (map Country with_Israel) ->
   exists series,
     _draw_radar data.FACTOR_NAMES with_Israel with_Israel_scored
     = inr series /\
     In "Israel" (map fst series) /\
     forall cv, In cv series ->
       length (snd cv) = S (length data.FACTOR_NAMES)) /\
  (~ In "Israel" (map Country with_Israel) ->
   _draw_radar data.FACTOR_NAMES with_Israel with_Israel_scored
   = inl IndexError).
Proof.
  apply (draw_radar_needs_Israel data.FACTOR_NAMES with_Israel
           with_Israel_scored).
  - discriminate.
  - assert (E : map (fun s => Country (row s)) with_Israel_scored
                = ["Norway"; "Israel"]) by (vm_compute; reflexivity).
    intros s Hs.
    apply (in_map (fun s => Country (row s))) in Hs. rewrite E in Hs.
    destruct Hs as [<-|[<-|[]]]; simpl; auto.
Defined.

(** ** The analysis step of the page, and a wider trade-off matrix *)

(** X28: with at least one selected country and slider values whose total is
    not zero, the four analysis calls of the page all return (in exact
    arithmetic), and the scored table has one row per selected country. *)
Theorem page_analysis_returns
  (DEFAULT_WEIGHTS : dict Q) (factor_df : list (Row Q)) (w1 w2 w3 w4 : Z) :
  factor_df <> [] ->
  (w1 + w2 + w3 + w4 <> 0)%Z ->
  exists scored dominant nash,
    compute_weighted_utility data.FACTOR_NAMES DEFAULT_WEIGHTS factor_df
      (Some (sidebar_weights_Q w1 w2 w3 w4)) = inr scored /\
    length scored = length factor_df /\
    find_dominant_strategy data.FACTOR_NAMES factor_df = inr dominant /\
    find_nash_equilibrium data.FACTOR_NAMES factor_df = inr nash /\
    In nash (map Country factor_df).
Proof.
  intros Hne Hsum.
  set (w := sidebar_weights_Q w1 w2 w3 w4).
  assert (Hone : py_sum (values w) == 1).
  { unfold w, sidebar_weights_Q, sidebar_weights.
    destruct (Z.eqb_spec (w1 + w2 + w3 + w4) 0) as [E|_]; [contradiction|].
    unfold py_sum, values. simpl.
    assert (HT : ~ inject_Z (w1 + w2 + w3 + w4) == 0).
    { intros E. unfold Qeq in E. simpl in E. lia. }
    rewrite !inject_Z_plus in *. field. exact HT. }
  assert (Hz : ~ py_sum (values w) == 0).
  { rewrite Hone. discriminate. }
  assert (Hkeys : forall f, In f data.FACTOR_NAMES -> In f (keys w)).
  { intros f Hf. exact Hf. }
  destruct (find_dominant_strategy_ok data.FACTOR_NAMES factor_df Hne)
    as (dominant & Hd).
  destruct (find_nash_equilibrium_head data.FACTOR_NAMES factor_df Hne)
    as (i & r & Hi & Hn & _).
  exists (scored_of data.FACTOR_NAMES factor_df w), dominant, (Country r).
  split; [now apply compute_weighted_utility_ok|].
  split; [apply scored_of_length|].
  split; [exact Hd|]. split; [exact Hn|].
  apply in_map. eapply nth_error_In. exact Hi.
Qed.

Lemma page_analysis_returns_witness :
  exists scored dominant nash,
    compute_weighted_utility data.FACTOR_NAMES data.DEFAULT_WEIGHTS sample
      (Some (sidebar_weights_Q 35 30 20 15)) = inr scored /\
    length scored = length sample /\
    find_dominant_strategy data.FACTOR_NAMES sample = inr dominant /\
    find_nash_equilibrium data.FACTOR_NAMES sample = inr nash /\
    In nash (map Country sample).
Proof.
  apply (page_analysis_returns data.DEFAULT_WEIGHTS sample 35 30 20 15).
  - discriminate.
  - lia.
Defined.

Lemma firstn_prefix_nth {A} (n1 n2 : nat) (l : list A) (i : nat) (a : A) :
  (n1 <= n2)%nat ->
  nth_error (firstn n1 l) i = Some a -> nth_error (firstn n2 l) i = Some a.
Proof.
  intros Hle H.
  assert (Hi : (i < n1)%nat).
  { assert (Hs : nth_error (firstn n1 l) i <> None) by congruence.
    apply nth_error_Some in Hs. rewrite length_firstn in Hs. lia. }
  rewrite nth_error_firstn in H |- *.
  destruct (Nat.ltb_spec i n1); [|lia].
  destruct (Nat.ltb_spec i n2); [exact H|lia].
Qed.

Lemma firstn_prefix_In {A} (n1 n2 : nat) (l : list A) (a : A) :
  (n1 <= n2)%nat -> In a (firstn n1 l) -> In a (firstn n2 l).
Proof.
  intros Hle H. apply In_nth_error in H as [i Hi].
  eapply nth_error_In. eapply firstn_prefix_nth; eauto.
Qed.

(** X29: a larger [top_n] compares each row against more rows: the records
    of the narrower matrix stay in place, and none of their deltas gets
    larger. *)
Theorem build_tradeoff_matrix_wider
  (FACTOR_NAMES : list string) (scored : list (ScoredRow Q)) (k1 k2 : Z) :
  (1 <= k1)%Z -> (k1 <= k2)%Z ->
  forall i t1,
    nth_error (build_tradeoff_matrix FACTOR_NAMES scored k1) i = Some t1 ->
    exists t2,
      nth_error (build_tradeoff_matrix FACTOR_NAMES scored k2) i = Some t2 /\
      tr_Country t2 = tr_Country t1 /\
      tr_Weighted_Score t2 = tr_Weighted_Score t1 /\
      Forall2 (fun d1 d2 => fst d2 = fst d1 /\ snd d2 <= snd d1)
              (deltas t1) (deltas t2).
Proof.
  intros H1 H12 i t1. unfold build_tradeoff_matrix.
  rewrite !head_firstn by lia.
  set (n1 := Nat.min (Z.to_nat k1) (length scored)).
  set (n2 := Nat.min (Z.to_nat k2) (length scored)).
  assert (Hn : (n1 <= n2)%nat) by (unfold n1, n2; lia).
  destruct (firstn n1 scored) as [|r1 rest1] eqn:E1; [destruct i; discriminate|].
  destruct (firstn n2 scored) as [|r2 rest2] eqn:E2.
  { assert (H : In r1 (firstn n2 scored)).
    { apply (firstn_prefix_In n1 n2 scored r1 Hn). rewrite E1. now left. }
    rewrite E2 in H. destruct H. }
  intros Ht1. rewrite nth_error_map in Ht1.
  destruct (nth_error (r1 :: rest1) i) as [s|] eqn:Es; [|discriminate].
  simpl in Ht1. injection Ht1 as <-.
  assert (Es2 : nth_error (r2 :: rest2) i = Some s).
  { rewrite <- E2. apply (firstn_prefix_nth n1 n2 scored i s Hn).
    now rewrite E1. }
  eexists. split; [rewrite nth_error_map, Es2; reflexivity|].
  simpl. split; [reflexivity|]. split; [reflexivity|].
  induction FACTOR_NAMES as [|f fs IH]; simpl; constructor; [|exact IH].
  simpl. split; [reflexivity|].
  apply Qround_decimals_monotone.
  destruct (column_max_spec f r1 rest1) as [(s1 & Hs1 & <-) _].
  destruct (column_max_spec f r2 rest2) as [_ Hmax2].
  assert (Hin2 : In s1 (r2 :: rest2)).
  { rewrite <- E2. apply (firstn_prefix_In n1 n2 scored s1 Hn).
    now rewrite E1. }
  pose proof (Hmax2 s1 Hin2). lra.
Qed.

Lemma build_tradeoff_matrix_wider_witness :
  (1 <= 2)%Z /\ (2 <= 3)%Z /\
  forall i t1,
    nth_error (build_tradeoff_matrix data.FACTOR_NAMES sample_scored 2) i
    = Some t1 ->
    exists t2,
      nth_error (build_tradeoff_matrix data.FACTOR_NAMES sample_scored 3) i
      = Some t2 /\
      tr_Country t2 = tr_Country t1 /\
      tr_Weighted_Score t2 = tr_Weighted_Score t1 /\
      Forall2 (fun d1 d2 => fst d2 = fst d1 /\ snd d2 <= snd d1)
              (deltas t1) (deltas t2).
Proof.
  split; [lia|]. split; [lia|].
  apply (build_tradeoff_matrix_wider data.FACTOR_NAMES sample_scored 2 3); lia.
Defined.
